(** * Network-routing-overview: the routing-table engine and the path resolver

    A shallow embedding of [src/main.py]: the seed topology, the procedure
    [setup_routing_tables] (a Bellman-Ford relaxation run once per
    destination), the report loop of the script (which sorts every candidate
    list in place), [find_best_route], the loop that turns a path into
    steps, and [represent_network].

    Modelling conventions.
    - A router dictionary is a record; its ["type"] entry is the constant
      ["router"] and is left out.  Python compares dictionaries by content,
      which is Leibniz equality on the record ([gmap] is extensional).
    - The list [routers] is the store: position [i] stands for the object
      [routers[i]].  The routers of a list are taken to be distinct objects,
      each with a routing table of its own, as in the seed data.
    - Python integers are unbounded: [Z].
    - [KeyError] and [IndexError] are the two exceptions the code can raise;
      they are threaded by the error monad [exc].
    - The [while] loop of [find_best_route] has no bound; it is run with
      fuel, and [None] stands for a walk that has not returned yet.
    - What a procedure prints is a list of lines; what [represent_network]
      writes is the content of [./network.dot] when the call returns.  A
      failure to open or write the file is outside the model. *)

From Stdlib Require Import ZArith Ascii String Lia.
From stdpp Require Import base option list relations sorting gmap pretty.

Open Scope Z_scope.

(** ** Exceptions *)

Inductive exn := IndexError | KeyError.

Inductive exc (A : Type) :=
  | Ok (a : A)
  | Raise (e : exn).
Arguments Ok {A} a.
Arguments Raise {A} e.

#[global] Instance exc_ret : MRet exc := @Ok.
#[global] Instance exc_bind : MBind exc :=
  λ A B f m, match m with Ok a => f a | Raise e => Raise e end.

(** [for x in xs: body], the body updating the state or raising. *)
Fixpoint for_each {A S : Type} (xs : list A) (body : A → S → exc S) (s : S) : exc S :=
  match xs with
  | [] => Ok s
  | x :: xs' => s' ← body x s; for_each xs' body s'
  end.

(** ** Data model *)

(** A candidate [(next_hop_id, total_cost)]; a neighbour is [(router_id, cost)]. *)
Abbreviation hop := (Z * Z)%type.

Record router := Router {
  id : Z;
  nieghbors : list (Z * Z);
  routing_table : gmap Z (list hop)
}.

#[global] Instance router_eq_dec : EqDecision router.
Proof. solve_decision. Defined.

Definition with_table (r : router) (t : gmap Z (list hop)) : router :=
  {| id := id r; nieghbors := nieghbors r; routing_table := t |}.

(** ** Python primitives *)

(** The position [l[i]] denotes in a list of length [len]: negative indices
    count from the end, anything else out of range raises. *)
Definition py_pos (len : nat) (i : Z) : exc nat :=
  if decide (0 ≤ i < Z.of_nat len) then Ok (Z.to_nat i)
  else if decide (- Z.of_nat len ≤ i < 0) then Ok (Z.to_nat (Z.of_nat len + i))
  else Raise IndexError.

(** The object at a position of the store. *)
Definition obj {A} (l : list A) (p : nat) : exc A :=
  from_option Ok (Raise IndexError) (l !! p).

(** [l[i]] *)
Definition getitem {A} (l : list A) (i : Z) : exc A :=
  p ← py_pos (length l) i; obj l p.

(** [d[k]] *)
Definition getkey {V} (d : gmap Z V) (k : Z) : exc V :=
  from_option Ok (Raise KeyError) (d !! k).

(** [l[-1]] *)
Definition last_hop (l : list hop) : exc hop :=
  from_option Ok (Raise IndexError) (last l).

(** [routers[p]["routing_table"].__setitem__(k, v)] *)
Definition setitem_at (p : nat) (k : Z) (v : list hop) (routers : list router) : list router :=
  alter (λ r, with_table r (<[k := v]> (routing_table r))) p routers.

(** [routers[p]["routing_table"][k].append(h)] *)
Definition append_at (p : nat) (k : Z) (h : hop) (routers : list router) : exc (list router) :=
  r ← obj routers p;
  l ← getkey (routing_table r) k;
  Ok (setitem_at p k (l ++ [h]) routers).

(** ** [setup_routing_tables] *)

Definition infinity : Z := 10 ^ 10.

(** Lines 259-261: the seed of one router [_r] for the destination at
    position [di]. *)
Definition reset_router (di j : nat) (routers : list router) : exc (list router) :=
  _r ← obj routers j;
  destination ← obj routers di;
  if decide (_r ≠ destination)
  then Ok (setitem_at j (id destination) [(-1, infinity)] routers)
  else Ok routers.

(** Lines 268-274: the cost of the first entry for the destination in a
    neighbour list, [infinity] when there is none. *)
Fixpoint find_cost (dest_id : Z) (ns : list (Z * Z)) : Z :=
  match ns with
  | [] => infinity
  | n :: ns' => if decide (n.1 = dest_id) then n.2 else find_cost dest_id ns'
  end.

(** Lines 266-281: one neighbour [_r] of the destination gets the direct
    route appended. *)
Definition seed_neighbor (di : nat) (_r : Z * Z) (routers : list router) : exc (list router) :=
  destination ← obj routers di;
  p ← py_pos (length routers) _r.1;
  nr ← obj routers p;
  let cost_to_destination := find_cost (id destination) (nieghbors nr) in
  append_at p (id destination) (id destination, cost_to_destination) routers.

(** Lines 302-325: the router at position [j] asks one neighbour. *)
Definition relax_neighbor (di j : nat) (nieghbor : Z * Z) (routers : list router)
    : exc (list router) :=
  destination ← obj routers di;
  n ← getitem routers nieghbor.1;
  nl ← getkey (routing_table n) (id destination);
  nieghbor_to_dest_best_hop ← last_hop nl;
  let nieghbor_to_destination_cost := nieghbor_to_dest_best_hop.2 in
  if decide (nieghbor_to_destination_cost = infinity) then Ok routers
  else
    let start_to_nieghbor_cost := nieghbor.2 in
    start ← obj routers j;
    sl ← getkey (routing_table start) (id destination);
    sbest ← last_hop sl;
    let start_to_destination_cost := sbest.2 in
    if decide (start_to_nieghbor_cost + nieghbor_to_destination_cost < start_to_destination_cost)
    then append_at j (id destination)
           (nieghbor.1, start_to_nieghbor_cost + nieghbor_to_destination_cost) routers
    else Ok routers.

(** Lines 291-325: the body of the inner loop for the router at position [j]. *)
Definition relax_router (di j : nat) (routers : list router) : exc (list router) :=
  r ← obj routers j;
  destination ← obj routers di;
  if decide (r = destination) then Ok routers
  else for_each (nieghbors r) (relax_neighbor di j) routers.

(** Lines 291-325: one pass over all routers. *)
Definition relax_pass (di : nat) (routers : list router) : exc (list router) :=
  for_each (seq 0 (length routers)) (relax_router di) routers.

(** Lines 248-325: the body of the outer loop, the router at position [di]
    being the destination. *)
Definition dest_iteration (di : nat) (routers : list router) : exc (list router) :=
  router ← obj routers di;
  let routers := setitem_at di (id router) [(id router, 0)] routers in
  routers ← for_each (seq 0 (length routers)) (reset_router di) routers;
  destination ← obj routers di;
  routers ← for_each (nieghbors destination) (seed_neighbor di) routers;
  for_each (seq 0 (length routers)) (λ _, relax_pass di) routers.

Definition blank_routers_message : string :=
  "routers list should not be blank for setting up the routing tables.".

(** The procedure: what it prints, and the store it leaves (or the exception
    it raises). *)
Definition setup_routing_tables (routers : list router) : list string * exc (list router) :=
  if decide (length routers = 0%nat) then ([blank_routers_message], Ok routers)
  else ([], for_each (seq 0 (length routers)) dest_iteration routers).

(** ** The report loop of the script (lines 376-390) *)

Fixpoint insert_hop (h : hop) (l : list hop) : list hop :=
  match l with
  | [] => [h]
  | x :: l' => if decide (h.2 ≤ x.2) then h :: l else x :: insert_hop h l'
  end.

(** [hops.sort(key=lambda x: x[1])]: a stable sort by cost. *)
Fixpoint sort_hops (l : list hop) : list hop :=
  match l with
  | [] => []
  | h :: l' => insert_hop h (sort_hops l')
  end.

(** Every list of every table is sorted in place; [hops[0]] raises on an
    empty list.  The lines printed are left out. *)
Definition report_router (r : router) : exc router :=
  if decide (map_Forall (λ _ hops, hops ≠ []) (routing_table r))
  then Ok (with_table r (sort_hops <$> routing_table r))
  else Raise IndexError.

Fixpoint report_loop (routers : list router) : exc (list router) :=
  match routers with
  | [] => Ok []
  | router :: rest =>
      router' ← report_router router;
      rest' ← report_loop rest;
      Ok (router' :: rest')
  end.

(** The script up to the call of [find_best_route] (lines 371-390). *)
Definition script_tables (routers : list router) : exc (list router) :=
  rs ← (setup_routing_tables routers).2; report_loop rs.

(** ** [find_best_route] *)

Definition unknown_router_message : string :=
  "source and destination routers should be in the routers list to find a path.".

(** [routers[curr]["routing_table"][dest["id"]][0][0]] *)
Definition first_hop (r : router) (dest_id : Z) : exc Z :=
  l ← getkey (routing_table r) dest_id;
  h ← getitem l 0;
  Ok h.1.

(** Lines 349-355. *)
Fixpoint walk (fuel : nat) (routers : list router) (dest_id curr : Z) (path : list Z)
    : option (exc (list Z)) :=
  match fuel with
  | O => None
  | S fuel' =>
      if decide (curr ≠ dest_id) then
        match (r ← getitem routers curr; first_hop r dest_id) with
        | Ok next => walk fuel' routers dest_id next (path ++ [curr])
        | Raise e => Some (Raise e)
        end
      else Some (Ok (path ++ [dest_id]))
  end.

(** What is printed, and the path returned: [Some (Ok path)], an exception,
    or [None] when the fuel did not suffice. *)
Definition find_best_route (fuel : nat) (routers : list router) (src dest : router)
    : list string * option (exc (list Z)) :=
  let printed :=
    if decide (src ∉ routers ∨ dest ∉ routers) then [unknown_router_message] else [] in
  (printed,
   match first_hop src (id dest) with
   | Ok curr => walk fuel routers (id dest) curr [id src]
   | Raise e => Some (Raise e)
   end).

(** ** The seed data (lines 62-105) *)

Definition routers : list router := [
  Router 0 [(1, 1); (2, 2)] ∅;
  Router 1 [(0, 1); (2, 2); (3, 3); (4, 1)] ∅;
  Router 2 [(0, 2); (1, 2); (4, 3)] ∅;
  Router 3 [(1, 3); (4, 1); (5, 1)] ∅;
  Router 4 [(1, 1); (2, 3); (3, 1); (5, 3)] ∅;
  Router 5 [(3, 1); (4, 3)] ∅
].

(** Other inputs: routers without links, and a router that is in no list. *)
Definition isolated (len : nat) : list router :=
  (λ p : nat, Router (Z.of_nat p) [] ∅) <$> seq 0 len.

Definition stranger : router := Router 9 [] {[ 5 := [(3, 1)] ]}.

(** ** Observations on a store *)

(** The candidate list the router at position [p] holds for key [k]. *)
Definition tbl (rs : list router) (p : nat) (k : Z) : option (list hop) :=
  r ← rs !! p; routing_table r !! k.

(** The graph of a store: identifiers and neighbour lists. *)
Definition topo (rs : list router) : list (Z * list (Z * Z)) :=
  (λ r, (id r, nieghbors r)) <$> rs.

(** One key of every table. *)
Definition view (k : Z) (rs : list router) : list (option (list hop)) :=
  (λ r, routing_table r !! k) <$> rs.

(** ** Well-formed topologies (the NOTE of line 60: ids start at 0 and are
    the positions) *)

Definition dense_ids (rs : list router) : Prop :=
  id <$> rs = Z.of_nat <$> seq 0 (length rs).

Definition edges_ok (P : nat → Z * Z → Prop) (rs : list router) : Prop :=
  Forall (λ r, Forall (P (length rs)) (nieghbors r)) rs.

(** Every neighbour id is the position of a router. *)
Definition in_range (len : nat) (n : Z * Z) : Prop := 0 ≤ n.1 < Z.of_nat len.
Definition neighbors_in_range : list router → Prop := edges_ok in_range.

(** No router lists itself. *)
Definition no_self_neighbor (rs : list router) : Prop :=
  Forall (λ r, Forall (λ n : Z * Z, n.1 ≠ id r) (nieghbors r)) rs.

(** No table of the store holds an empty list. *)
Definition no_empty_list (rs : list router) : Prop :=
  Forall (λ r, map_Forall (λ (_ : Z) (hops : list hop), hops ≠ []) (routing_table r)) rs.

(** Edge costs that satisfy a bound. *)
Definition edge_costs (P : Z → Prop) (rs : list router) : Prop :=
  Forall (λ r, Forall (λ n : Z * Z, P n.2) (nieghbors r)) rs.

(** ** The graph of a topology *)

(** Neighbour lists by position. *)
Definition graph (rs : list router) : list (list (Z * Z)) := nieghbors <$> rs.

Definition nbrs (nb : list (list (Z * Z))) (p : nat) : list (Z * Z) :=
  default [] (nb !! p).

(** [p] lists [n] as a neighbour. *)
Definition link (nb : list (list (Z * Z))) (p n : nat) : Prop :=
  ∃ e, (Z.of_nat n, e) ∈ nbrs nb p.

(** A chain of links leads from [p] to [d]. *)
Definition reaches (nb : list (list (Z * Z))) : nat → nat → Prop := rtc (link nb).

(** [p] and [d] are in one component, links taken in either direction. *)
Definition connected (nb : list (list (Z * Z))) : nat → nat → Prop := rtsc (link nb).

(** [route nb d p vs w]: [vs] lists the routers of a chain of links from
    [p] to [d], of total cost [w]. *)
Inductive route (nb : list (list (Z * Z))) (d : nat) : nat → list nat → Z → Prop :=
  | route_here : route nb d d [d] 0
  | route_step p n e vs w :
      (Z.of_nat n, e) ∈ nbrs nb p → route nb d n vs w → route nb d p (p :: vs) (e + w).

(** The cost of the first entry for [b] in a neighbour list. *)
Fixpoint lookup_cost (b : Z) (ns : list (Z * Z)) : option Z :=
  match ns with
  | [] => None
  | n :: ns' => if decide (n.1 = b) then Some n.2 else lookup_cost b ns'
  end.

Definition edge_cost (rs : list router) (a b : Z) : option Z :=
  if decide (0 ≤ a) then r ← rs !! Z.to_nat a; lookup_cost b (nieghbors r) else None.

(** The accumulated edge cost of a path of router ids; [None] when two
    consecutive ids are not linked. *)
Fixpoint path_cost (rs : list router) (path : list Z) : option Z :=
  match path with
  | [] => Some 0
  | a :: rest =>
      match rest with
      | [] => Some 0
      | b :: _ => e ← edge_cost rs a b; w ← path_cost rs rest; Some (e + w)
      end
  end.

(** ** Orders on candidate lists *)

Definition ascending (l : list hop) : Prop := Sorted (λ x y : hop, x.2 ≤ y.2) l.

(** [h] has the least cost of [l]. *)
Definition least (h : hop) (l : list hop) : Prop := ∀ x, x ∈ l → h.2 ≤ x.2.

(** ** The column of one destination

    While the router at position [d] is the destination, the procedure only
    reads and writes the entries for key [d]: one list per router, a
    column.  The functions below are the loops of [setup_routing_tables]
    on a column, with the graph [nb] fixed. *)

(** The cost of the last entry of the router at position [p]. *)
Definition cost (c : list (list hop)) (p : nat) : Z :=
  from_option (λ h : hop, h.2) infinity (c !! p ≫= last).

Definition app_at (p : nat) (h : hop) (c : list (list hop)) : list (list hop) :=
  alter (λ l, l ++ [h]) p c.

Definition init_entry (d p : nat) : list hop :=
  if decide (p = d) then [(Z.of_nat d, 0)] else [(-1, infinity)].

Definition init_col (len d : nat) : list (list hop) := init_entry d <$> seq 0 len.

(** The reset loop of lines 259-261 on one key of every table. *)
Definition col_reset (d : nat) (t : list (option (list hop))) (j : nat)
    : list (option (list hop)) :=
  if decide (j = d) then t else alter (λ _, Some [(-1, infinity)]) j t.

Definition col_seed (nb : list (list (Z * Z))) (d : nat) (c : list (list hop)) (n : Z * Z)
    : list (list hop) :=
  app_at (Z.to_nat n.1)
    (Z.of_nat d, find_cost (Z.of_nat d) (nbrs nb (Z.to_nat n.1))) c.

Definition col_relax_neighbor (j : nat) (c : list (list hop)) (n : Z * Z)
    : list (list hop) :=
  let cn := cost c (Z.to_nat n.1) in
  if decide (cn = infinity) then c
  else if decide (n.2 + cn < cost c j) then app_at j (n.1, n.2 + cn) c
  else c.

Definition col_relax_router (nb : list (list (Z * Z))) (d : nat) (c : list (list hop))
    (j : nat) : list (list hop) :=
  if decide (j = d) then c else foldl (col_relax_neighbor j) c (nbrs nb j).

Definition col_relax_pass (nb : list (list (Z * Z))) (d : nat) (c : list (list hop))
    : list (list hop) :=
  foldl (col_relax_router nb d) c (seq 0 (length nb)).

Definition col_seeded (nb : list (list (Z * Z))) (d : nat) : list (list hop) :=
  foldl (col_seed nb d) (init_col (length nb) d) (nbrs nb d).

Definition column_of (nb : list (list (Z * Z))) (d : nat) : list (list hop) :=
  foldl (λ c (_ : nat), col_relax_pass nb d c) (col_seeded nb d) (seq 0 (length nb)).

(** Off the destination, every list ends with an entry of least cost. *)
Definition col_ok (d : nat) (c : list (list hop)) : Prop :=
  ∀ p l, c !! p = Some l → p ≠ d →
    ∃ h, last l = Some h ∧ least h l ∧ h.2 ≤ infinity.

(** A cost other than [infinity] is the cost of a route. *)
Definition col_sound (nb : list (list (Z * Z))) (d : nat) (c : list (list hop)) : Prop :=
  ∀ p, cost c p ≠ infinity → ∃ vs, route nb d p vs (cost c p).

(** Only routers of the component of the destination got candidates. *)
Definition col_conn (nb : list (list (Z * Z))) (d : nat) (c : list (list hop)) : Prop :=
  ∀ p l, c !! p = Some l → l ≠ init_entry d p → connected nb p d.

(** The recorded cost is at most the cost of any route of at most [k]
    links, plus [off] (the cost the destination holds for itself). *)
Definition col_below (nb : list (list (Z * Z))) (d : nat) (off : Z) (k : nat)
    (c : list (list hop)) : Prop :=
  ∀ p vs w, route nb d p vs w → (length vs ≤ S k)%nat → cost c p ≤ w + off.

(** The store [rs] is [rs0] with the column [c] at key [d]. *)
Record sim (rs0 : list router) (d : nat) (c : list (list hop)) (rs : list router) : Prop := {
  sim_topo : topo rs = topo rs0;
  sim_view : view (Z.of_nat d) rs = Some <$> c;
  sim_frame : ∀ k, k ≠ Z.of_nat d → view k rs = view k rs0;
  sim_nonempty : Forall (λ l : list hop, l ≠ []) c
}.

(** ** The walk of [find_best_route] as a relation *)

(** [routers[curr]["routing_table"][dest_id][0][0]] *)
Definition next_hop (routers : list router) (dest_id curr : Z) : exc Z :=
  r ← getitem routers curr; first_hop r dest_id.

(** One turn of the [while] loop: [curr] is not the destination and the
    table sends to [next]. *)
Definition follows (routers : list router) (dest_id : Z) (curr next : Z) : Prop :=
  curr ≠ dest_id ∧ next_hop routers dest_id curr = Ok next.

(** [chain routers dest_id curr hops]: the loop started at [curr] appends
    [hops] and then leaves, [dest_id] being reached. *)
Inductive chain (routers : list router) (dest_id : Z) : Z → list Z → Prop :=
  | chain_done : chain routers dest_id dest_id []
  | chain_step curr next hops :
      follows routers dest_id curr next → chain routers dest_id next hops →
      chain routers dest_id curr (curr :: hops).

(** ** More invariants of a column *)

(** Off the destination, a last entry of finite cost names a listed
    neighbour, and costs at least the link plus what that neighbour records. *)
Definition col_hops (nb : list (list (Z * Z))) (d : nat) (c : list (list hop)) : Prop :=
  ∀ p l h, c !! p = Some l → p ≠ d → last l = Some h → h.2 ≠ infinity →
    ∃ e, (h.1, e) ∈ nbrs nb p ∧ e + cost c (Z.to_nat h.1) ≤ h.2.

(** Off the destination, the entries that tie with a finite last entry are
    copies of it. *)
Definition col_ties (d : nat) (c : list (list hop)) : Prop :=
  ∀ p l h, c !! p = Some l → p ≠ d → last l = Some h → h.2 ≠ infinity →
    ∀ x, x ∈ l → x.2 = h.2 → x = h.

(** Every next hop recorded is the sentinel or the position of a router. *)
Definition col_ids (len : nat) (c : list (list hop)) : Prop :=
  ∀ p l x, c !! p = Some l → x ∈ l → x.1 = -1 ∨ 0 ≤ x.1 < Z.of_nat len.

(** Costs never go up along a list. *)
Definition descending (l : list hop) : Prop := Sorted (λ x y : hop, y.2 ≤ x.2) l.

(** Every router of the store has a non-empty list for key [dk], whose
    next hops are the sentinel or positions of routers. *)
Definition table_closed (rs : list router) (dk : Z) : Prop :=
  rs ≠ [] ∧
  ∀ r, r ∈ rs → ∃ l, routing_table r !! dk = Some l ∧ l ≠ [] ∧
    ∀ x, x ∈ l → x.1 = -1 ∨ 0 ≤ x.1 < Z.of_nat (length rs).

(** The seed tables as the script has them when it resolves the path. *)
Definition seed_tables : list router :=
  match script_tables routers with Ok rs => rs | Raise _ => [] end.

(** ** [represent_network] (lines 146-200) *)

(** A machine dictionary; its ["type"] and ["prev_connections"] entries are
    not read by the code.  The neighbours of a machine are router ids. *)
Module machine.
Record t := Machine { id : Z; nieghbors : list Z }.
End machine.

(** [str] on an integer. *)
Definition str (n : Z) : string := pretty n.

Definition tab : string := String "009"%char "".
Definition newline : string := String "010"%char "".
Definition dquote : string := String "034"%char "".

Definition blank_network_message : string :=
  "network should have a non blank routers list".

(** Lines 176-182: what one neighbour of a router adds to the content. *)
Definition draw_link (tohighlight : list (Z * Z)) (r : router)
    (content : string) (nieghbor : Z * Z) : string :=
  let content :=
    content +:+ (tab +:+ "r_" +:+ str (id r + 1) +:+ "->r_" +:+ str (nieghbor.1 + 1)) in
  let content :=
    content +:+ (" [label =" +:+ dquote +:+ str nieghbor.2 +:+ dquote +:+ "]") in
  let content :=
    if decide ((id r, nieghbor.1) ∈ tohighlight)
    then content +:+ (" [color =" +:+ dquote +:+ "red" +:+ dquote +:+ "]")
    else content in
  content +:+ (";" +:+ newline).

(** Lines 188-191: what one neighbour of a machine adds. *)
Definition draw_machine_link (m : machine.t) (content : string) (nieghbor : Z) : string :=
  let content :=
    content +:+ (tab +:+ "m_" +:+ str (machine.id m) +:+ "->r_" +:+ str (nieghbor + 1)) in
  content +:+ (";" +:+ newline).

(** What is printed, and what [./network.dot] holds when the call returns.
    The file is opened for writing before the list is looked at, so
    whatever it held is gone in every case. *)
Definition represent_network (network : list router * list machine.t)
    (tohighlight : list (Z * Z)) : list string * string :=
  let content := "" in
  let routers := network.1 in
  let machines := network.2 in
  if decide (length routers = 0%nat) then ([blank_network_message], "")
  else
    let content := content +:+ ("digraph network {" +:+ newline) in
    let content :=
      foldl (λ content r, foldl (draw_link tohighlight r) content (nieghbors r))
        content routers in
    let content :=
      foldl (λ content m, foldl (draw_machine_link m) content (machine.nieghbors m))
        content machines in
    let content := content +:+ ("}" +:+ newline) in
    ([], content).

(** The lines of the drawing that are coloured: the neighbour entries
    [(r, n)] whose pair of ids is in the list. *)
Definition highlighted (tohighlight : list (Z * Z)) (rs : list router) : nat :=
  sum_list_with
    (λ r, length (filter (λ n : Z * Z, (id r, n.1) ∈ tohighlight) (nieghbors r))) rs.

(** ** The steps of a path (lines 401-404) *)

(** [for i in range(len(path)-1): steps.append((path[i], path[i+1]))] *)
Definition steps (path : list Z) : exc (list (Z * Z)) :=
  for_each (seq 0 (Z.to_nat (Z.of_nat (length path) - 1)))
    (λ i steps,
       a ← getitem path (Z.of_nat i);
       b ← getitem path (Z.of_nat i + 1);
       Ok (steps ++ [(a, b)]))
    [].

(** ** The embedding on concrete inputs *)

Example py_pos_last : py_pos 6 (-1) = Ok 5%nat.
Proof. reflexivity. Qed.

Example py_pos_out_of_range : py_pos 6 6 = Raise IndexError ∧ py_pos 6 (-7) = Raise IndexError.
Proof. split; reflexivity. Qed.

Example getkey_missing : getkey (∅ : gmap Z (list hop)) 5 = Raise KeyError.
Proof. reflexivity. Qed.

Example sort_hops_stable :
  sort_hops [(7, 2); (-1, infinity); (8, 2); (9, 1)] = [(9, 1); (7, 2); (8, 2); (-1, infinity)].
Proof. vm_compute. reflexivity. Qed.

(** The tables of routers 1 and 4 for destination 5, traced by hand on
    lines 246-325: both are seeded or relaxed twice, the better candidate
    coming last. *)
Example seed_tables_for_5 :
  ∃ rs', (setup_routing_tables routers).2 = Ok rs' ∧
    tbl rs' 1 5 = Some [(-1, infinity); (3, 4); (4, 3)] ∧
    tbl rs' 4 5 = Some [(-1, infinity); (5, 3); (3, 2)] ∧
    tbl rs' 5 5 = Some [(5, 0)].
Proof. eexists. split_and!; vm_compute; reflexivity. Qed.

(** An unknown key in an empty table: the resolver raises [KeyError]. *)
Example find_best_route_no_table :
  find_best_route 10 routers (Router 0 [] ∅) (Router 5 [] ∅)
    = ([unknown_router_message], Some (Raise KeyError)).
Proof. vm_compute. reflexivity. Qed.

(** ** The error monad and the loops *)

Lemma bind_Ok {A B} (m : exc A) (f : A → exc B) b :
  (x ← m; f x) = Ok b ↔ ∃ a, m = Ok a ∧ f a = Ok b.
Proof.
  destruct m as [a|e]; simpl; split.
  - eauto.
  - by intros (? & [= <-] & ?).
  - done.
  - by intros (? & ? & ?).
Qed.

Lemma for_each_app {A S} (xs ys : list A) (body : A → S → exc S) s :
  for_each (xs ++ ys) body s = (s' ← for_each xs body s; for_each ys body s').
Proof.
  revert s. induction xs as [|x xs IH]; intros s; simpl; [done|].
  destruct (body x s); simpl; auto.
Qed.

(** A loop whose body never raises on the states of a simulation [R] runs to
    the end, in step with the pure fold. *)
Lemma for_each_sim {A S T} (R : T → S → Prop) (body : A → S → exc S)
    (pbody : T → A → T) (xs : list A) :
  (∀ x t s, x ∈ xs → R t s → ∃ s', body x s = Ok s' ∧ R (pbody t x) s') →
  ∀ t s, R t s → ∃ s', for_each xs body s = Ok s' ∧ R (foldl pbody t xs) s'.
Proof.
  induction xs as [|x xs IH]; intros Hbody t s HR; simpl.
  - eauto.
  - destruct (Hbody x t s) as (s1 & -> & HR1); [left | done |].
    simpl. apply IH; [|done].
    intros y t' s' Hy. apply Hbody. by right.
Qed.

(** Partial correctness: an invariant of the body is an invariant of the loop. *)
Lemma for_each_inv {A S} (P : S → Prop) (body : A → S → exc S) (xs : list A) :
  (∀ x s s', x ∈ xs → P s → body x s = Ok s' → P s') →
  ∀ s s', P s → for_each xs body s = Ok s' → P s'.
Proof.
  induction xs as [|x xs IH]; intros Hbody s s' HP; simpl.
  - by intros [= <-].
  - intros (s1 & H1 & H2)%bind_Ok.
    eapply IH; [| |exact H2].
    + intros y t t' Hy. apply Hbody. by right.
    + eapply Hbody; [left|exact HP|exact H1].
Qed.

Lemma obj_Ok {A} (l : list A) p a : obj l p = Ok a ↔ l !! p = Some a.
Proof. unfold obj. destruct (l !! p); simpl; split; congruence. Qed.

Lemma py_pos_in_range len i :
  0 ≤ i < Z.of_nat len → py_pos len i = Ok (Z.to_nat i).
Proof. intros H. unfold py_pos. by rewrite decide_True. Qed.

Lemma py_pos_lt len i p : py_pos len i = Ok p → (p < len)%nat.
Proof.
  unfold py_pos. repeat case_decide; intros [= <-]; lia.
Qed.

Lemma getkey_Ok {V} (d : gmap Z V) k v : getkey d k = Ok v ↔ d !! k = Some v.
Proof. unfold getkey. destruct (d !! k); simpl; split; congruence. Qed.

Lemma last_hop_Ok l h : last_hop l = Ok h ↔ last l = Some h.
Proof. unfold last_hop. destruct (last l); simpl; split; congruence. Qed.

(** ** Updates of one table entry *)

Lemma length_setitem_at p k v rs : length (setitem_at p k v rs) = length rs.
Proof. apply length_alter. Qed.

Lemma topo_setitem_at p k v rs : topo (setitem_at p k v rs) = topo rs.
Proof.
  unfold topo, setitem_at. apply list_eq. intros i.
  rewrite !list_lookup_fmap.
  destruct (decide (i = p)) as [->|Hne].
  - rewrite list_lookup_alter_eq. by destruct (rs !! p).
  - by rewrite list_lookup_alter_ne.
Qed.

Lemma tbl_setitem_at p k v rs q k' :
  tbl (setitem_at p k v rs) q k' =
    if decide (q = p ∧ k' = k ∧ (p < length rs)%nat) then Some v else tbl rs q k'.
Proof.
  unfold tbl, setitem_at.
  destruct (decide (q = p)) as [->|Hne].
  - rewrite list_lookup_alter_eq.
    destruct (rs !! p) as [r|] eqn:Hr; simpl.
    + apply lookup_lt_Some in Hr as Hlt.
      destruct (decide (k' = k)) as [->|Hk].
      * rewrite lookup_insert_eq. by rewrite decide_True.
      * rewrite lookup_insert_ne by done. rewrite decide_False; [done|tauto].
    + apply lookup_ge_None in Hr. rewrite decide_False; [done|lia].
  - rewrite list_lookup_alter_ne by done. rewrite decide_False; [done|tauto].
Qed.

Lemma length_view k rs : length (view k rs) = length rs.
Proof. apply length_fmap. Qed.

Lemma view_lookup k rs p : view k rs !! p = (λ r, routing_table r !! k) <$> rs !! p.
Proof. apply list_lookup_fmap. Qed.

Lemma view_setitem_at p k v rs :
  view k (setitem_at p k v rs) = alter (λ _, Some v) p (view k rs).
Proof.
  unfold view, setitem_at. apply list_fmap_alter.
  apply Forall_forall. intros r _. simpl. by rewrite lookup_insert_eq.
Qed.

Lemma view_setitem_at_ne p k v rs k' :
  k' ≠ k → view k' (setitem_at p k v rs) = view k' rs.
Proof.
  intros Hne. unfold view, setitem_at. apply list_eq. intros i.
  rewrite !list_lookup_fmap.
  destruct (decide (i = p)) as [->|Hp].
  - rewrite list_lookup_alter_eq. destruct (rs !! p); simpl; [|done].
    by rewrite lookup_insert_ne.
  - by rewrite list_lookup_alter_ne.
Qed.

Lemma length_topo rs : length (topo rs) = length rs.
Proof. apply length_fmap. Qed.

Lemma topo_length rs rs' : topo rs = topo rs' → length rs = length rs'.
Proof. intros H. by rewrite <-(length_topo rs), H, length_topo. Qed.

Lemma topo_lookup rs rs' p r :
  topo rs = topo rs' → rs !! p = Some r →
  ∃ r', rs' !! p = Some r' ∧ id r' = id r ∧ nieghbors r' = nieghbors r.
Proof.
  intros Ht Hr.
  assert (topo rs' !! p = Some (id r, nieghbors r)) as H.
  { rewrite <-Ht. unfold topo. by rewrite list_lookup_fmap, Hr. }
  unfold topo in H. rewrite list_lookup_fmap in H.
  destruct (rs' !! p) as [r'|]; simplify_eq/=. eauto.
Qed.

Lemma dense_ids_lookup rs p r : dense_ids rs → rs !! p = Some r → id r = Z.of_nat p.
Proof.
  unfold dense_ids. intros Hd Hr.
  assert ((id <$> rs) !! p = Some (id r)) as H by by rewrite list_lookup_fmap, Hr.
  rewrite Hd, list_lookup_fmap in H.
  apply lookup_lt_Some in Hr.
  rewrite lookup_seq_lt in H by done. by simplify_eq/=.
Qed.

Lemma dense_ids_topo rs rs' : topo rs = topo rs' → dense_ids rs → dense_ids rs'.
Proof.
  unfold dense_ids. intros Ht Hd.
  rewrite <-(topo_length _ _ Ht).
  rewrite <-Hd.
  assert (∀ l, id <$> l = fst <$> topo l) as E.
  { intros l. unfold topo. rewrite <-list_fmap_compose. done. }
  by rewrite !E, Ht.
Qed.

(** ** The procedure runs in step with the column functions *)

Lemma bind_ret_l {A B} (a : A) (f : A → exc B) : (x ← Ok a; f x) = f a.
Proof. done. Qed.

(** One successful step of a monadic computation. *)
Ltac exc_step H :=
  first [ rewrite (proj2 (obj_Ok _ _ _) H)
        | rewrite (proj2 (getkey_Ok _ _ _) H)
        | rewrite (proj2 (last_hop_Ok _ _) H) ];
  rewrite bind_ret_l.

Lemma cost_lookup c p l h : c !! p = Some l → last l = Some h → cost c p = h.2.
Proof. unfold cost. intros -> H. simpl. by rewrite H. Qed.

Lemma length_app_at p h c : length (app_at p h c) = length c.
Proof. apply length_alter. Qed.

Lemma lookup_app_at p h c q :
  app_at p h c !! q = if decide (q = p) then (λ l, l ++ [h]) <$> c !! p else c !! q.
Proof.
  unfold app_at. case_decide as E.
  - subst. apply list_lookup_alter_eq.
  - by apply list_lookup_alter_ne.
Qed.

Lemma nonempty_app_at p h c :
  Forall (λ l : list hop, l ≠ []) c → Forall (λ l : list hop, l ≠ []) (app_at p h c).
Proof.
  intros H. apply Forall_alter; [done|]. intros l _ _. by destruct l.
Qed.

Lemma nbrs_graph rs p r : rs !! p = Some r → nbrs (graph rs) p = nieghbors r.
Proof. intros H. unfold nbrs, graph. by rewrite list_lookup_fmap, H. Qed.

Lemma nbrs_elem_lt nb p n : n ∈ nbrs nb p → (p < length nb)%nat.
Proof.
  unfold nbrs. destruct (nb !! p) eqn:E; simpl.
  - intros _. by eapply lookup_lt_Some.
  - by intros ?%elem_of_nil.
Qed.

Lemma graph_topo rs rs' : topo rs = topo rs' → graph rs = graph rs'.
Proof.
  intros H. unfold graph.
  assert (∀ l, nieghbors <$> l = snd <$> topo l) as E.
  { intros l. unfold topo. by rewrite <-list_fmap_compose. }
  by rewrite !E, H.
Qed.

Lemma length_graph rs : length (graph rs) = length rs.
Proof. apply length_fmap. Qed.

Lemma edges_ok_nbrs P rs p n :
  edges_ok P rs → n ∈ nbrs (graph rs) p → P (length rs) n.
Proof.
  intros H Hn.
  assert (is_Some (rs !! p)) as [r Hr].
  { apply lookup_lt_is_Some. apply nbrs_elem_lt in Hn. by rewrite length_graph in Hn. }
  rewrite (nbrs_graph _ _ _ Hr) in Hn.
  unfold edges_ok in H. rewrite Forall_forall in H.
  specialize (H r (list_elem_of_lookup_2 _ _ _ Hr)).
  rewrite Forall_forall in H. auto.
Qed.

Lemma position_eq rs j d rj rd :
  dense_ids rs → rs !! j = Some rj → rs !! d = Some rd → rj = rd ↔ j = d.
Proof.
  intros Hdense Hj Hd. split.
  - intros ->.
    apply (dense_ids_lookup _ _ _ Hdense) in Hj, Hd. lia.
  - intros ->. congruence.
Qed.

Section refinement.
Context (rs0 : list router) (d : nat).
Context (Hdense : dense_ids rs0) (Hrange : neighbors_in_range rs0).
Context (Hd : (d < length rs0)%nat).

Lemma sim_length c rs : sim rs0 d c rs → length rs = length rs0 ∧ length c = length rs0.
Proof.
  intros [Ht Hv _ _]. split; [by apply topo_length|].
  apply topo_length in Ht. rewrite <-Ht.
  by rewrite <-(length_fmap Some c), <-Hv, length_view.
Qed.

Lemma sim_lookup c rs p :
  sim rs0 d c rs → (p < length rs0)%nat →
  ∃ r l, rs !! p = Some r ∧ id r = Z.of_nat p ∧
         nieghbors r = nbrs (graph rs0) p ∧
         routing_table r !! Z.of_nat d = Some l ∧ c !! p = Some l ∧ l ≠ [].
Proof.
  intros Hs Hp. destruct (sim_length _ _ Hs) as [Hl Hc].
  destruct Hs as [Ht Hv _ Hne].
  destruct (lookup_lt_is_Some_2 rs p) as [r Hr]; [lia|].
  destruct (lookup_lt_is_Some_2 c p) as [l Hcl]; [lia|].
  exists r, l.
  destruct (topo_lookup _ _ _ _ Ht Hr) as (r0 & Hr0 & Hid & Hnb).
  split_and!; try done.
  - rewrite <-Hid. by eapply dense_ids_lookup.
  - by rewrite (nbrs_graph _ _ _ Hr0).
  - assert (view (Z.of_nat d) rs !! p = Some (Some l)) as H
      by by rewrite Hv, list_lookup_fmap, Hcl.
    rewrite view_lookup, Hr in H. by simplify_eq/=.
  - rewrite Forall_forall in Hne. apply Hne. by eapply list_elem_of_lookup_2.
Qed.

Lemma sim_app_at c rs j r l h :
  sim rs0 d c rs → rs !! j = Some r → c !! j = Some l →
  sim rs0 d (app_at j h c) (setitem_at j (Z.of_nat d) (l ++ [h]) rs).
Proof.
  intros [Ht Hv Hf Hne] Hr Hc. split.
  - by rewrite topo_setitem_at.
  - rewrite view_setitem_at, Hv. apply list_eq. intros i.
    rewrite list_lookup_fmap, lookup_app_at.
    case_decide as E.
    + subst. by rewrite list_lookup_alter_eq, list_lookup_fmap, Hc.
    + by rewrite list_lookup_alter_ne, list_lookup_fmap.
  - intros k Hk. rewrite view_setitem_at_ne by done. by apply Hf.
  - by apply nonempty_app_at.
Qed.

Lemma append_at_sim c rs j h :
  sim rs0 d c rs → (j < length rs0)%nat →
  ∃ rs', append_at j (Z.of_nat d) h rs = Ok rs' ∧ sim rs0 d (app_at j h c) rs'.
Proof.
  intros Hs Hj.
  destruct (sim_lookup _ _ _ Hs Hj) as (r & l & Hr & _ & _ & Hl & Hc & _).
  unfold append_at.
  exc_step Hr.
  exc_step Hl.
  eexists. split; [done|]. by eapply sim_app_at.
Qed.

Lemma relax_neighbor_sim c rs j n :
  sim rs0 d c rs → (j < length rs0)%nat → n ∈ nbrs (graph rs0) j →
  ∃ rs', relax_neighbor d j n rs = Ok rs' ∧ sim rs0 d (col_relax_neighbor j c n) rs'.
Proof.
  intros Hs Hj Hn.
  pose proof (edges_ok_nbrs _ _ _ _ Hrange Hn) as Hin. unfold in_range in Hin.
  destruct (sim_length _ _ Hs) as [Hl _].
  destruct (sim_lookup _ _ _ Hs Hd) as (rd & ld & Hrd & Hidd & _).
  destruct (sim_lookup _ _ (Z.to_nat n.1) Hs) as (rn & ln & Hrn & _ & _ & Hln & Hcn & Hnen);
    [lia|].
  destruct (sim_lookup _ _ _ Hs Hj) as (rj & lj & Hrj & _ & _ & Hlj & Hcj & Hnej).
  apply last_is_Some in Hnen as [hn Hhn]. apply last_is_Some in Hnej as [hj Hhj].
  unfold relax_neighbor, col_relax_neighbor, getitem.
  exc_step Hrd. rewrite Hidd.
  rewrite Hl, py_pos_in_range, bind_ret_l by done.
  exc_step Hrn.
  exc_step Hln.
  exc_step Hhn.
  rewrite (cost_lookup _ _ _ _ Hcn Hhn), (cost_lookup _ _ _ _ Hcj Hhj).
  case_decide; [by eauto|].
  exc_step Hrj.
  exc_step Hlj.
  exc_step Hhj.
  case_decide; [|by eauto].
  by apply append_at_sim.
Qed.

Lemma relax_router_sim c rs j :
  sim rs0 d c rs → (j < length rs0)%nat →
  ∃ rs', relax_router d j rs = Ok rs' ∧ sim rs0 d (col_relax_router (graph rs0) d c j) rs'.
Proof.
  intros Hs Hj.
  destruct (sim_lookup _ _ _ Hs Hd) as (rd & ld & Hrd & _).
  destruct (sim_lookup _ _ _ Hs Hj) as (rj & lj & Hrj & _ & Hnb & _).
  unfold relax_router, col_relax_router.
  exc_step Hrj.
  exc_step Hrd.
  assert (dense_ids rs) as Hdrs by (eapply dense_ids_topo; [symmetry; apply Hs|done]).
  pose proof (position_eq _ _ _ _ _ Hdrs Hrj Hrd) as Heq.
  destruct (decide (rj = rd)) as [E|E].
  - rewrite decide_True by by apply Heq. eauto.
  - rewrite decide_False by (intros ?; by apply E, Heq).
    rewrite Hnb.
    apply (for_each_sim (sim rs0 d)); [|done].
    intros n c' rs' Hn Hs'. by apply relax_neighbor_sim.
Qed.

Lemma relax_pass_sim c rs :
  sim rs0 d c rs →
  ∃ rs', relax_pass d rs = Ok rs' ∧ sim rs0 d (col_relax_pass (graph rs0) d c) rs'.
Proof.
  intros Hs. unfold relax_pass, col_relax_pass.
  destruct (sim_length _ _ Hs) as [-> _]. rewrite length_graph.
  apply (for_each_sim (sim rs0 d)); [|done].
  intros j c' rs' Hj%elem_of_seq Hs'. apply relax_router_sim; [done|lia].
Qed.

Lemma seed_neighbor_sim c rs n :
  sim rs0 d c rs → n ∈ nbrs (graph rs0) d →
  ∃ rs', seed_neighbor d n rs = Ok rs' ∧ sim rs0 d (col_seed (graph rs0) d c n) rs'.
Proof.
  intros Hs Hn.
  pose proof (edges_ok_nbrs _ _ _ _ Hrange Hn) as Hin. unfold in_range in Hin.
  destruct (sim_length _ _ Hs) as [Hl _].
  destruct (sim_lookup _ _ _ Hs Hd) as (rd & ld & Hrd & Hidd & _).
  destruct (sim_lookup _ _ (Z.to_nat n.1) Hs) as (rn & ln & Hrn & _ & Hnb & _); [lia|].
  unfold seed_neighbor, col_seed.
  exc_step Hrd. rewrite Hidd.
  rewrite Hl, py_pos_in_range, bind_ret_l by done.
  exc_step Hrn. rewrite Hnb.
  apply append_at_sim; [done|lia].
Qed.
End refinement.

(** ** The initial column *)

Lemma col_reset_lookup d n k t p :
  foldl (col_reset d) t (seq k n) !! p =
    if decide ((k ≤ p < k + n)%nat ∧ p ≠ d)
    then (λ _, Some [(-1, infinity)]) <$> t !! p
    else t !! p.
Proof.
  revert k t. induction n as [|n IH]; intros k t; simpl.
  - rewrite decide_False; [done|lia].
  - rewrite IH. unfold col_reset.
    destruct (decide (k = d)) as [->|Hk].
    + repeat case_decide; try done; lia.
    + destruct (decide (p = k)) as [->|Hp].
      * rewrite list_lookup_alter_eq.
        rewrite decide_False by lia. rewrite decide_True by lia. done.
      * rewrite list_lookup_alter_ne by done.
        repeat case_decide; try done; lia.
Qed.

Lemma lookup_init_col len d p :
  init_col len d !! p = if decide (p < len)%nat then Some (init_entry d p) else None.
Proof.
  unfold init_col. rewrite list_lookup_fmap. case_decide.
  - by rewrite lookup_seq_lt.
  - rewrite lookup_seq_ge; [done|lia].
Qed.

Lemma length_init_col len d : length (init_col len d) = len.
Proof. unfold init_col. by rewrite length_fmap, length_seq. Qed.

Lemma init_col_nonempty len d : Forall (λ l : list hop, l ≠ []) (init_col len d).
Proof.
  unfold init_col. apply Forall_fmap, Forall_forall. intros p _. simpl.
  unfold init_entry. by case_decide.
Qed.

Lemma col_reset_init d (t : list (option (list hop))) :
  (d < length t)%nat →
  foldl (col_reset d) (alter (λ _, Some [(Z.of_nat d, 0)]) d t) (seq 0 (length t))
    = Some <$> init_col (length t) d.
Proof.
  intros Hd. apply list_eq. intros p.
  rewrite col_reset_lookup, list_lookup_fmap, lookup_init_col. unfold init_entry.
  destruct (decide (p < length t)%nat) as [Hp|Hp].
  - destruct (lookup_lt_is_Some_2 t p Hp) as [x Hx].
    destruct (decide (p = d)) as [->|Hne].
    + rewrite decide_False by tauto.
      by rewrite list_lookup_alter_eq, Hx.
    + rewrite decide_True by lia.
      by rewrite list_lookup_alter_ne, Hx.
  - assert (t !! p = None) as Hx by (apply lookup_ge_None; lia).
    assert (p ≠ d) by lia.
    rewrite list_lookup_alter_ne by done. rewrite Hx. by case_decide.
Qed.

Lemma edges_ok_graph P rs :
  edges_ok P rs ↔ Forall (Forall (P (length (graph rs)))) (graph rs).
Proof. unfold edges_ok, graph. by rewrite Forall_fmap, length_fmap. Qed.

Lemma edges_ok_topo P rs rs' : topo rs = topo rs' → edges_ok P rs → edges_ok P rs'.
Proof. intros Ht. rewrite !edges_ok_graph. by rewrite (graph_topo _ _ Ht). Qed.

Lemma sim_refl_init rs0 d rs :
  topo rs = topo rs0 →
  view (Z.of_nat d) rs = Some <$> init_col (length rs0) d →
  (∀ k, k ≠ Z.of_nat d → view k rs = view k rs0) →
  sim rs0 d (init_col (length rs0) d) rs.
Proof. intros. split; auto using init_col_nonempty. Qed.

Lemma reset_router_step rs0 d j t rs :
  dense_ids rs0 → (d < length rs0)%nat → (j < length rs0)%nat →
  topo rs = topo rs0 ∧ view (Z.of_nat d) rs = t ∧
    (∀ k, k ≠ Z.of_nat d → view k rs = view k rs0) →
  ∃ rs', reset_router d j rs = Ok rs' ∧
    (topo rs' = topo rs0 ∧ view (Z.of_nat d) rs' = col_reset d t j ∧
     (∀ k, k ≠ Z.of_nat d → view k rs' = view k rs0)).
Proof.
  intros Hdense Hd Hj (Ht & Hv & Hf).
  assert (dense_ids rs) as Hdrs by (eapply dense_ids_topo; [symmetry; apply Ht|done]).
  pose proof (topo_length _ _ Ht) as Hl.
  destruct (lookup_lt_is_Some_2 rs j) as [rj Hrj]; [lia|].
  destruct (lookup_lt_is_Some_2 rs d) as [rd Hrd]; [lia|].
  unfold reset_router, col_reset.
  exc_step Hrj.
  exc_step Hrd.
  pose proof (position_eq _ _ _ _ _ Hdrs Hrj Hrd) as Heq.
  rewrite (dense_ids_lookup _ _ _ Hdrs Hrd).
  destruct (decide (rj ≠ rd)) as [E|E].
  - rewrite decide_False by (intros ?; by apply E, Heq).
    eexists. split; [done|]. split_and!.
    + by rewrite topo_setitem_at.
    + by rewrite view_setitem_at, Hv.
    + intros k Hk. rewrite view_setitem_at_ne by done. auto.
  - rewrite decide_True by (apply Heq; by destruct (decide (rj = rd))).
    eauto.
Qed.

Lemma dest_iteration_sim rs0 d :
  dense_ids rs0 → neighbors_in_range rs0 → (d < length rs0)%nat →
  ∃ rs', dest_iteration d rs0 = Ok rs' ∧ sim rs0 d (column_of (graph rs0) d) rs'.
Proof.
  intros Hdense Hrange Hd.
  destruct (lookup_lt_is_Some_2 rs0 d Hd) as [r Hr].
  unfold dest_iteration.
  exc_step Hr.
  rewrite (dense_ids_lookup _ _ _ Hdense Hr), length_setitem_at.
  destruct (for_each_sim
    (λ t rs, topo rs = topo rs0 ∧ view (Z.of_nat d) rs = t ∧
             (∀ k, k ≠ Z.of_nat d → view k rs = view k rs0))
    (reset_router d) (col_reset d) (seq 0 (length rs0))) with
    (t := alter (λ _, Some [(Z.of_nat d, 0)]) d (view (Z.of_nat d) rs0))
    (s := setitem_at d (Z.of_nat d) [(Z.of_nat d, 0)] rs0)
    as (rs1 & -> & Ht1 & Hv1 & Hf1).
  { intros j t rs Hj%elem_of_seq HR. apply reset_router_step; [done..|lia|done]. }
  { split_and!.
    - apply topo_setitem_at.
    - apply view_setitem_at.
    - intros k Hk. by apply view_setitem_at_ne. }
  rewrite bind_ret_l.
  pose proof (col_reset_init d (view (Z.of_nat d) rs0)) as Hci.
  rewrite length_view in Hci. rewrite Hci in Hv1 by done. clear Hci.
  pose proof (sim_refl_init _ _ _ Ht1 Hv1 Hf1) as Hs1.
  destruct (sim_lookup _ _ Hdense Hd _ _ d Hs1 Hd) as (rd & ld & Hrd & _ & Hnb & _).
  exc_step Hrd. rewrite Hnb.
  destruct (for_each_sim (sim rs0 d) (seed_neighbor d) (col_seed (graph rs0) d)
    (nbrs (graph rs0) d)) with (t := init_col (length rs0) d) (s := rs1)
    as (rs2 & -> & Hs2); [|done|].
  { intros n c rs Hn Hs. by apply seed_neighbor_sim. }
  rewrite bind_ret_l.
  destruct (sim_length _ _ _ _ Hs2) as [-> _].
  unfold column_of, col_seeded. rewrite !length_graph.
  apply (for_each_sim (sim rs0 d) (λ _, relax_pass d)
    (λ c (_ : nat), col_relax_pass (graph rs0) d c)); [|done].
  intros _ c rs _ Hs. by apply relax_pass_sim.
Qed.

Lemma elem_of_foldl_cons {A} (l acc : list A) x :
  x ∈ foldl (λ ds d, d :: ds) acc l ↔ x ∈ l ∨ x ∈ acc.
Proof.
  revert acc. induction l as [|y l IH]; intros acc; simpl.
  - rewrite elem_of_nil. tauto.
  - rewrite IH, !elem_of_cons. tauto.
Qed.

Lemma tbl_view k rs c p : view k rs = Some <$> c → tbl rs p k = c !! p.
Proof.
  intros Hv.
  assert (view k rs !! p = Some <$> c !! p) as H by by rewrite Hv, list_lookup_fmap.
  rewrite view_lookup in H. unfold tbl.
  destruct (rs !! p) as [r|], (c !! p) as [l|]; simplify_eq/=; done.
Qed.

Lemma tbl_view_eq k rs rs' p : view k rs = view k rs' → tbl rs p k = tbl rs' p k.
Proof.
  intros Hv.
  assert (view k rs !! p = view k rs' !! p) as H by by rewrite Hv.
  rewrite !view_lookup in H. unfold tbl.
  destruct (rs !! p) as [r|], (rs' !! p) as [r'|]; simplify_eq/=; done.
Qed.

(** The whole procedure: on a well-formed non-empty topology it prints
    nothing, raises nothing, keeps the graph, leaves at every destination
    key the column computed from the graph alone, and leaves every other key
    as it was. *)
Lemma setup_routing_tables_columns rs :
  dense_ids rs → neighbors_in_range rs → rs ≠ [] →
  ∃ rs', setup_routing_tables rs = ([], Ok rs') ∧ topo rs' = topo rs ∧
    (∀ d, (d < length rs)%nat →
          view (Z.of_nat d) rs' = Some <$> column_of (graph rs) d) ∧
    (∀ k, ¬ (0 ≤ k < Z.of_nat (length rs)) → view k rs' = view k rs).
Proof.
  intros Hdense Hrange Hne.
  unfold setup_routing_tables.
  rewrite decide_False by by destruct rs.
  destruct (for_each_sim
    (λ (ds : list nat) s, topo s = topo rs ∧
       (∀ d, d ∈ ds → view (Z.of_nat d) s = Some <$> column_of (graph rs) d) ∧
       (∀ k, (∀ d, d ∈ ds → k ≠ Z.of_nat d) → view k s = view k rs))
    dest_iteration (λ ds d, d :: ds) (seq 0 (length rs))) with (t := @nil nat) (s := rs)
    as (rs' & -> & Ht & Hcols & Hframe).
  - intros d ds s Hd%elem_of_seq (Ht & Hcols & Hframe).
    pose proof (topo_length _ _ Ht) as Hl.
    destruct (dest_iteration_sim s d) as (s' & Hrun & Hs').
    { eapply dense_ids_topo; [symmetry; apply Ht|done]. }
    { eapply edges_ok_topo; [symmetry; apply Ht|done]. }
    { lia. }
    exists s'. split; [done|].
    rewrite (graph_topo _ _ Ht) in Hs'. destruct Hs' as [Ht' Hv' Hf' _].
    split_and!.
    + congruence.
    + intros d' [->|Hd']%elem_of_cons; [done|].
      destruct (decide (d' = d)) as [->|Hdd]; [done|].
      rewrite Hf' by lia. auto.
    + intros k Hk. rewrite Hf'.
      * apply Hframe. intros d' Hd'. apply Hk. by right.
      * apply Hk. by left.
  - split_and!; [done| |done]. by intros d ?%elem_of_nil.
  - exists rs'. split_and!; [done..| |].
    + intros d Hd. apply Hcols. apply elem_of_foldl_cons. left.
      apply elem_of_seq. lia.
    + intros k Hk. apply Hframe. intros d Hd%elem_of_foldl_cons.
      destruct Hd as [Hd%elem_of_seq|Hd%elem_of_nil]; [lia|done].
Qed.

(** ** Columns: costs and folds *)

Lemma foldl_inv {A B} (P : A → Prop) (f : A → B → A) (xs : list B) :
  (∀ a x, x ∈ xs → P a → P (f a x)) → ∀ a, P a → P (foldl f a xs).
Proof.
  induction xs as [|x xs IH]; intros Hf a Ha; simpl; [done|].
  apply IH.
  - intros a' y Hy. apply Hf. by right.
  - apply Hf; [left|done].
Qed.

Lemma cost_app_at j h c q :
  cost (app_at j h c) q =
    if decide (q = j ∧ (j < length c)%nat) then h.2 else cost c q.
Proof.
  unfold cost. rewrite lookup_app_at.
  destruct (decide (q = j)) as [->|Hq].
  - destruct (c !! j) as [l|] eqn:E; simpl.
    + rewrite last_snoc. simpl. apply lookup_lt_Some in E.
      by rewrite decide_True.
    + apply lookup_ge_None in E. rewrite decide_False; [done|lia].
  - rewrite decide_False; [done|tauto].
Qed.

Lemma col_relax_neighbor_cases j c n :
  col_relax_neighbor j c n = c ∨
  (cost c (Z.to_nat n.1) ≠ infinity ∧ n.2 + cost c (Z.to_nat n.1) < cost c j ∧
   col_relax_neighbor j c n = app_at j (n.1, n.2 + cost c (Z.to_nat n.1)) c).
Proof. unfold col_relax_neighbor. repeat case_decide; auto. Qed.

Section column.
Context (nb : list (list (Z * Z))) (d : nat).

(** A property kept by every append the relaxation can make is kept by
    the relaxation loops. *)
Section relax_ind.
Context (P : list (list hop) → Prop).
Context (Happ : ∀ c j n,
  P c → j ≠ d → n ∈ nbrs nb j →
  cost c (Z.to_nat n.1) ≠ infinity →
  n.2 + cost c (Z.to_nat n.1) < cost c j →
  P (app_at j (n.1, n.2 + cost c (Z.to_nat n.1)) c)).

Lemma col_relax_router_ind c j : P c → P (col_relax_router nb d c j).
Proof.
  intros Hc. unfold col_relax_router. case_decide; [done|].
  apply foldl_inv; [|done].
  intros c' n Hn Hc'.
  destruct (col_relax_neighbor_cases j c' n) as [->|(? & ? & ->)]; auto.
Qed.

Lemma col_relax_pass_ind c : P c → P (col_relax_pass nb d c).
Proof.
  intros Hc. unfold col_relax_pass. apply foldl_inv; [|done].
  intros c' j _ Hc'. by apply col_relax_router_ind.
Qed.

Lemma col_relax_all_ind {X} (xs : list X) c :
  P c → P (foldl (λ c _, col_relax_pass nb d c) c xs).
Proof.
  intros Hc. apply foldl_inv; [|done].
  intros c' _ _ Hc'. by apply col_relax_pass_ind.
Qed.
End relax_ind.

(** The loops keep the length of the column and only lower costs. *)
Lemma length_col_relax_all {X} (xs : list X) c :
  length (foldl (λ c _, col_relax_pass nb d c) c xs) = length c.
Proof.
  apply (col_relax_all_ind (λ c', length c' = length c)); [|done].
  intros c' j n Hc' _ _ _ _. by rewrite length_app_at.
Qed.

Lemma length_col_relax_pass c : length (col_relax_pass nb d c) = length c.
Proof.
  apply (col_relax_pass_ind (λ c', length c' = length c)); [|done].
  intros c' j n Hc' _ _ _ _. by rewrite length_app_at.
Qed.

Lemma cost_app_at_le c j n q :
  n.2 + cost c (Z.to_nat n.1) < cost c j →
  cost (app_at j (n.1, n.2 + cost c (Z.to_nat n.1)) c) q ≤ cost c q.
Proof.
  intros Hlt. rewrite cost_app_at. case_decide as E; [|lia].
  destruct E as [-> _]. simpl. lia.
Qed.

Lemma cost_col_relax_neighbor_le j c n q :
  cost (col_relax_neighbor j c n) q ≤ cost c q.
Proof.
  destruct (col_relax_neighbor_cases j c n) as [->|(_ & Hlt & ->)]; [lia|].
  by apply cost_app_at_le.
Qed.

Lemma cost_col_relax_neighbors_le j c ns q :
  cost (foldl (col_relax_neighbor j) c ns) q ≤ cost c q.
Proof.
  apply (foldl_inv (λ c', cost c' q ≤ cost c q)); [|lia].
  intros c' n _ Hc'. pose proof (cost_col_relax_neighbor_le j c' n q). lia.
Qed.

Lemma cost_col_relax_router_le c j q :
  cost (col_relax_router nb d c j) q ≤ cost c q.
Proof.
  apply (col_relax_router_ind (λ c', cost c' q ≤ cost c q)); [|lia].
  intros c' j' n Hc' _ _ _ Hlt. pose proof (cost_app_at_le c' j' n q Hlt). lia.
Qed.

Lemma cost_col_relax_routers_le c js q :
  cost (foldl (col_relax_router nb d) c js) q ≤ cost c q.
Proof.
  apply (foldl_inv (λ c', cost c' q ≤ cost c q)); [|lia].
  intros c' j _ Hc'. pose proof (cost_col_relax_router_le c' j q). lia.
Qed.

Lemma cost_col_relax_pass_le c q : cost (col_relax_pass nb d c) q ≤ cost c q.
Proof. apply cost_col_relax_routers_le. Qed.
End column.

(** ** The seeded column *)

Lemma find_cost_cases k ns :
  find_cost k ns = infinity ∨ (k, find_cost k ns) ∈ ns.
Proof.
  induction ns as [|[a b] ns IH]; simpl; [by left|].
  case_decide as E; simpl in *.
  - subst. right. left.
  - destruct IH; [by left|]. right. by right.
Qed.

Lemma find_cost_found k e ns : (k, e) ∈ ns → (k, find_cost k ns) ∈ ns.
Proof.
  induction ns as [|[a b] ns IH]; simpl.
  - by intros ?%elem_of_nil.
  - case_decide as E; simpl in *.
    + subst. intros _. left.
    + intros [[=]|Hin]%elem_of_cons; [done|]. right. by apply IH.
Qed.

Lemma find_cost_le k ns :
  Forall (λ n : Z * Z, n.2 ≤ infinity) ns → find_cost k ns ≤ infinity.
Proof.
  intros H. destruct (find_cost_cases k ns) as [->|Hin]; [done|].
  rewrite Forall_forall in H. by apply H in Hin.
Qed.

Lemma nbrs_Forall (P : Z * Z → Prop) nb p :
  Forall (Forall P) nb → Forall P (nbrs nb p).
Proof.
  intros H. unfold nbrs. destruct (nb !! p) as [l|] eqn:E; simpl; [|done].
  rewrite Forall_forall in H. apply H. by eapply list_elem_of_lookup_2.
Qed.

Section seeded.
Context (nb : list (list (Z * Z))) (d : nat).
Context (Hrange : Forall (Forall (in_range (length nb))) nb).

Lemma nbrs_in_range p n : n ∈ nbrs nb p → 0 ≤ n.1 < Z.of_nat (length nb).
Proof.
  intros Hn. pose proof (nbrs_Forall _ _ p Hrange) as H.
  rewrite Forall_forall in H. by apply H.
Qed.

Lemma nbrs_link p n : n ∈ nbrs nb p → link nb p (Z.to_nat n.1).
Proof.
  intros Hn. pose proof (nbrs_in_range _ _ Hn).
  exists n.2. rewrite Z2Nat.id by lia. by destruct n.
Qed.

Lemma col_seeded_shape p l :
  col_seeded nb d !! p = Some l →
  ∃ k, l = init_entry d p
             ++ replicate k (Z.of_nat d, find_cost (Z.of_nat d) (nbrs nb p)) ∧
       (k ≠ 0%nat → link nb d p).
Proof.
  revert p l. unfold col_seeded.
  apply (foldl_inv (λ c, ∀ p l, c !! p = Some l → ∃ k,
    l = init_entry d p ++ replicate k (Z.of_nat d, find_cost (Z.of_nat d) (nbrs nb p)) ∧
    (k ≠ 0%nat → link nb d p))).
  - intros c n Hn IH p l. unfold col_seed. rewrite lookup_app_at.
    case_decide as E; [|by apply IH].
    subst p. destruct (c !! Z.to_nat n.1) as [l0|] eqn:El0; [|done].
    intros [= <-]. destruct (IH _ _ El0) as (k & -> & _).
    exists (S k). split.
    + by rewrite replicate_S_end, (assoc_L (++)).
    + intros _. by apply nbrs_link.
  - intros p l. rewrite lookup_init_col. case_decide; [|done].
    intros [= <-]. exists 0%nat. split; [by rewrite app_nil_r|done].
Qed.

Lemma length_col_seeded : length (col_seeded nb d) = length nb.
Proof.
  unfold col_seeded.
  apply (foldl_inv (λ c, length c = length nb)).
  - intros c n _ Hc. unfold col_seed. by rewrite length_app_at.
  - apply length_init_col.
Qed.

Lemma length_column_of : length (column_of nb d) = length nb.
Proof. unfold column_of. by rewrite length_col_relax_all, length_col_seeded. Qed.

Lemma column_of_lookup p : (p < length nb)%nat → is_Some (column_of nb d !! p).
Proof. intros Hp. apply lookup_lt_is_Some. by rewrite length_column_of. Qed.

(** *** Every list ends with its least cost *)

Lemma col_seeded_ok :
  Forall (Forall (λ n : Z * Z, n.2 ≤ infinity)) nb → col_ok d (col_seeded nb d).
Proof.
  intros Hcost p l Hl Hp.
  destruct (col_seeded_shape _ _ Hl) as (k & -> & _).
  unfold init_entry. rewrite decide_False by done.
  pose proof (find_cost_le (Z.of_nat d) (nbrs nb p) (nbrs_Forall _ _ p Hcost)) as Hw.
  destruct k as [|k].
  - exists (-1, infinity). split_and!; [done| |done].
    intros x [->|[]%elem_of_nil]%elem_of_cons. done.
  - eexists. rewrite replicate_S_end, (assoc_L (++)), last_snoc.
    split_and!; [done| |done].
    intros x. rewrite !elem_of_app, elem_of_replicate, !list_elem_of_singleton.
    intros [[->|[-> _]]| ->]; simpl; lia.
Qed.

Lemma col_ok_app_at c j n :
  col_ok d c →
  n.2 + cost c (Z.to_nat n.1) < cost c j →
  col_ok d (app_at j (n.1, n.2 + cost c (Z.to_nat n.1)) c).
Proof.
  intros Hok Hlt p l. rewrite lookup_app_at.
  case_decide as E; [|by apply Hok].
  subst p. destruct (c !! j) as [l0|] eqn:El0; [|done].
  intros [= <-] Hj. destruct (Hok _ _ El0 Hj) as (h & Hh & Hleast & Hinf).
  rewrite (cost_lookup _ _ _ _ El0 Hh) in Hlt.
  eexists. rewrite last_snoc. split_and!; [done| |simpl; lia].
  intros x [Hx| ->%list_elem_of_singleton]%elem_of_app; simpl; [|lia].
  apply Hleast in Hx. lia.
Qed.

Lemma column_of_ok :
  Forall (Forall (λ n : Z * Z, n.2 ≤ infinity)) nb → col_ok d (column_of nb d).
Proof.
  intros Hcost. unfold column_of.
  apply (col_relax_all_ind nb d (col_ok d)); [|by apply col_seeded_ok].
  intros c j n Hc _ _ _ Hlt. by apply col_ok_app_at.
Qed.

(** *** The entry of the destination itself *)

Lemma column_of_head p l :
  column_of nb d !! p = Some l →
  head l = head (init_entry d p).
Proof.
  revert p l. unfold column_of.
  apply (col_relax_all_ind nb d (λ c, ∀ p l, c !! p = Some l →
    head l = head (init_entry d p))).
  - intros c j n IH _ _ _ _ p l. rewrite lookup_app_at.
    case_decide as E; [|by apply IH].
    subst p. destruct (c !! j) as [l0|] eqn:El0; [|done].
    intros [= <-]. rewrite <-(IH _ _ El0).
    destruct l0; [|done]. apply IH in El0. unfold init_entry in El0.
    by case_decide.
  - intros p l Hl. destruct (col_seeded_shape _ _ Hl) as (k & -> & _).
    unfold init_entry. by case_decide.
Qed.

Lemma col_seeded_self :
  (d < length nb)%nat → ¬ link nb d d →
  col_seeded nb d !! d = Some [(Z.of_nat d, 0)].
Proof.
  intros Hd Hself.
  destruct (lookup_lt_is_Some_2 (col_seeded nb d) d) as [l Hl];
    [by rewrite length_col_seeded|].
  destruct (col_seeded_shape _ _ Hl) as (k & -> & Hk).
  destruct k; [|by destruct Hself; apply Hk].
  rewrite Hl. unfold init_entry. by rewrite decide_True.
Qed.

Lemma column_of_self :
  (d < length nb)%nat → ¬ link nb d d →
  column_of nb d !! d = Some [(Z.of_nat d, 0)].
Proof.
  intros Hd Hself. unfold column_of.
  apply (col_relax_all_ind nb d (λ c, c !! d = Some [(Z.of_nat d, 0)]));
    [|by apply col_seeded_self].
  intros c j n Hc Hj _ _ _. rewrite lookup_app_at. by rewrite decide_False.
Qed.
End seeded.

(** ** Routes *)

Section routes.
Context (nb : list (list (Z * Z))) (d : nat).
Context (Hrange : Forall (Forall (in_range (length nb))) nb).

Lemma route_nonempty p vs w : route nb d p vs w → (1 ≤ length vs)%nat.
Proof. destruct 1; simpl; lia. Qed.

Lemma route_head p vs w : route nb d p vs w → head vs = Some p.
Proof. by destruct 1. Qed.

Lemma route_last p vs w : route nb d p vs w → last vs = Some d.
Proof.
  induction 1 as [|p n e vs w Hn Hr IH]; [done|].
  rewrite last_cons, IH. done.
Qed.

Lemma route_lt p vs w :
  (d < length nb)%nat → route nb d p vs w → ∀ x, x ∈ vs → (x < length nb)%nat.
Proof.
  intros Hd. induction 1 as [|p n e vs w Hn Hr IH]; intros x.
  - by intros ->%list_elem_of_singleton.
  - intros [->|Hx]%elem_of_cons; [|by apply IH].
    by eapply nbrs_elem_lt.
Qed.

Lemma route_cost_nonneg p vs w :
  Forall (Forall (λ n : Z * Z, 0 ≤ n.2)) nb → route nb d p vs w → 0 ≤ w.
Proof.
  intros Hpos. induction 1 as [|p n e vs w Hn Hr IH]; [done|].
  pose proof (nbrs_Forall _ _ p Hpos) as H. rewrite Forall_forall in H.
  apply H in Hn. simpl in Hn. lia.
Qed.

(** From any router of a route, the rest of the route is a route that
    costs no more. *)
Lemma route_from p vs w x :
  Forall (Forall (λ n : Z * Z, 0 ≤ n.2)) nb →
  route nb d p vs w → x ∈ vs →
  ∃ vs' w', route nb d x vs' w' ∧ w' ≤ w ∧ vs' `suffix_of` vs.
Proof.
  intros Hpos. induction 1 as [|p n e vs w Hn Hr IH].
  - intros ->%list_elem_of_singleton. exists [d], 0. split_and!; [constructor|done..].
  - intros [->|Hx]%elem_of_cons.
    + exists (p :: vs), (e + w). split_and!; [by econstructor|done..].
    + destruct (IH Hx) as (vs' & w' & Hr' & Hle & Hsuf).
      exists vs', w'. split_and!; [done| |by apply suffix_cons_r].
      pose proof (nbrs_Forall _ _ p Hpos) as H. rewrite Forall_forall in H.
      apply H in Hn. simpl in Hn. lia.
Qed.

(** Loops can be cut out of a route. *)
Lemma route_simple p vs w :
  Forall (Forall (λ n : Z * Z, 0 ≤ n.2)) nb →
  route nb d p vs w →
  ∃ vs' w', route nb d p vs' w' ∧ w' ≤ w ∧ NoDup vs'.
Proof.
  intros Hpos. induction 1 as [|p n e vs w Hn Hr IH].
  - exists [d], 0. split_and!; [constructor|done|]. apply NoDup_singleton.
  - destruct IH as (vs1 & w1 & Hr1 & Hle1 & Hnd1).
    pose proof (nbrs_Forall _ _ p Hpos) as H. rewrite Forall_forall in H.
    apply H in Hn as He. simpl in He.
    destruct (decide (p ∈ vs1)) as [Hin|Hnotin].
    + destruct (route_from _ _ _ p Hpos Hr1 Hin) as (vs2 & w2 & Hr2 & Hle2 & Hsuf).
      exists vs2, w2. split_and!; [done|lia|].
      destruct Hsuf as [pre ->]. by apply NoDup_app in Hnd1 as (_ & _ & ?).
    + exists (p :: vs1), (e + w1). split_and!; [by econstructor|lia|].
      by apply NoDup_cons.
Qed.

Lemma route_simple_length p vs w :
  (d < length nb)%nat → route nb d p vs w → NoDup vs → (length vs ≤ length nb)%nat.
Proof.
  intros Hd Hr Hnd.
  replace (length nb) with (length (seq 0 (length nb))) by apply length_seq.
  apply submseteq_length, NoDup_submseteq; [done|].
  intros x Hx. apply elem_of_seq. pose proof (route_lt _ _ _ Hd Hr x Hx). lia.
Qed.

Lemma route_cost_bound B p vs w :
  0 ≤ B → Forall (Forall (λ n : Z * Z, n.2 ≤ B)) nb →
  route nb d p vs w → w ≤ (Z.of_nat (length vs) - 1) * B.
Proof.
  intros HB Hcost. induction 1 as [|p n e vs w Hn Hr IH]; [simpl; lia|].
  pose proof (nbrs_Forall _ _ p Hcost) as H. rewrite Forall_forall in H.
  apply H in Hn. simpl in Hn. rewrite length_cons. nia.
Qed.

Lemma reaches_route p : reaches nb p d → ∃ vs w, route nb d p vs w.
Proof.
  revert p. apply rtc_ind_l.
  - exists [d], 0. constructor.
  - intros p n [e He] _ (vs & w & Hr).
    exists (p :: vs), (e + w). by econstructor.
Qed.

(** *** A finite cost is the cost of a route *)

Lemma col_seeded_sound : col_sound nb d (col_seeded nb d).
Proof.
  intros p Hp. unfold cost in *.
  destruct (col_seeded nb d !! p) as [l|] eqn:Hl; [|done]. simpl in *.
  destruct (col_seeded_shape _ _ Hrange _ _ Hl) as (k & -> & _).
  destruct k as [|k].
  - rewrite app_nil_r in *. unfold init_entry in *.
    case_decide; simpl in *; [|done]. subst. exists [d]. constructor.
  - rewrite replicate_S_end, (assoc_L (++)), last_snoc in *. simpl in *.
    destruct (find_cost_cases (Z.of_nat d) (nbrs nb p)) as [?|Hin]; [done|].
    exists [p; d].
    pose proof (route_step nb d p d _ [d] 0 Hin (route_here nb d)) as Hr.
    by rewrite Z.add_0_r in Hr.
Qed.

Lemma col_sound_app_at c j n :
  col_sound nb d c → n ∈ nbrs nb j →
  cost c (Z.to_nat n.1) ≠ infinity →
  col_sound nb d (app_at j (n.1, n.2 + cost c (Z.to_nat n.1)) c).
Proof.
  intros Hs Hn Hcn p. rewrite cost_app_at.
  case_decide as E; [|by apply Hs].
  destruct E as [-> _]. simpl. intros _.
  destruct (Hs _ Hcn) as [vs Hvs].
  exists (j :: vs). econstructor; [|done].
  pose proof (nbrs_in_range _ Hrange _ _ Hn).
  rewrite Z2Nat.id by lia. by destruct n.
Qed.

Lemma column_of_sound : col_sound nb d (column_of nb d).
Proof.
  unfold column_of.
  apply (col_relax_all_ind nb d (col_sound nb d)); [|by apply col_seeded_sound].
  intros c j n Hc _ Hn Hcn _. by apply col_sound_app_at.
Qed.

(** *** Candidates stay inside the component of the destination *)

Lemma col_seeded_conn : col_conn nb d (col_seeded nb d).
Proof.
  intros p l Hl Hne.
  destruct (col_seeded_shape _ _ Hrange _ _ Hl) as (k & -> & Hk).
  destruct k as [|k]; [by rewrite app_nil_r in Hne|].
  apply rtsc_rl. by apply Hk.
Qed.

Lemma cost_init_entry c p :
  c !! p = Some (init_entry d p) → p ≠ d → cost c p = infinity.
Proof.
  intros Hc Hp. unfold cost. rewrite Hc. unfold init_entry.
  by rewrite decide_False.
Qed.

Lemma col_conn_app_at c j n :
  col_conn nb d c → n ∈ nbrs nb j →
  cost c (Z.to_nat n.1) ≠ infinity →
  col_conn nb d (app_at j (n.1, n.2 + cost c (Z.to_nat n.1)) c).
Proof.
  intros Hc Hn Hcn p l. rewrite lookup_app_at.
  case_decide as E; [|by apply Hc].
  subst p. intros _ _.
  pose proof (nbrs_link _ Hrange _ _ Hn) as Hlink.
  transitivity (Z.to_nat n.1); [by apply rtsc_lr|].
  destruct (decide (Z.to_nat n.1 = d)) as [->|Hnd]; [done|].
  destruct (c !! Z.to_nat n.1) as [ln|] eqn:Eln.
  - apply (Hc _ _ Eln). intros ->. by apply Hcn, cost_init_entry.
  - destruct Hcn. unfold cost. by rewrite Eln.
Qed.

Lemma column_of_conn : col_conn nb d (column_of nb d).
Proof.
  unfold column_of.
  apply (col_relax_all_ind nb d (col_conn nb d)); [|by apply col_seeded_conn].
  intros c j n Hc _ Hn Hcn _. by apply col_conn_app_at.
Qed.
End routes.

(** ** Convergence: after as many passes as routers the recorded costs are
    below the cost of every route *)

Lemma infinity_eq : infinity = 10000000000.
Proof. reflexivity. Qed.

Lemma length_col_relax_neighbor j c n : length (col_relax_neighbor j c n) = length c.
Proof.
  destruct (col_relax_neighbor_cases j c n) as [->|(_ & _ & ->)]; [done|].
  apply length_app_at.
Qed.

Lemma length_col_relax_routers nb d c js :
  length (foldl (col_relax_router nb d) c js) = length c.
Proof.
  apply (foldl_inv (λ c', length c' = length c)); [|done].
  intros c' j _ Hc'.
  apply (col_relax_router_ind nb d (λ c', length c' = length c)); [|done].
  intros c'' j' n Hc'' _ _ _ _. by rewrite length_app_at.
Qed.

Section convergence.
Context (nb : list (list (Z * Z))) (d : nat).
Context (Hrange : Forall (Forall (in_range (length nb))) nb).
Context (Hd : (d < length nb)%nat).
Context (Hcost : Forall (Forall (λ n : Z * Z, 0 ≤ n.2 ≤ infinity)) nb).

Lemma costs_nonneg : Forall (Forall (λ n : Z * Z, 0 ≤ n.2)) nb.
Proof.
  eapply Forall_impl; [exact Hcost|]. intros l Hl.
  eapply Forall_impl; [exact Hl|]. simpl. lia.
Qed.

Lemma costs_le_infinity : Forall (Forall (λ n : Z * Z, n.2 ≤ infinity)) nb.
Proof.
  eapply Forall_impl; [exact Hcost|]. intros l Hl.
  eapply Forall_impl; [exact Hl|]. simpl. lia.
Qed.

Lemma nbrs_cost_nonneg p n : n ∈ nbrs nb p → 0 ≤ n.2.
Proof.
  intros Hn. pose proof (nbrs_Forall _ _ p costs_nonneg) as H.
  rewrite Forall_forall in H. by apply H in Hn.
Qed.

Lemma relax_neighbor_step c p n e w' :
  (p < length c)%nat → cost c p ≤ infinity → 0 ≤ e → cost c n ≤ w' →
  cost (col_relax_neighbor p c (Z.of_nat n, e)) p ≤ e + w'.
Proof.
  intros Hp Hinf He Hn. unfold col_relax_neighbor. simpl. rewrite Nat2Z.id.
  case_decide; [lia|]. case_decide; [|lia].
  rewrite cost_app_at, decide_True by done. simpl. lia.
Qed.

Lemma relax_neighbors_step ns c p n e w' :
  (Z.of_nat n, e) ∈ ns →
  (p < length c)%nat → cost c p ≤ infinity → 0 ≤ e → cost c n ≤ w' →
  cost (foldl (col_relax_neighbor p) c ns) p ≤ e + w'.
Proof.
  revert c. induction ns as [|x ns IH]; intros c Hin Hp Hinf He Hn.
  - by apply elem_of_nil in Hin.
  - simpl. apply elem_of_cons in Hin as [<-|Hin].
    + pose proof (cost_col_relax_neighbors_le p
        (col_relax_neighbor p c (Z.of_nat n, e)) ns p).
      pose proof (relax_neighbor_step c p n e w' Hp Hinf He Hn). lia.
    + apply IH; [done| | |done|].
      * by rewrite length_col_relax_neighbor.
      * pose proof (cost_col_relax_neighbor_le p c x p). lia.
      * pose proof (cost_col_relax_neighbor_le p c x n). lia.
Qed.

(** In a pass the router [p] asks its neighbour [n] at some point; what [n]
    knew before the pass, [p] knows after it, one link further. *)
Lemma relax_pass_step c p n e w' :
  length c = length nb → (∀ q, cost c q ≤ infinity) →
  p ≠ d → (Z.of_nat n, e) ∈ nbrs nb p → cost c n ≤ w' →
  cost (col_relax_pass nb d c) p ≤ e + w'.
Proof.
  intros Hlen Hinf Hp Hn Hcn.
  pose proof (nbrs_elem_lt _ _ _ Hn) as Hlt.
  pose proof (nbrs_cost_nonneg _ _ Hn) as He. simpl in He.
  unfold col_relax_pass.
  replace (length nb) with (p + S (length nb - S p))%nat by lia.
  rewrite seq_app, foldl_app. simpl.
  set (c1 := foldl (col_relax_router nb d) c (seq 0 p)).
  set (c2 := col_relax_router nb d c1 p).
  pose proof (cost_col_relax_routers_le nb d c2 (seq (S p) (length nb - S p)) p).
  assert (cost c2 p ≤ e + w'); [|lia].
  unfold c2, col_relax_router. rewrite decide_False by done.
  apply (relax_neighbors_step _ _ _ n); [done| | |done|].
  - unfold c1. rewrite length_col_relax_routers. lia.
  - pose proof (cost_col_relax_routers_le nb d c (seq 0 p) p) as Hle.
    specialize (Hinf p). fold c1 in Hle. lia.
  - pose proof (cost_col_relax_routers_le nb d c (seq 0 p) n) as Hle.
    fold c1 in Hle. lia.
Qed.

Lemma col_below_pass off k c :
  length c = length nb → 0 ≤ off → cost c d ≤ off → (∀ q, cost c q ≤ infinity) →
  col_below nb d off k c → col_below nb d off (S k) (col_relax_pass nb d c).
Proof.
  intros Hlen Hoff Hd0 Hinf Hk p vs w Hr Hl.
  destruct Hr as [|p n e vs w Hn Hr].
  - pose proof (cost_col_relax_pass_le nb d c d). lia.
  - simpl in Hl.
    assert (cost c n ≤ w + off) as Hcn by (eapply Hk; [done|lia]).
    destruct (decide (p = d)) as [->|Hp].
    + pose proof (cost_col_relax_pass_le nb d c d).
      pose proof (route_cost_nonneg _ _ _ _ _ costs_nonneg Hr).
      pose proof (nbrs_cost_nonneg _ _ Hn) as He. simpl in He. lia.
    + pose proof (relax_pass_step c p n e (w + off) Hlen Hinf Hp Hn Hcn). lia.
Qed.

Lemma col_below_all {X} (xs : list X) off c k :
  length c = length nb → 0 ≤ off → cost c d ≤ off → (∀ q, cost c q ≤ infinity) →
  col_below nb d off k c →
  col_below nb d off (k + length xs) (foldl (λ c _, col_relax_pass nb d c) c xs).
Proof.
  revert c k. induction xs as [|x xs IH]; intros c k Hlen Hoff Hd0 Hinf Hk; simpl.
  - by rewrite Nat.add_0_r.
  - replace (k + S (length xs))%nat with (S k + length xs)%nat by lia.
    apply IH; [|done| | |].
    + by rewrite length_col_relax_pass.
    + pose proof (cost_col_relax_pass_le nb d c d). lia.
    + intros q. pose proof (cost_col_relax_pass_le nb d c q).
      specialize (Hinf q). lia.
    + by apply col_below_pass.
Qed.

Lemma cost_col_ok c q : col_ok d c → cost c d ≤ infinity → cost c q ≤ infinity.
Proof.
  intros Hok Hdd. destruct (decide (q = d)) as [->|Hq]; [done|].
  unfold cost. destruct (c !! q) as [l|] eqn:El; simpl; [|done].
  destruct (Hok _ _ El Hq) as (h & -> & _ & Hh). done.
Qed.

(** The cost the destination holds for itself after the seeding: 0, or the
    cost of its first link to itself when it has one. *)
Lemma cost_col_seeded_dest :
  cost (col_seeded nb d) d = 0 ∨
  (Z.of_nat d, cost (col_seeded nb d) d) ∈ nbrs nb d.
Proof.
  destruct (lookup_lt_is_Some_2 (col_seeded nb d) d) as [l Hl];
    [by rewrite length_col_seeded|].
  unfold cost. rewrite Hl. simpl.
  destruct (col_seeded_shape _ _ Hrange _ _ Hl) as (k & -> & Hk).
  destruct k as [|k].
  - left. unfold init_entry. by rewrite decide_True.
  - right. rewrite replicate_S_end, (assoc_L (++)), last_snoc. simpl.
    destruct (Hk ltac:(done)) as [e He]. by eapply find_cost_found.
Qed.

Lemma cost_col_seeded_dest_bounds B :
  0 ≤ B → Forall (Forall (λ n : Z * Z, n.2 ≤ B)) nb →
  0 ≤ cost (col_seeded nb d) d ≤ B.
Proof.
  intros HB HcB. destruct cost_col_seeded_dest as [->|Hin]; [lia|].
  pose proof (nbrs_cost_nonneg _ _ Hin) as H0. simpl in H0.
  pose proof (nbrs_Forall _ _ d HcB) as H. rewrite Forall_forall in H.
  apply H in Hin. simpl in Hin. lia.
Qed.

Lemma cost_col_seeded_self : ¬ link nb d d → cost (col_seeded nb d) d = 0.
Proof. intros Hself. unfold cost. by rewrite col_seeded_self. Qed.

Lemma cost_column_of_self : ¬ link nb d d → cost (column_of nb d) d = 0.
Proof. intros Hself. unfold cost. by rewrite column_of_self. Qed.

Lemma cost_col_seeded_le q : cost (col_seeded nb d) q ≤ infinity.
Proof.
  apply cost_col_ok; [by apply col_seeded_ok, costs_le_infinity|].
  apply cost_col_seeded_dest_bounds; [rewrite infinity_eq; lia|].
  apply costs_le_infinity.
Qed.

Lemma cost_column_of_le q : cost (column_of nb d) q ≤ infinity.
Proof.
  pose proof (cost_col_seeded_le q) as Hle. unfold column_of.
  etrans; [|exact Hle].
  apply (col_relax_all_ind nb d (λ c, cost c q ≤ cost (col_seeded nb d) q)); [|done].
  intros c j n Hc _ _ _ Hlt. pose proof (cost_app_at_le c j n q Hlt). lia.
Qed.

Lemma col_seeded_below :
  col_below nb d (cost (col_seeded nb d) d) 0 (col_seeded nb d).
Proof.
  intros p vs w Hr Hl. destruct Hr as [|p n e vs w Hn Hr].
  - lia.
  - apply route_nonempty in Hr. simpl in Hl. lia.
Qed.

(** After the passes the recorded cost is at most the cost of any route,
    plus the cost the destination holds for itself. *)
Lemma column_of_least_route_off p vs w :
  route nb d p vs w → cost (column_of nb d) p ≤ w + cost (col_seeded nb d) d.
Proof.
  intros Hr.
  destruct (route_simple _ _ _ _ _ costs_nonneg Hr)
    as (vs' & w' & Hr' & Hle & Hnd).
  pose proof (route_simple_length _ _ _ _ _ Hd Hr' Hnd) as Hlen.
  assert (cost (column_of nb d) p ≤ w' + cost (col_seeded nb d) d); [|lia].
  pose proof (cost_col_seeded_dest_bounds infinity) as [Hoff _];
    [rewrite infinity_eq; lia|apply costs_le_infinity|].
  unfold column_of.
  eapply (col_below_all (seq 0 (length nb)) _ (col_seeded nb d) 0).
  - apply length_col_seeded.
  - done.
  - done.
  - apply cost_col_seeded_le.
  - apply col_seeded_below.
  - done.
  - rewrite length_seq. lia.
Qed.

(** When the destination does not list itself, the recorded cost is at most
    the cost of any route. *)
Lemma column_of_least_route p vs w :
  ¬ link nb d d → route nb d p vs w → cost (column_of nb d) p ≤ w.
Proof.
  intros Hself Hr. pose proof (column_of_least_route_off _ _ _ Hr) as H.
  by rewrite (cost_col_seeded_self Hself), Z.add_0_r in H.
Qed.

Lemma column_of_triangle p n :
  ¬ link nb d d → n ∈ nbrs nb p →
  cost (column_of nb d) p ≤ n.2 + cost (column_of nb d) (Z.to_nat n.1).
Proof.
  intros Hself Hn.
  pose proof (nbrs_cost_nonneg _ _ Hn) as He.
  destruct (decide (cost (column_of nb d) (Z.to_nat n.1) = infinity)) as [->|Hfin].
  - pose proof (cost_column_of_le p). lia.
  - destruct (column_of_sound _ _ Hrange _ Hfin) as [vs Hvs].
    apply (column_of_least_route p (p :: vs)); [done|].
    econstructor; [|done].
    pose proof (nbrs_in_range _ Hrange _ _ Hn).
    rewrite Z2Nat.id by lia. by destruct n.
Qed.

Lemma column_of_finite p :
  Forall (Forall (λ n : Z * Z, n.2 * Z.of_nat (length nb) < infinity)) nb →
  reaches nb p d → cost (column_of nb d) p < infinity.
Proof.
  intros Hbound (vs & w & Hr)%reaches_route.
  destruct (route_simple _ _ _ _ _ costs_nonneg Hr)
    as (vs' & w' & Hr' & Hle & Hnd).
  pose proof (route_simple_length _ _ _ _ _ Hd Hr' Hnd) as Hlen.
  pose proof (column_of_least_route_off _ _ _ Hr') as Hleast.
  pose proof (route_nonempty _ _ _ _ _ Hr') as Hne.
  set (B := (infinity - 1) `div` Z.of_nat (length nb)).
  assert (0 < Z.of_nat (length nb)) as HN by lia.
  assert (0 ≤ B) as HB.
  { apply Z.div_pos; [rewrite infinity_eq|]; lia. }
  assert (Z.of_nat (length nb) * B ≤ infinity - 1) as HNB
    by by apply Z.mul_div_le.
  assert (Forall (Forall (λ n : Z * Z, n.2 ≤ B)) nb) as HcB.
  { eapply Forall_impl; [exact Hbound|]. intros l Hl.
    eapply Forall_impl; [exact Hl|]. simpl. intros n Hnlt.
    apply Z.div_le_lower_bound; lia. }
  pose proof (route_cost_bound _ _ B _ _ _ HB HcB Hr') as Hw.
  pose proof (cost_col_seeded_dest_bounds B HB HcB) as [_ HD].
  nia.
Qed.
End convergence.

(** ** From topologies to their graphs *)

Lemma edge_costs_graph P rs :
  edge_costs P rs ↔ Forall (Forall (λ n : Z * Z, P n.2)) (graph rs).
Proof. unfold edge_costs, graph. by rewrite Forall_fmap. Qed.

Lemma neighbors_in_range_graph rs :
  neighbors_in_range rs → Forall (Forall (in_range (length (graph rs)))) (graph rs).
Proof. apply edges_ok_graph. Qed.

Lemma edge_costs_impl (P Q : Z → Prop) rs :
  (∀ e, P e → Q e) → edge_costs P rs → edge_costs Q rs.
Proof.
  intros HPQ H. eapply Forall_impl; [exact H|]. intros r Hr.
  eapply Forall_impl; [exact Hr|]. intros n. apply HPQ.
Qed.

Lemma no_self_link rs d :
  dense_ids rs → no_self_neighbor rs → ¬ link (graph rs) d d.
Proof.
  intros Hdense Hself [e He].
  assert (is_Some (rs !! d)) as [r Hr].
  { apply lookup_lt_is_Some. apply nbrs_elem_lt in He. by rewrite length_graph in He. }
  rewrite (nbrs_graph _ _ _ Hr) in He.
  unfold no_self_neighbor in Hself. rewrite Forall_forall in Hself.
  specialize (Hself r (list_elem_of_lookup_2 _ _ _ Hr)).
  rewrite Forall_forall in Hself. apply Hself in He. simpl in He.
  by rewrite (dense_ids_lookup _ _ _ Hdense Hr) in He.
Qed.

(** The procedure on any well-formed topology, the empty one included. *)
Lemma setup_routing_tables_run rs :
  dense_ids rs → neighbors_in_range rs →
  ∃ rs', (setup_routing_tables rs).2 = Ok rs' ∧ topo rs' = topo rs ∧
    (∀ d, (d < length rs)%nat →
          view (Z.of_nat d) rs' = Some <$> column_of (graph rs) d) ∧
    (∀ k, ¬ (0 ≤ k < Z.of_nat (length rs)) → view k rs' = view k rs).
Proof.
  intros Hdense Hrange. destruct (decide (rs = [])) as [->|Hne].
  - exists []. split_and!; [done..| |done]. simpl. lia.
  - destruct (setup_routing_tables_columns rs Hdense Hrange Hne)
      as (rs' & Hrun & H). exists rs'. by rewrite Hrun.
Qed.

Lemma tbl_column rs rs' p d :
  view (Z.of_nat d) rs' = Some <$> column_of (graph rs) d →
  tbl rs' p (Z.of_nat d) = column_of (graph rs) d !! p.
Proof. apply tbl_view. Qed.

(** Two stores with the same graph and the same tables are the same store. *)
Lemma store_ext rs rs' :
  topo rs = topo rs' → (∀ k, view k rs = view k rs') → rs = rs'.
Proof.
  intros Ht Hv. apply list_eq. intros p.
  destruct (rs !! p) as [r|] eqn:Hr.
  - destruct (topo_lookup _ _ _ _ Ht Hr) as (r' & Hr' & Hid & Hnb).
    rewrite Hr'. f_equal.
    assert (routing_table r = routing_table r') as Htab.
    { apply map_eq. intros k.
      assert (view k rs !! p = view k rs' !! p) as H by by rewrite Hv.
      rewrite !view_lookup, Hr, Hr' in H. by simplify_eq/=. }
    destruct r, r'. simpl in *. by subst.
  - symmetry. apply lookup_ge_None. apply lookup_ge_None in Hr.
    by rewrite <-(topo_length _ _ Ht).
Qed.

(** ** What one relaxation step can do to a store *)

Lemma relax_neighbor_cases di j n s s' :
  relax_neighbor di j n s = Ok s' →
  s' = s ∨
  ∃ dest l h c, s !! di = Some dest ∧ tbl s j (id dest) = Some l ∧
    last l = Some h ∧ c < h.2 ∧
    s' = setitem_at j (id dest) (l ++ [(n.1, c)]) s.
Proof.
  unfold relax_neighbor.
  intros (dest & Hdest%obj_Ok & H)%bind_Ok.
  apply bind_Ok in H as (nr & _ & H).
  apply bind_Ok in H as (nl & _ & H).
  apply bind_Ok in H as (nbest & _ & H).
  case_decide; [left; congruence|].
  apply bind_Ok in H as (start & Hstart%obj_Ok & H).
  apply bind_Ok in H as (sl & Hsl%getkey_Ok & H).
  apply bind_Ok in H as (sbest & Hsbest%last_hop_Ok & H).
  case_decide as Hlt; [|left; congruence].
  right. exists dest, sl, sbest, (n.2 + nbest.2).
  unfold append_at in H.
  rewrite (proj2 (obj_Ok _ _ _) Hstart), bind_ret_l in H.
  rewrite (proj2 (getkey_Ok _ _ _) Hsl), bind_ret_l in H.
  split_and!; [done| |done|done|congruence].
  unfold tbl. by rewrite Hstart.
Qed.

Lemma relax_router_cases di j s s' :
  relax_router di j s = Ok s' →
  s' = s ∨
  ∃ r, s !! j = Some r ∧ j ≠ di ∧ for_each (nieghbors r) (relax_neighbor di j) s = Ok s'.
Proof.
  unfold relax_router.
  intros (r & Hr%obj_Ok & H)%bind_Ok.
  apply bind_Ok in H as (dest & Hdest%obj_Ok & H).
  case_decide as E; [left; congruence|].
  right. exists r. split_and!; [done| |done].
  intros ->. congruence.
Qed.

(** A pass for any destination leaves every self-entry as it is. *)
Lemma relax_pass_self_entry s d s' :
  dense_ids s → relax_pass d s = Ok s' →
  ∀ p, tbl s' p (Z.of_nat p) = tbl s p (Z.of_nat p).
Proof.
  intros Hdense Hrun.
  cut (topo s' = topo s ∧ ∀ p, tbl s' p (Z.of_nat p) = tbl s p (Z.of_nat p));
    [tauto|].
  revert Hrun. unfold relax_pass.
  apply (for_each_inv
    (λ t, topo t = topo s ∧ ∀ p, tbl t p (Z.of_nat p) = tbl s p (Z.of_nat p)));
    [|done].
  intros j t t' _ Ht [->|(r & Hr & Hj & Hrun)]%relax_router_cases; [done|].
  revert Hrun.
  apply (for_each_inv
    (λ t, topo t = topo s ∧ ∀ p, tbl t p (Z.of_nat p) = tbl s p (Z.of_nat p)));
    [|done].
  intros n u u' _ [Hu1 Hu2] [->|(dest & l & h & c & Hdest & _ & _ & _ & ->)]%relax_neighbor_cases;
    [done|].
  split; [by rewrite topo_setitem_at|].
  intros p. rewrite tbl_setitem_at, decide_False; [done|].
  intros (-> & Hid & _).
  assert (dense_ids u) as Hdu by (eapply dense_ids_topo; [symmetry; apply Hu1|done]).
  rewrite (dense_ids_lookup _ _ _ Hdu Hdest) in Hid. lia.
Qed.

(** ** The seed topology is well formed *)

Ltac closed_check :=
  unfold neighbors_in_range, edges_ok, in_range, edge_costs, no_self_neighbor,
    no_empty_list;
  apply (bool_decide_unpack _); vm_compute; exact I.

Lemma routers_dense : dense_ids routers.
Proof. reflexivity. Defined.

Lemma routers_in_range : neighbors_in_range routers.
Proof. closed_check. Defined.

Lemma routers_no_self : no_self_neighbor routers.
Proof. closed_check. Defined.

(** * The claims *)

(** ** C10: the incumbent best is the last element

    Claim C10.  On a well-formed topology whose edge costs do not exceed
    [infinity], [setup_routing_tables] returns, and for every router [r] and
    destination [d] other than [r] the last element of
    [r.routing_table[d.id]] has the least cost of the list.  Moreover a
    relaxation step that changes the store appends one candidate, whose cost
    is strictly below the cost of the element that was last. *)
Theorem last_entry_is_least rs :
  dense_ids rs → neighbors_in_range rs → edge_costs (λ e, e ≤ infinity) rs →
  ∃ rs', (setup_routing_tables rs).2 = Ok rs' ∧
    (∀ r d, (r < length rs)%nat → (d < length rs)%nat → r ≠ d →
       ∃ l h, tbl rs' r (Z.of_nat d) = Some l ∧ last l = Some h ∧ least h l) ∧
    (∀ di j n s s', relax_neighbor di j n s = Ok s' →
       s' = s ∨
       ∃ dest l h c, s !! di = Some dest ∧ tbl s j (id dest) = Some l ∧
         last l = Some h ∧ c < h.2 ∧
         s' = setitem_at j (id dest) (l ++ [(n.1, c)]) s).
Proof.
  intros Hdense Hrange Hcost.
  destruct (setup_routing_tables_run rs Hdense Hrange) as (rs' & Hrun & _ & Hcol & _).
  exists rs'. split_and!; [done| |apply relax_neighbor_cases].
  intros r d Hr Hd Hne.
  rewrite (tbl_column rs rs' r d (Hcol d Hd)).
  destruct (column_of_lookup (graph rs) d r) as [l Hl]; [by rewrite length_graph|].
  apply neighbors_in_range_graph in Hrange.
  apply edge_costs_graph in Hcost.
  destruct (column_of_ok _ _ Hrange Hcost _ _ Hl Hne) as (h & Hh & Hleast & _).
  eauto.
Qed.

Lemma last_entry_is_least_witness :
  ∃ rs' l h, (setup_routing_tables routers).2 = Ok rs' ∧
    tbl rs' 0 5 = Some l ∧ last l = Some h ∧ least h l.
Proof.
  destruct (last_entry_is_least routers) as (rs' & Hrun & Hleast & _).
  - exact routers_dense.
  - exact routers_in_range.
  - closed_check.
  - destruct (Hleast 0%nat 5%nat) as (l & h & Hl & Hh & Hlh);
      [apply Nat.ltb_lt; reflexivity..|discriminate|].
    exists rs', l, h. repeat split; assumption.
Defined.

(** ** C7: the self-route

    Claim C7.  On a well-formed topology [setup_routing_tables] returns, and
    for every router [r] the list [r.routing_table[r.id]] starts with
    [(r.id, 0)]; when no router lists itself as a neighbour the list is
    exactly [[(r.id, 0)]].  A relaxation pass, for whatever destination,
    leaves the self-entry of every router as it found it. *)
Theorem self_entry rs :
  dense_ids rs → neighbors_in_range rs →
  ∃ rs', (setup_routing_tables rs).2 = Ok rs' ∧
    (∀ r, (r < length rs)%nat →
       ∃ l, tbl rs' r (Z.of_nat r) = Some l ∧ head l = Some (Z.of_nat r, 0) ∧
            (no_self_neighbor rs → l = [(Z.of_nat r, 0)])) ∧
    (∀ s d s', dense_ids s → relax_pass d s = Ok s' →
       ∀ p, tbl s' p (Z.of_nat p) = tbl s p (Z.of_nat p)).
Proof.
  intros Hdense Hrange.
  destruct (setup_routing_tables_run rs Hdense Hrange) as (rs' & Hrun & _ & Hcol & _).
  exists rs'. split_and!; [done| |apply relax_pass_self_entry].
  intros r Hr.
  rewrite (tbl_column rs rs' r r (Hcol r Hr)).
  destruct (column_of_lookup (graph rs) r r) as [l Hl]; [by rewrite length_graph|].
  pose proof (neighbors_in_range_graph _ Hrange) as Hrange'.
  exists l. split_and!; [done| |].
  - rewrite (column_of_head _ _ Hrange' _ _ Hl). unfold init_entry.
    by rewrite decide_True.
  - intros Hself. rewrite column_of_self in Hl.
    + by simplify_eq.
    + done.
    + by rewrite length_graph.
    + by apply no_self_link.
Qed.

Lemma self_entry_witness :
  ∃ rs' s', (setup_routing_tables routers).2 = Ok rs' ∧ tbl rs' 3 3 = Some [(3, 0)] ∧
    relax_pass 5 rs' = Ok s' ∧ tbl s' 3 3 = Some [(3, 0)].
Proof.
  destruct (self_entry routers routers_dense routers_in_range)
    as (rs' & Hrun & Hself & Hpass).
  destruct (Hself 3%nat) as (l & Hl & _ & Heq); [apply Nat.ltb_lt; reflexivity|].
  rewrite (Heq routers_no_self) in Hl.
  vm_compute in Hrun. injection Hrun as <-.
  eexists _, _. split_and!.
  - vm_compute. reflexivity.
  - exact Hl.
  - vm_compute. reflexivity.
  - refine (eq_trans (Hpass _ 5%nat _ _ _ 3%nat) Hl).
    + vm_compute. reflexivity.
    + vm_compute. reflexivity.
Defined.

(** ** C8: the triangle inequality

    Claim C8, amended: no router lists itself.  On a well-formed topology
    where no router lists itself and every edge cost is positive and at
    most [infinity],
    [setup_routing_tables] returns, and for every router [r], destination
    [d] and neighbour [(n, edge_cost)] of [r], the best cost of [r] to [d]
    is at most [edge_cost] plus the best cost of [n] to [d].  The best cost
    is the cost of the last element, which is the least of the list. *)
Theorem triangle_inequality rs :
  dense_ids rs → neighbors_in_range rs → no_self_neighbor rs →
  edge_costs (λ e, 0 < e ≤ infinity) rs →
  ∃ rs', (setup_routing_tables rs).2 = Ok rs' ∧
    ∀ p d r n, (d < length rs)%nat → rs !! p = Some r → n ∈ nieghbors r →
      ∃ lp ln hp hn,
        tbl rs' p (Z.of_nat d) = Some lp ∧ tbl rs' (Z.to_nat n.1) (Z.of_nat d) = Some ln ∧
        last lp = Some hp ∧ least hp lp ∧ last ln = Some hn ∧ least hn ln ∧
        hp.2 ≤ n.2 + hn.2.
Proof.
  intros Hdense Hrange Hself Hcost.
  destruct (setup_routing_tables_run rs Hdense Hrange) as (rs' & Hrun & _ & Hcol & _).
  exists rs'. split; [done|].
  intros p d r n Hd Hr Hn.
  pose proof (neighbors_in_range_graph _ Hrange) as Hrange'.
  assert (Forall (Forall (λ n : Z * Z, 0 ≤ n.2 ≤ infinity)) (graph rs)) as Hcost'.
  { apply (edge_costs_graph (λ e, 0 ≤ e ≤ infinity)).
    eapply edge_costs_impl; [|exact Hcost]. simpl. lia. }
  assert (Forall (Forall (λ n : Z * Z, n.2 ≤ infinity)) (graph rs)) as Hle.
  { apply (edge_costs_graph (λ e, e ≤ infinity)).
    eapply edge_costs_impl; [|exact Hcost]. simpl. lia. }
  pose proof (no_self_link _ d Hdense Hself) as Hself'.
  assert (d < length (graph rs))%nat as Hd' by by rewrite length_graph.
  rewrite <-(nbrs_graph _ _ _ Hr) in Hn.
  pose proof (nbrs_in_range _ Hrange' _ _ Hn) as Hin.
  pose proof (nbrs_elem_lt _ _ _ Hn) as Hp.
  assert (∀ q, (q < length (graph rs))%nat →
    ∃ l h, column_of (graph rs) d !! q = Some l ∧ last l = Some h ∧ least h l ∧
           cost (column_of (graph rs) d) q = h.2) as Hbest.
  { intros q Hq. destruct (column_of_lookup (graph rs) d q Hq) as [l Hl].
    destruct (decide (q = d)) as [->|Hqd].
    - rewrite column_of_self in Hl by done. simplify_eq.
      exists [(Z.of_nat d, 0)], (Z.of_nat d, 0).
      split_and!; [by apply column_of_self|done| |by apply cost_column_of_self].
      by intros x ->%list_elem_of_singleton.
    - destruct (column_of_ok _ _ Hrange' Hle _ _ Hl Hqd) as (h & Hh & Hleast & _).
      exists l, h. split_and!; [done..|]. by eapply cost_lookup. }
  destruct (Hbest p Hp) as (lp & hp & Hlp & Hhp & Hleastp & Hcp).
  destruct (Hbest (Z.to_nat n.1)) as (ln & hn & Hln & Hhn & Hleastn & Hcn); [lia|].
  exists lp, ln, hp, hn.
  rewrite !(tbl_column rs rs' _ d (Hcol d Hd)).
  split_and!; [done..|].
  rewrite <-Hcp, <-Hcn. by apply column_of_triangle.
Qed.

Lemma triangle_inequality_witness :
  ∃ rs' lp ln hp hn, (setup_routing_tables routers).2 = Ok rs' ∧
    tbl rs' 0 5 = Some lp ∧ tbl rs' 1 5 = Some ln ∧
    last lp = Some hp ∧ last ln = Some hn ∧ hp.2 ≤ 1 + hn.2.
Proof.
  destruct (triangle_inequality routers) as (rs' & Hrun & Htri).
  - exact routers_dense.
  - exact routers_in_range.
  - exact routers_no_self.
  - closed_check.
  - destruct (Htri 0%nat 5%nat (Router 0 [(1, 1); (2, 2)] ∅) (1, 1))
      as (lp & ln & hp & hn & Hlp & Hln & Hhp & _ & Hhn & _ & Hle).
    + apply Nat.ltb_lt; reflexivity.
    + reflexivity.
    + left.
    + exists rs', lp, ln, hp, hn. repeat split; assumption.
Defined.

(** The counterexample to claim C8 as stated: a router that lists itself.
    With router 0 of neighbours [(0, 100)] and router 1 of neighbours
    [(0, 5)], the seeding of lines 266-281 appends [(0, 100)] to the list
    router 0 holds for itself, and line 306 reads that last entry when
    router 1 asks its neighbour: router 1 records [(0, 105)] and nothing
    lower, over a link of cost 5 to a router whose least cost to itself is
    0.  So every cost router 1 holds exceeds the cost of the link plus the
    least cost of router 0, and the last entry of router 0 is not its
    least.  When router 0 lists router 1 as well, with cost 7, the costs
    of the last entries break the inequality at router 0 itself: 100 over
    a link of cost 7 to a router that records 5. *)
Lemma triangle_fails_with_self_loop :
  (∃ rs',
     (setup_routing_tables [Router 0 [(0, 100)] ∅; Router 1 [(0, 5)] ∅]).2 = Ok rs' ∧
     tbl rs' 1 0 = Some [(-1, infinity); (0, 105)] ∧
     tbl rs' 0 0 = Some [(0, 0); (0, 100)] ∧
     ¬ least (0, 100) [(0, 0); (0, 100)] ∧
     ∀ lp ln hp hn, tbl rs' 1 0 = Some lp → tbl rs' 0 0 = Some ln →
       hp ∈ lp → hn ∈ ln → least hn ln → ¬ hp.2 ≤ 5 + hn.2) ∧
  (∃ rs',
     (setup_routing_tables [Router 0 [(0, 100); (1, 7)] ∅; Router 1 [(0, 5)] ∅]).2
       = Ok rs' ∧
     tbl rs' 0 0 = Some [(0, 0); (0, 100)] ∧
     tbl rs' 1 0 = Some [(-1, infinity); (0, 5)] ∧
     ∀ lp ln hp hn, tbl rs' 0 0 = Some lp → tbl rs' 1 0 = Some ln →
       last lp = Some hp → last ln = Some hn → ¬ hp.2 ≤ 7 + hn.2).
Proof.
  split.
  - eexists. split; [vm_compute; reflexivity|].
    assert (∀ x : hop, x ∈ [(0, 0); (0, 100)] → least x [(0, 0); (0, 100)] → x.2 ≤ 0)
      as Hleast.
    { intros x _ Hx. apply (Hx (0, 0)). left. }
    split_and!; [vm_compute; reflexivity..| |].
    + intros Hl. specialize (Hl (0, 0)). simpl in Hl.
      assert (100 ≤ 0) by (apply Hl; left). lia.
    + intros lp ln hp hn Hlp Hln Hhp Hhn Hmin.
      vm_compute in Hlp, Hln. simplify_eq.
      apply Hleast in Hmin; [|done].
      repeat (apply elem_of_cons in Hhp as [->|Hhp]); [simpl; lia..|].
      by apply elem_of_nil in Hhp.
  - eexists. split; [vm_compute; reflexivity|].
    split_and!; [vm_compute; reflexivity..|].
    intros lp ln hp hn Hlp Hln Hhp Hhn.
    vm_compute in Hlp, Hln. simplify_eq/=. lia.
Qed.

(** ** C5: finite costs in a component, the sentinel outside

    Claim C5.  On a well-formed topology where every edge cost is positive
    and small enough for no simple path to add up to [infinity] (cost times
    number of routers below [infinity]),
    [setup_routing_tables] returns, and for every router [r] and destination
    [d]: when a chain of links leads from [r] to [d], the list
    [r.routing_table[d.id]] ends with an entry of cost below [infinity];
    when [r] and [d] are in different components, the list is exactly
    [[(-1, infinity)]], and [infinity] is [10^10]. *)
Theorem finite_or_sentinel rs :
  dense_ids rs → neighbors_in_range rs →
  edge_costs (λ e, 0 < e ∧ e * Z.of_nat (length rs) < infinity) rs →
  ∃ rs', (setup_routing_tables rs).2 = Ok rs' ∧
    ∀ r d, (r < length rs)%nat → (d < length rs)%nat →
      (reaches (graph rs) r d →
         ∃ l h, tbl rs' r (Z.of_nat d) = Some l ∧ last l = Some h ∧ h.2 < infinity) ∧
      (¬ connected (graph rs) r d →
         tbl rs' r (Z.of_nat d) = Some [(-1, 10 ^ 10)]).
Proof.
  intros Hdense Hrange Hcost.
  destruct (setup_routing_tables_run rs Hdense Hrange) as (rs' & Hrun & _ & Hcol & _).
  exists rs'. split; [done|].
  intros r d Hr Hd.
  pose proof (neighbors_in_range_graph _ Hrange) as Hrange'.
  assert (d < length (graph rs))%nat as Hd' by by rewrite length_graph.
  rewrite (tbl_column rs rs' r d (Hcol d Hd)).
  destruct (column_of_lookup (graph rs) d r) as [l Hl]; [by rewrite length_graph|].
  split.
  - intros Hreach.
    assert (Forall (Forall (λ n : Z * Z, 0 ≤ n.2 ≤ infinity)) (graph rs)) as Hcost'.
    { apply (edge_costs_graph (λ e, 0 ≤ e ≤ infinity)).
      eapply edge_costs_impl; [|exact Hcost]. simpl. intros e [He1 He2]. nia. }
    assert (Forall (Forall (λ n : Z * Z,
      n.2 * Z.of_nat (length (graph rs)) < infinity)) (graph rs)) as Hbound.
    { rewrite length_graph. apply (edge_costs_graph (λ e, e * _ < infinity)).
      eapply edge_costs_impl; [|exact Hcost]. simpl. tauto. }
    pose proof (column_of_finite _ _ Hrange' Hd' Hcost' r Hbound Hreach) as Hfin.
    destruct (last l) as [h|] eqn:Hh.
    + exists l, h. split_and!; [done..|].
      by rewrite <-(cost_lookup _ _ _ _ Hl Hh).
    + unfold cost in Hfin. rewrite Hl in Hfin. simpl in Hfin. rewrite Hh in Hfin.
      simpl in Hfin. lia.
  - intros Hconn. rewrite Hl. f_equal.
    destruct (decide (l = init_entry d r)) as [->|Hne].
    + unfold init_entry. rewrite decide_False; [done|].
      intros ->. by apply Hconn.
    + destruct Hconn. by eapply column_of_conn.
Qed.

Lemma finite_or_sentinel_witness :
  (∃ rs' l h, (setup_routing_tables routers).2 = Ok rs' ∧
     tbl rs' 0 5 = Some l ∧ last l = Some h ∧ h.2 < infinity) ∧
  (∃ rs', (setup_routing_tables (isolated 2)).2 = Ok rs' ∧
     tbl rs' 0 1 = Some [(-1, 10 ^ 10)]).
Proof.
  split.
  - destruct (finite_or_sentinel routers) as (rs' & Hrun & Hfin).
    + exact routers_dense.
    + exact routers_in_range.
    + closed_check.
    + destruct (Hfin 0%nat 5%nat) as [Hreach _]; [apply Nat.ltb_lt; reflexivity..|].
      destruct Hreach as (l & h & Hl & Hh & Hlt).
      * apply (rtc_l _ _ 1%nat); [exists 1; left|].
        apply (rtc_l _ _ 3%nat); [exists 3; do 2 right; left|].
        apply (rtc_l _ _ 5%nat); [exists 1; do 2 right; left|].
        apply rtc_refl.
      * exists rs', l, h. repeat split; assumption.
  - destruct (finite_or_sentinel (isolated 2)) as (rs' & Hrun & Hfin).
    + reflexivity.
    + closed_check.
    + closed_check.
    + destruct (Hfin 0%nat 1%nat) as [_ Hout]; [apply Nat.ltb_lt; reflexivity..|].
      exists rs'. split; [assumption|]. apply Hout.
      intros Hconn. apply rtsc_nf in Hconn; [discriminate|].
      intros [y [[e He]|[e He]]].
      * vm_compute in He. inversion He.
      * destruct y as [|[|y]]; vm_compute in He; inversion He.
Defined.

(** ** C9: running the procedure again

    Claim C9.  On a well-formed topology [setup_routing_tables] returns a
    store on which a second run returns the very same store: the same lists,
    hence the same best hop and the same least cost for every pair.  Every
    entry for a destination is overwritten: what a run leaves there depends
    on the graph only, not on the tables it started from. *)
Theorem setup_twice rs :
  dense_ids rs → neighbors_in_range rs →
  ∃ rs1, (setup_routing_tables rs).2 = Ok rs1 ∧
    (setup_routing_tables rs1).2 = Ok rs1 ∧
    ∀ rs0, topo rs0 = topo rs →
      ∃ rs1', (setup_routing_tables rs0).2 = Ok rs1' ∧
        ∀ r d, (d < length rs)%nat → tbl rs1' r (Z.of_nat d) = tbl rs1 r (Z.of_nat d).
Proof.
  intros Hdense Hrange.
  destruct (setup_routing_tables_run rs Hdense Hrange) as (rs1 & Hrun & Ht & Hcol & Hframe).
  assert (∀ rs0, topo rs0 = topo rs →
    ∃ rs1', (setup_routing_tables rs0).2 = Ok rs1' ∧ topo rs1' = topo rs ∧
      (∀ d, (d < length rs)%nat → view (Z.of_nat d) rs1' = view (Z.of_nat d) rs1) ∧
      (∀ k, ¬ (0 ≤ k < Z.of_nat (length rs)) → view k rs1' = view k rs0)) as Hany.
  { intros rs0 Ht0.
    destruct (setup_routing_tables_run rs0) as (rs1' & Hrun' & Ht' & Hcol' & Hframe').
    { eapply dense_ids_topo; [symmetry; apply Ht0|done]. }
    { eapply edges_ok_topo; [symmetry; apply Ht0|done]. }
    rewrite (topo_length _ _ Ht0) in Hcol', Hframe'.
    rewrite (graph_topo _ _ Ht0) in Hcol'.
    exists rs1'. split_and!; [done|congruence| |done].
    intros d Hd. by rewrite Hcol, Hcol'. }
  exists rs1. split_and!; [done| |].
  - destruct (Hany rs1 Ht) as (rs2 & Hrun2 & Ht2 & Hcol2 & Hframe2).
    rewrite Hrun2. f_equal. apply store_ext; [congruence|].
    intros k. destruct (decide (0 ≤ k < Z.of_nat (length rs))) as [Hk|Hk].
    + rewrite <-(Z2Nat.id k) by lia. apply Hcol2. lia.
    + by apply Hframe2.
  - intros rs0 Ht0.
    destruct (Hany rs0 Ht0) as (rs1' & Hrun' & _ & Hcol' & _).
    exists rs1'. split; [done|].
    intros r d Hd. by apply tbl_view_eq, Hcol'.
Qed.

Lemma setup_twice_witness :
  ∃ rs1, (setup_routing_tables routers).2 = Ok rs1 ∧
    (setup_routing_tables rs1).2 = Ok rs1.
Proof.
  destruct (setup_twice routers routers_dense routers_in_range) as (rs1 & Hrun & Hagain & _).
  exists rs1. split; assumption.
Defined.

(** ** The sort of the report loop *)

Lemma insert_hop_perm h l : insert_hop h l ≡ₚ h :: l.
Proof.
  induction l as [|x l IH]; simpl; [done|].
  case_decide; [done|]. by rewrite IH, Permutation_swap.
Qed.

Lemma sort_hops_perm l : sort_hops l ≡ₚ l.
Proof.
  induction l as [|x l IH]; simpl; [done|].
  by rewrite insert_hop_perm, IH.
Qed.

Lemma insert_hop_hdrel h x l :
  x.2 ≤ h.2 → HdRel (λ a b : hop, a.2 ≤ b.2) x l →
  HdRel (λ a b : hop, a.2 ≤ b.2) x (insert_hop h l).
Proof.
  intros Hxh Hhd. destruct l as [|y l]; simpl.
  - by constructor.
  - case_decide; constructor; [done|]. by inversion Hhd.
Qed.

Lemma insert_hop_ascending h l : ascending l → ascending (insert_hop h l).
Proof.
  unfold ascending. induction 1 as [|x l Hs IH Hhd]; simpl.
  - by repeat constructor.
  - case_decide.
    + constructor; [by constructor|by constructor].
    + constructor; [done|]. apply insert_hop_hdrel; [lia|done].
Qed.

Lemma sort_hops_ascending l : ascending (sort_hops l).
Proof.
  induction l as [|x l IH]; simpl; [constructor|].
  by apply insert_hop_ascending.
Qed.

Lemma ascending_head_least h l : ascending l → head l = Some h → least h l.
Proof.
  unfold ascending. intros Hs Hh.
  assert (Transitive (λ a b : hop, a.2 ≤ b.2)) as Htrans by (intros a b c; lia).
  apply (Sorted_StronglySorted _) in Hs.
  destruct Hs as [|x l Hs Hall]; simplify_eq/=.
  intros y [->|Hy]%elem_of_cons; [done|].
  rewrite Forall_forall in Hall. by apply Hall.
Qed.

Lemma sort_hops_nonempty l : l ≠ [] → sort_hops l ≠ [].
Proof.
  intros Hne Hs. pose proof (sort_hops_perm l) as Hp.
  rewrite Hs in Hp. apply Permutation_nil_l in Hp. by subst.
Qed.

Lemma report_loop_run rs :
  no_empty_list rs →
  report_loop rs = Ok ((λ r, with_table r (sort_hops <$> routing_table r)) <$> rs).
Proof.
  unfold no_empty_list. induction 1 as [|r rs Hr Hrs IH]; simpl; [done|].
  unfold report_router. rewrite decide_True by done.
  by rewrite bind_ret_l, IH, bind_ret_l.
Qed.

Lemma tbl_sorted rs p k :
  tbl ((λ r, with_table r (sort_hops <$> routing_table r)) <$> rs) p k
    = sort_hops <$> tbl rs p k.
Proof.
  unfold tbl. rewrite list_lookup_fmap.
  destruct (rs !! p) as [r|]; simpl; [|done].
  by rewrite lookup_fmap.
Qed.

Lemma setup_no_empty_list rs rs' :
  neighbors_in_range rs → no_empty_list rs →
  topo rs' = topo rs →
  (∀ d, (d < length rs)%nat →
        view (Z.of_nat d) rs' = Some <$> column_of (graph rs) d) →
  (∀ k, ¬ (0 ≤ k < Z.of_nat (length rs)) → view k rs' = view k rs) →
  no_empty_list rs'.
Proof.
  intros Hrange Hne Ht Hcol Hframe.
  apply neighbors_in_range_graph in Hrange.
  apply Forall_forall. intros r [p Hr]%list_elem_of_lookup_1 k l Hl.
  assert (tbl rs' p k = Some l) as Htbl by (unfold tbl; by rewrite Hr).
  destruct (decide (0 ≤ k < Z.of_nat (length rs))) as [Hk|Hk].
  - rewrite <-(Z2Nat.id k) in Htbl by lia.
    rewrite (tbl_column rs rs' p (Z.to_nat k)) in Htbl by (apply Hcol; lia).
    apply (column_of_head _ _ Hrange) in Htbl. intros ->.
    unfold init_entry in Htbl. by case_decide.
  - rewrite (tbl_view_eq k rs' rs p (Hframe k Hk)) in Htbl.
    unfold tbl in Htbl. destruct (rs !! p) as [r0|] eqn:Hr0; simplify_eq/=.
    unfold no_empty_list in Hne. rewrite Forall_forall in Hne.
    by eapply (Hne r0); [eapply list_elem_of_lookup_2|].
Qed.

(** ** C1: where the lists are sorted

    Claim C1, as the code has it.  The lists [setup_routing_tables] leaves
    are not in ascending order; the report loop of the script sorts them.
    On a well-formed topology whose tables hold no empty list, the procedure
    and then the report loop return, and afterwards, for every router [r]
    and destination [d], the list [r.routing_table[d.id]] is ascending by
    cost, is a permutation of the list the procedure left, and starts with
    an entry of least cost. *)
Theorem report_loop_sorts rs :
  dense_ids rs → neighbors_in_range rs → no_empty_list rs →
  ∃ rs1 rs2, (setup_routing_tables rs).2 = Ok rs1 ∧ report_loop rs1 = Ok rs2 ∧
    ∀ r d, (r < length rs)%nat → (d < length rs)%nat →
      ∃ l1 l2 h, tbl rs1 r (Z.of_nat d) = Some l1 ∧ tbl rs2 r (Z.of_nat d) = Some l2 ∧
        l2 ≡ₚ l1 ∧ ascending l2 ∧ head l2 = Some h ∧ least h l2.
Proof.
  intros Hdense Hrange Hne.
  destruct (setup_routing_tables_run rs Hdense Hrange) as (rs1 & Hrun & Ht & Hcol & Hframe).
  pose proof (setup_no_empty_list rs rs1 Hrange Hne Ht Hcol Hframe) as Hne1.
  eexists rs1, _. split_and!; [done|by apply report_loop_run|].
  intros r d Hr Hd. rewrite tbl_sorted.
  rewrite (tbl_column rs rs1 r d (Hcol d Hd)).
  destruct (column_of_lookup (graph rs) d r) as [l Hl]; [by rewrite length_graph|].
  rewrite Hl. simpl.
  destruct (head (sort_hops l)) as [h|] eqn:Hh.
  - exists l, (sort_hops l), h.
    split_and!; [done|done|apply sort_hops_perm|apply sort_hops_ascending|done|].
    by apply ascending_head_least; [apply sort_hops_ascending|].
  - apply head_None in Hh. apply sort_hops_nonempty in Hh; [done|].
    apply neighbors_in_range_graph in Hrange.
    apply (column_of_head _ _ Hrange) in Hl. intros ->.
    unfold init_entry in Hl. by case_decide.
Qed.

Lemma report_loop_sorts_witness :
  ∃ rs1 rs2 l1 l2 h, (setup_routing_tables routers).2 = Ok rs1 ∧
    report_loop rs1 = Ok rs2 ∧
    tbl rs1 0 5 = Some l1 ∧ tbl rs2 0 5 = Some l2 ∧
    ascending l2 ∧ head l2 = Some h ∧ least h l2.
Proof.
  destruct (report_loop_sorts routers) as (rs1 & rs2 & Hrun & Hrep & Hsorted).
  - exact routers_dense.
  - exact routers_in_range.
  - closed_check.
  - destruct (Hsorted 0%nat 5%nat)
      as (l1 & l2 & h & Hl1 & Hl2 & _ & Hasc & Hh & Hleast);
      [apply Nat.ltb_lt; reflexivity..|].
    exists rs1, rs2, l1, l2, h. repeat split; assumption.
Defined.

(** The counterexample to claim C1 as stated: on the seed topology the list
    router 0 holds for destination 5 right after [setup_routing_tables] is
    [[(-1, infinity); (1, 5); (1, 4)]], which is not ascending, and its
    first element does not have the least cost. *)
Lemma setup_leaves_unsorted :
  ∃ rs', (setup_routing_tables routers).2 = Ok rs' ∧
    tbl rs' 0 5 = Some [(-1, infinity); (1, 5); (1, 4)] ∧
    ¬ ascending [(-1, infinity); (1, 5); (1, 4)] ∧
    ¬ least (-1, infinity) [(-1, infinity); (1, 5); (1, 4)].
Proof.
  eexists. split_and!.
  - vm_compute. reflexivity.
  - vm_compute. reflexivity.
  - unfold ascending. intros Hs.
    inversion Hs as [|? ? _ Hhd]; subst.
    inversion Hhd as [|? ? Hle]; subst. simpl in Hle. rewrite infinity_eq in Hle. lia.
  - intros Hl. specialize (Hl (1, 5)). simpl in Hl. rewrite infinity_eq in Hl.
    assert ((1, 5) ∈ [(-1, 10000000000); (1, 5); (1, 4)]) as Hin by (right; left).
    rewrite <-infinity_eq in Hin at 1. apply Hl in Hin. lia.
Qed.

(** ** C6: the seed scenario

    Claim C6, as the code has it.  On the seed topology, after
    [setup_routing_tables] and the report loop (the script runs both before
    it resolves the path), [find_best_route(routers, routers[0],
    routers[5])] prints nothing and returns [[0; 1; 4; 3; 5]]: it starts
    with 0 and ends with 5, its accumulated edge cost is 4, which is the
    cost of the first (best) entry of [routers[0].routing_table[5]], and no
    chain of links from 0 to 5, simple or not, costs less. *)
Theorem seed_best_route :
  ∃ rs2 r0 r5, script_tables routers = Ok rs2 ∧
    rs2 !! 0%nat = Some r0 ∧ rs2 !! 5%nat = Some r5 ∧
    find_best_route 10 rs2 r0 r5 = ([], Some (Ok [0; 1; 4; 3; 5])) ∧
    path_cost routers [0; 1; 4; 3; 5] = Some 4 ∧
    (tbl rs2 0 5 ≫= head) = Some (1, 4) ∧
    route (graph routers) 5 0 [0; 1; 4; 3; 5]%nat 4 ∧
    ∀ vs w, route (graph routers) 5 0 vs w → 4 ≤ w.
Proof.
  eexists _, _, _. split_and!.
  - vm_compute. reflexivity.
  - vm_compute. reflexivity.
  - vm_compute. reflexivity.
  - vm_compute. reflexivity.
  - vm_compute. reflexivity.
  - vm_compute. reflexivity.
  - apply (route_step _ _ 0%nat 1%nat 1 _ 3); [left|].
    apply (route_step _ _ 1%nat 4%nat 1 _ 2); [do 3 right; left|].
    apply (route_step _ _ 4%nat 3%nat 1 _ 1); [do 2 right; left|].
    apply (route_step _ _ 3%nat 5%nat 1 _ 0); [do 2 right; left|].
    constructor.
  - intros vs w Hr.
    assert (cost (column_of (graph routers) 5) 0 = 4) as <- by (vm_compute; reflexivity).
    eapply column_of_least_route; [| | | |exact Hr].
    + apply neighbors_in_range_graph, routers_in_range.
    + apply Nat.ltb_lt. reflexivity.
    + apply (edge_costs_graph (λ e, 0 ≤ e ≤ infinity)). closed_check.
    + apply no_self_link; [exact routers_dense|exact routers_no_self].
Qed.

Lemma seed_best_route_witness :
  route (graph routers) 5 0 [0; 1; 3; 5]%nat 5 ∧ 4 ≤ 5.
Proof.
  assert (route (graph routers) 5 0 [0; 1; 3; 5]%nat 5) as Hr.
  { apply (route_step _ _ 0%nat 1%nat 1 _ 4); [left|].
    apply (route_step _ _ 1%nat 3%nat 3 _ 1); [do 2 right; left|].
    apply (route_step _ _ 3%nat 5%nat 1 _ 0); [do 2 right; left|].
    constructor. }
  split; [exact Hr|].
  destruct seed_best_route as (rs2 & r0 & r5 & _ & _ & _ & _ & _ & _ & _ & Hmin).
  exact (Hmin _ _ Hr).
Defined.

(** The counterexample to claim C6 as stated: right after
    [setup_routing_tables], without the sort of the report loop, the first
    entry of [routers[0].routing_table[5]] is the sentinel, the path
    returned is [[0; -1; 5]], and its hops are not links of the graph: it
    has no accumulated edge cost. *)
Lemma seed_route_without_sort :
  ∃ rs1 r0 r5, (setup_routing_tables routers).2 = Ok rs1 ∧
    rs1 !! 0%nat = Some r0 ∧ rs1 !! 5%nat = Some r5 ∧
    find_best_route 10 rs1 r0 r5 = ([], Some (Ok [0; -1; 5])) ∧
    path_cost routers [0; -1; 5] = None ∧
    (tbl rs1 0 5 ≫= last) = Some (1, 4).
Proof.
  eexists _, _, _. split_and!; vm_compute; reflexivity.
Qed.

(** ** C2: the walk has no guard *)

Lemma walk_follows fuel rs dest_id curr next path :
  follows rs dest_id curr next →
  walk (S fuel) rs dest_id curr path = walk fuel rs dest_id next (path ++ [curr]).
Proof.
  intros [Hne Hnext]. simpl. rewrite decide_True by done.
  unfold next_hop in Hnext. by rewrite Hnext.
Qed.

Lemma walk_cycle rs dest_id fuel :
  ∀ x path, tc (follows rs dest_id) x x → walk fuel rs dest_id x path = None.
Proof.
  induction fuel as [|fuel IH]; intros x path Hx; [done|].
  assert (∃ y, follows rs dest_id x y ∧ tc (follows rs dest_id) y y) as (y & Hxy & Hy).
  { inversion Hx as [? ? Hxx|? y ? Hxy Hyx]; subst.
    - by exists x.
    - exists y. split; [done|]. by eapply tc_r. }
  rewrite (walk_follows _ _ _ _ _ _ Hxy). by apply IH.
Qed.

Lemma walk_into_cycle rs dest_id c0 x :
  rtc (follows rs dest_id) c0 x → tc (follows rs dest_id) x x →
  ∀ fuel path, walk fuel rs dest_id c0 path = None.
Proof.
  induction 1 as [x|c0 y x Hstep _ IH]; intros Hx fuel path.
  - by apply walk_cycle.
  - destruct fuel as [|fuel]; [done|].
    rewrite (walk_follows _ _ _ _ _ _ Hstep). by apply IH.
Qed.

(** The sentinel is followed like any id: Python's [routers[-1]] is the
    last router of the list. *)
Lemma next_hop_sentinel rs dest_id r :
  last rs = Some r → next_hop rs dest_id (-1) = first_hop r dest_id.
Proof.
  intros Hr. unfold next_hop, getitem, py_pos.
  assert (rs ≠ []) as Hne by (intros ->; done).
  assert (0 < length rs)%nat by (destruct rs; simpl; [done|lia]).
  rewrite decide_False by lia. rewrite decide_True by lia.
  rewrite bind_ret_l. rewrite last_lookup in Hr.
  replace (Z.to_nat (Z.of_nat (length rs) + -1)) with (pred (length rs)) by lia.
  by exc_step Hr.
Qed.

Lemma walk_returns rs dest_id fuel :
  ∀ curr path p,
    walk fuel rs dest_id curr path = Some (Ok p) ↔
    ∃ hops, chain rs dest_id curr hops ∧ (length hops < fuel)%nat ∧
            p = path ++ hops ++ [dest_id].
Proof.
  induction fuel as [|fuel IH]; intros curr path p.
  - simpl. split; [done|]. intros (hops & _ & Hlt & _). lia.
  - simpl. destruct (decide (curr ≠ dest_id)) as [Hne|Heq].
    + destruct (next_hop rs dest_id curr) as [next|e] eqn:Hnext;
        unfold next_hop in Hnext; rewrite Hnext.
      * rewrite IH. split.
        -- intros (hops & Hch & Hlt & ->). exists (curr :: hops).
           split_and!; [by econstructor|simpl; lia|].
           by rewrite <-(assoc_L (++)).
        -- intros (hops & Hch & Hlt & ->).
           inversion Hch as [|? next' hops' [_ Hn] Hch']; subst; [done|].
           unfold next_hop in Hn. rewrite Hnext in Hn. simplify_eq.
           exists hops'. split_and!; [done|simpl in Hlt; lia|].
           by rewrite <-(assoc_L (++)).
      * split; [done|]. intros (hops & Hch & _ & _).
        inversion Hch as [|? next' hops' [_ Hn] Hch']; subst; [done|].
        unfold next_hop in Hn. by rewrite Hnext in Hn.
    + assert (curr = dest_id) as -> by (by destruct (decide (curr = dest_id)); [|destruct Heq]).
      split.
      * intros [= <-]. exists []. split_and!; [constructor|simpl; lia|done].
      * intros (hops & Hch & _ & ->).
        inversion Hch as [|? next' hops' [Hne _] Hch']; subst; [done|].
        by destruct Hne.
Qed.

(** Claim C2, as the code has it.  [find_best_route] has no bound on its
    walk and checks neither for the sentinel nor for an infinite cost.  It
    returns exactly when the chain of first entries that starts at [src]
    reaches [dest.id], and the path is then [src.id], every hop of the chain
    and [dest.id].  The sentinel -1 is a hop like any other, followed to the
    last router of the list.  When the chain runs into a cycle that avoids
    [dest.id], the call does not return, whatever the fuel, and raises
    nothing. *)
Theorem find_best_route_unguarded rs src dest c0 :
  first_hop src (id dest) = Ok c0 →
  (∀ fuel p, (find_best_route fuel rs src dest).2 = Some (Ok p) ↔
     ∃ hops, chain rs (id dest) c0 hops ∧ (length hops < fuel)%nat ∧
             p = id src :: hops ++ [id dest]) ∧
  (∀ r, last rs = Some r → next_hop rs (id dest) (-1) = first_hop r (id dest)) ∧
  (∀ x, rtc (follows rs (id dest)) c0 x → tc (follows rs (id dest)) x x →
     ∀ fuel, (find_best_route fuel rs src dest).2 = None).
Proof.
  intros Hfirst. unfold find_best_route. simpl. rewrite Hfirst.
  split_and!.
  - intros fuel p. apply walk_returns.
  - intros r. apply next_hop_sentinel.
  - intros x Hreach Hcycle fuel. by eapply walk_into_cycle.
Qed.

Lemma find_best_route_unguarded_witness :
  ∃ rs2 r0 r1, script_tables (isolated 3) = Ok rs2 ∧
    rs2 !! 0%nat = Some r0 ∧ rs2 !! 1%nat = Some r1 ∧
    ∀ fuel, (find_best_route fuel rs2 r0 r1).2 = None.
Proof.
  eexists _, _, _. split_and!.
  - vm_compute. reflexivity.
  - vm_compute. reflexivity.
  - vm_compute. reflexivity.
  - eapply (find_best_route_unguarded _ _ _ (-1)).
    + vm_compute. reflexivity.
    + apply rtc_refl.
    + apply tc_once. split; [discriminate|]. vm_compute. reflexivity.
Defined.

(** The counterexample to claim C2 as stated: two routers without links.
    The chain from router 0 to router 1 meets the sentinel with infinite
    cost, and [find_best_route] returns the path [[0; -1; 1]] instead of
    failing. *)
Lemma find_best_route_through_sentinel :
  ∃ rs2 r0 r1, script_tables (isolated 2) = Ok rs2 ∧
    rs2 !! 0%nat = Some r0 ∧ rs2 !! 1%nat = Some r1 ∧
    tbl rs2 0 1 = Some [(-1, infinity)] ∧
    find_best_route 10 rs2 r0 r1 = ([], Some (Ok [0; -1; 1])).
Proof.
  eexists _, _, _. split_and!; vm_compute; reflexivity.
Qed.

(** ** C3: a router that is not in the list

    Claim C3 evaluated at its failing input.  [stranger] is not in the
    list; [find_best_route] prints its message and goes on: it returns the
    path [[9; 3; 5]]. *)
Theorem find_best_route_unknown_router :
  ∃ rs2 r5, script_tables routers = Ok rs2 ∧ rs2 !! 5%nat = Some r5 ∧
    (stranger ∉ rs2) ∧
    find_best_route 10 rs2 stranger r5
      = ([unknown_router_message], Some (Ok [9; 3; 5])).
Proof.
  eexists _, _. split_and!.
  - vm_compute. reflexivity.
  - vm_compute. reflexivity.
  - apply (bool_decide_unpack _). vm_compute. exact I.
  - vm_compute. reflexivity.
Qed.

(** ** C4: the empty list

    Claim C4, amended: the code has no exception for this case.  Called
    with an empty list, [setup_routing_tables] prints its message and
    returns at once: nothing is raised and the store (there is nothing in
    it) is as it was.  The message is printed for the empty list only. *)
Theorem setup_routing_tables_empty :
  setup_routing_tables [] = ([blank_routers_message], Ok []) ∧
  ∀ rs, (setup_routing_tables rs).1 = [blank_routers_message] ↔ rs = [].
Proof.
  split; [done|]. intros rs. unfold setup_routing_tables.
  destruct rs as [|r rs]; simpl; [done|]. split; discriminate.
Qed.

Lemma setup_routing_tables_empty_witness :
  (setup_routing_tables []).1 = [blank_routers_message] ∧ @nil router = [].
Proof.
  destruct setup_routing_tables_empty as [Hrun Hiff].
  split; [by rewrite Hrun|]. apply (Hiff []). by rewrite Hrun.
Defined.

(** The counterexample to claim C4 as stated: the call on the empty list
    does not fail.  Lines 242-244 print and [return]; nothing is raised,
    and the caller gets the normal return, as from a run on a topology
    (here one router without links).  Only the printed line tells the two
    apart. *)
Lemma setup_routing_tables_empty_returns :
  (setup_routing_tables []).2 = Ok [] ∧
  (∀ e, (setup_routing_tables []).2 ≠ Raise e) ∧
  ∃ rs', (setup_routing_tables [Router 0 [] ∅]).2 = Ok rs'.
Proof.
  split_and!; [done|done|]. eexists. vm_compute. reflexivity.
Qed.

(** * Further properties of the code *)

(** ** The best hop of a column *)

Section best_hop.
Context (nb : list (list (Z * Z))) (d : nat).
Context (Hrange : Forall (Forall (in_range (length nb))) nb).
Context (Hd : (d < length nb)%nat).

Lemma col_seeded_ids : col_ids (length nb) (col_seeded nb d).
Proof.
  intros p l x Hl Hx.
  destruct (col_seeded_shape _ _ Hrange _ _ Hl) as (k & -> & _).
  apply elem_of_app in Hx as [Hx|Hx].
  - unfold init_entry in Hx. case_decide;
      apply list_elem_of_singleton in Hx as ->; simpl; [right; lia|by left].
  - apply elem_of_replicate_inv in Hx as ->. simpl. right. lia.
Qed.

Lemma column_of_ids : col_ids (length nb) (column_of nb d).
Proof.
  unfold column_of.
  apply (col_relax_all_ind nb d (col_ids (length nb))); [|apply col_seeded_ids].
  intros c j n Hc _ Hn _ _ p l x. rewrite lookup_app_at.
  case_decide as E; [|by apply Hc].
  subst p. destruct (c !! j) as [l0|] eqn:El0; [|done].
  intros [= <-] [Hx| ->%list_elem_of_singleton]%elem_of_app; [by eapply Hc|].
  simpl. right. by eapply nbrs_in_range.
Qed.

Lemma col_seeded_ties : col_ties d (col_seeded nb d).
Proof.
  intros p l h Hl Hp Hh Hfin x Hx Hcost.
  destruct (col_seeded_shape _ _ Hrange _ _ Hl) as (k & -> & _).
  unfold init_entry in *. rewrite decide_False in * by done.
  destruct k as [|k].
  - rewrite app_nil_r in *. simpl in Hh. by simplify_eq.
  - rewrite replicate_S_end, (assoc_L (++)), last_snoc in Hh. simplify_eq.
    apply elem_of_app in Hx as [->%list_elem_of_singleton|Hx]; [done|].
    by apply elem_of_replicate_inv in Hx.
Qed.

Lemma column_of_ok_ties :
  Forall (Forall (λ n : Z * Z, n.2 ≤ infinity)) nb →
  col_ok d (column_of nb d) ∧ col_ties d (column_of nb d).
Proof.
  intros Hcost. unfold column_of.
  apply (col_relax_all_ind nb d (λ c, col_ok d c ∧ col_ties d c)).
  - intros c j n [Hok Hties] Hj Hn Hcn Hlt. split; [by apply col_ok_app_at|].
    intros p l h. rewrite lookup_app_at.
    case_decide as E; [|by apply Hties].
    subst p. destruct (c !! j) as [l0|] eqn:El0; [|done].
    intros [= <-] _. rewrite last_snoc. intros [= <-] _ x.
    intros [Hx| ->%list_elem_of_singleton]%elem_of_app; [|done].
    simpl. intros Hcost'.
    destruct (Hok _ _ El0 Hj) as (h0 & Hh0 & Hleast & _).
    rewrite (cost_lookup _ _ _ _ El0 Hh0) in Hlt.
    apply Hleast in Hx. lia.
  - split; [by apply col_seeded_ok|apply col_seeded_ties].
Qed.

Lemma col_seeded_hops : ¬ link nb d d → col_hops nb d (col_seeded nb d).
Proof.
  intros Hself p l h Hl Hp Hh Hfin.
  destruct (col_seeded_shape _ _ Hrange _ _ Hl) as (k & -> & _).
  unfold init_entry in *. rewrite decide_False in * by done.
  destruct k as [|k].
  - rewrite app_nil_r in *. simpl in Hh. by simplify_eq.
  - rewrite replicate_S_end, (assoc_L (++)), last_snoc in Hh. simplify_eq. simpl in *.
    destruct (find_cost_cases (Z.of_nat d) (nbrs nb p)) as [?|Hin]; [done|].
    eexists. split; [exact Hin|].
    rewrite Nat2Z.id. unfold cost. rewrite col_seeded_self by done. simpl. lia.
Qed.

Lemma column_of_hops : ¬ link nb d d → col_hops nb d (column_of nb d).
Proof.
  intros Hself. unfold column_of.
  apply (col_relax_all_ind nb d (col_hops nb d)); [|by apply col_seeded_hops].
  intros c j n Hc Hj Hn Hcn Hlt p l h. rewrite lookup_app_at.
  case_decide as E.
  - subst p. destruct (c !! j) as [l0|] eqn:El0; [|done].
    intros [= <-] _. rewrite last_snoc. intros [= <-] _. simpl.
    exists n.2. split; [by destruct n|].
    pose proof (cost_app_at_le c j n (Z.to_nat n.1) Hlt). lia.
  - intros Hl Hp Hh Hfin.
    destruct (Hc _ _ _ Hl Hp Hh Hfin) as (e & He & Hle).
    exists e. split; [done|].
    pose proof (cost_app_at_le c j n (Z.to_nat h.1) Hlt). lia.
Qed.

(** After the passes the cost of the best hop is the cost of its link plus
    the cost its neighbour records. *)
Lemma column_of_best_hop p l h :
  ¬ link nb d d → Forall (Forall (λ n : Z * Z, 0 ≤ n.2 ≤ infinity)) nb →
  column_of nb d !! p = Some l → p ≠ d → last l = Some h → h.2 ≠ infinity →
  ∃ e, (h.1, e) ∈ nbrs nb p ∧ h.2 = e + cost (column_of nb d) (Z.to_nat h.1).
Proof.
  intros Hself Hcost Hl Hp Hh Hfin.
  destruct (column_of_hops Hself _ _ _ Hl Hp Hh Hfin) as (e & He & Hle).
  exists e. split; [done|].
  pose proof (column_of_triangle _ _ Hrange Hd Hcost p (h.1, e) Hself He) as Htri.
  rewrite (cost_lookup _ _ _ _ Hl Hh) in Htri. simpl in Htri. lia.
Qed.

(** A stable sort by cost puts a copy of the best hop in front. *)
Lemma column_of_sorted_head p l h :
  Forall (Forall (λ n : Z * Z, n.2 ≤ infinity)) nb →
  column_of nb d !! p = Some l → p ≠ d → last l = Some h → h.2 ≠ infinity →
  head (sort_hops l) = Some h.
Proof.
  intros Hcost Hl Hp Hh Hfin.
  destruct (column_of_ok_ties Hcost) as [Hok Hties].
  destruct (Hok _ _ Hl Hp) as (h' & Hh' & Hleast & _). simplify_eq.
  destruct (head (sort_hops l)) as [x|] eqn:Hx.
  - f_equal. apply (Hties _ _ _ Hl Hp Hh Hfin).
    + rewrite <-(sort_hops_perm l). by eapply head_Some_elem_of.
    + pose proof (ascending_head_least _ _ (sort_hops_ascending l) Hx) as Hx'.
      assert (h ∈ sort_hops l) as Hin
        by (rewrite (sort_hops_perm l); by apply last_Some_elem_of).
      apply Hx' in Hin.
      assert (x ∈ l) as Hxl
        by (rewrite <-(sort_hops_perm l); by eapply head_Some_elem_of).
      apply Hleast in Hxl. lia.
  - apply head_None in Hx. apply last_Some_elem_of in Hh.
    rewrite <-(sort_hops_perm l), Hx in Hh. by apply elem_of_nil in Hh.
Qed.
End best_hop.

(** ** What the procedure records: shortest costs and their first links *)

Lemma column_of_last nb d q :
  Forall (Forall (in_range (length nb))) nb → (q < length nb)%nat →
  ∃ l h, column_of nb d !! q = Some l ∧ last l = Some h ∧
         cost (column_of nb d) q = h.2.
Proof.
  intros Hrange Hq.
  destruct (column_of_lookup nb d q Hq) as [l Hl].
  destruct (last l) as [h|] eqn:Hh.
  - exists l, h. split_and!; [done..|]. by eapply cost_lookup.
  - apply last_None in Hh. subst.
    apply (column_of_head _ _ Hrange) in Hl. unfold init_entry in Hl.
    by case_decide.
Qed.

Lemma edge_costs_bounds rs :
  edge_costs (λ e, 0 < e ≤ infinity) rs →
  Forall (Forall (λ n : Z * Z, 0 ≤ n.2 ≤ infinity)) (graph rs).
Proof.
  intros Hcost. apply (edge_costs_graph (λ e, 0 ≤ e ≤ infinity)).
  eapply edge_costs_impl; [|exact Hcost]. simpl. lia.
Qed.

(** X1.  The cost [setup_routing_tables] records last for a pair is the
    cost of a shortest chain of links: when it is not the infinity mark it
    is the cost of a chain from the router to the destination, and no chain
    costs less. *)
Theorem best_cost_is_shortest rs :
  dense_ids rs → neighbors_in_range rs → no_self_neighbor rs →
  edge_costs (λ e, 0 < e ≤ infinity) rs →
  ∃ rs', (setup_routing_tables rs).2 = Ok rs' ∧
    ∀ p d, (p < length rs)%nat → (d < length rs)%nat →
      ∃ l h, tbl rs' p (Z.of_nat d) = Some l ∧ last l = Some h ∧
        (h.2 ≠ infinity → ∃ vs, route (graph rs) d p vs h.2) ∧
        (∀ vs w, route (graph rs) d p vs w → h.2 ≤ w).
Proof.
  intros Hdense Hrange Hself Hcost.
  destruct (setup_routing_tables_run rs Hdense Hrange) as (rs' & Hrun & _ & Hcol & _).
  exists rs'. split; [done|].
  intros p d Hp Hd.
  pose proof (neighbors_in_range_graph _ Hrange) as Hrange'.
  pose proof (edge_costs_bounds _ Hcost) as Hcost'.
  pose proof (no_self_link _ d Hdense Hself) as Hself'.
  assert (d < length (graph rs))%nat as Hd' by by rewrite length_graph.
  rewrite (tbl_column rs rs' p d (Hcol d Hd)).
  destruct (column_of_last (graph rs) d p Hrange') as (l & h & Hl & Hh & Hc);
    [by rewrite length_graph|].
  exists l, h. split_and!; [done..| |].
  - intros Hfin. rewrite <-Hc in Hfin |- *. by apply column_of_sound.
  - intros vs w Hr. rewrite <-Hc. by eapply column_of_least_route.
Qed.

Lemma best_cost_is_shortest_witness :
  ∃ rs' l h, (setup_routing_tables routers).2 = Ok rs' ∧
    tbl rs' 2 3 = Some l ∧ last l = Some h ∧
    ∀ vs w, route (graph routers) 3 2 vs w → h.2 ≤ w.
Proof.
  destruct (best_cost_is_shortest routers) as (rs' & Hrun & Hbest).
  - exact routers_dense.
  - exact routers_in_range.
  - exact routers_no_self.
  - closed_check.
  - destruct (Hbest 2%nat 3%nat) as (l & h & Hl & Hh & _ & Hmin);
      [apply Nat.ltb_lt; reflexivity..|].
    exists rs', l, h. repeat split; assumption.
Defined.

(** X2.  The next hop recorded last toward another router, when its cost is
    not the infinity mark, is a neighbour the router lists, and the cost is
    the cost of that link plus the cost the neighbour records last toward
    the same destination. *)
Theorem best_hop_is_neighbor rs :
  dense_ids rs → neighbors_in_range rs → no_self_neighbor rs →
  edge_costs (λ e, 0 < e ≤ infinity) rs →
  ∃ rs', (setup_routing_tables rs).2 = Ok rs' ∧
    ∀ p d r l h, (d < length rs)%nat → p ≠ d → rs !! p = Some r →
      tbl rs' p (Z.of_nat d) = Some l → last l = Some h → h.2 ≠ infinity →
      ∃ e ln hn, (h.1, e) ∈ nieghbors r ∧
        tbl rs' (Z.to_nat h.1) (Z.of_nat d) = Some ln ∧ last ln = Some hn ∧
        h.2 = e + hn.2.
Proof.
  intros Hdense Hrange Hself Hcost.
  destruct (setup_routing_tables_run rs Hdense Hrange) as (rs' & Hrun & _ & Hcol & _).
  exists rs'. split; [done|].
  intros p d r l h Hd Hp Hr Hl Hh Hfin.
  pose proof (neighbors_in_range_graph _ Hrange) as Hrange'.
  pose proof (edge_costs_bounds _ Hcost) as Hcost'.
  pose proof (no_self_link _ d Hdense Hself) as Hself'.
  assert (d < length (graph rs))%nat as Hd' by by rewrite length_graph.
  rewrite (tbl_column rs rs' p d (Hcol d Hd)) in Hl.
  destruct (column_of_best_hop _ _ Hrange' Hd' p l h Hself' Hcost' Hl Hp Hh Hfin)
    as (e & He & Heq).
  pose proof (nbrs_in_range _ Hrange' _ _ He) as Hin. simpl in Hin.
  destruct (column_of_last (graph rs) d (Z.to_nat h.1) Hrange')
    as (ln & hn & Hln & Hhn & Hcn); [lia|].
  exists e, ln, hn.
  rewrite (tbl_column rs rs' _ d (Hcol d Hd)).
  rewrite <-(nbrs_graph _ _ _ Hr).
  split_and!; [done..|]. by rewrite <-Hcn.
Qed.

Lemma best_hop_is_neighbor_witness :
  ∃ rs' e ln hn, (setup_routing_tables routers).2 = Ok rs' ∧
    (1, e) ∈ [(1, 1); (2, 2)] ∧ tbl rs' 1 5 = Some ln ∧ last ln = Some hn ∧
    4 = e + hn.2.
Proof.
  destruct (best_hop_is_neighbor routers) as (rs' & Hrun & Hhop).
  - exact routers_dense.
  - exact routers_in_range.
  - exact routers_no_self.
  - closed_check.
  - destruct (Hhop 0%nat 5%nat (Router 0 [(1, 1); (2, 2)] ∅)
        [(-1, infinity); (1, 5); (1, 4)] (1, 4))
      as (e & ln & hn & He & Hln & Hhn & Heq).
    + apply Nat.ltb_lt; reflexivity.
    + discriminate.
    + reflexivity.
    + vm_compute in Hrun. injection Hrun as <-. vm_compute. reflexivity.
    + reflexivity.
    + discriminate.
    + exists rs', e, ln, hn. repeat split; assumption.
Defined.

(** ** The script: tables sorted, then the path resolved *)

Lemma topo_sorted rs :
  topo ((λ r, with_table r (sort_hops <$> routing_table r)) <$> rs) = topo rs.
Proof. unfold topo. rewrite <-list_fmap_compose. by apply list_fmap_ext. Qed.

Lemma script_tables_run rs :
  dense_ids rs → neighbors_in_range rs → no_empty_list rs →
  ∃ rs1 rs2, (setup_routing_tables rs).2 = Ok rs1 ∧ script_tables rs = Ok rs2 ∧
    topo rs1 = topo rs ∧ topo rs2 = topo rs ∧
    ∀ p d, (d < length rs)%nat →
      tbl rs1 p (Z.of_nat d) = column_of (graph rs) d !! p ∧
      tbl rs2 p (Z.of_nat d) = sort_hops <$> column_of (graph rs) d !! p.
Proof.
  intros Hdense Hrange Hne.
  destruct (setup_routing_tables_run rs Hdense Hrange) as (rs1 & Hrun & Ht & Hcol & Hframe).
  pose proof (setup_no_empty_list rs rs1 Hrange Hne Ht Hcol Hframe) as Hne1.
  eexists rs1, _. unfold script_tables. rewrite Hrun, bind_ret_l.
  split_and!; [done|by apply report_loop_run|done|by rewrite topo_sorted|].
  intros p d Hd.
  by rewrite tbl_sorted, (tbl_column rs rs1 p d (Hcol d Hd)).
Qed.

Lemma getitem_0 {A} (l : list A) x : head l = Some x → getitem l 0 = Ok x.
Proof.
  intros Hx. unfold getitem.
  rewrite py_pos_in_range by (destruct l; simplify_eq/=; lia).
  rewrite bind_ret_l. unfold obj. simpl. by rewrite <-head_lookup, Hx.
Qed.

Lemma next_hop_tbl rs dk p l h :
  tbl rs p dk = Some l → head l = Some h → next_hop rs dk (Z.of_nat p) = Ok h.1.
Proof.
  unfold tbl. intros Hl Hh.
  destruct (rs !! p) as [r|] eqn:Hr; simplify_eq/=.
  unfold next_hop, getitem.
  rewrite py_pos_in_range by (apply lookup_lt_Some in Hr; lia).
  rewrite bind_ret_l, Nat2Z.id. exc_step Hr.
  unfold first_hop. exc_step Hl. by rewrite (getitem_0 _ _ Hh).
Qed.

(** A call for two routers of the list, the source at position [s]: the
    guard prints nothing, and the walk is the loop started at the source
    with one more turn. *)
Lemma find_best_route_walk rs s src dest fuel :
  dense_ids rs → rs !! s = Some src → dest ∈ rs → id src ≠ id dest →
  find_best_route fuel rs src dest = ([], walk (S fuel) rs (id dest) (id src) []).
Proof.
  intros Hdense Hs Hdest Hne. unfold find_best_route.
  rewrite decide_False.
  2:{ intros [H|H]; [|done]. apply H. by eapply list_elem_of_lookup_2. }
  f_equal. simpl. rewrite decide_True by done.
  rewrite (dense_ids_lookup _ _ _ Hdense Hs).
  unfold getitem. rewrite py_pos_in_range by (apply lookup_lt_Some in Hs; lia).
  rewrite bind_ret_l, Nat2Z.id. by exc_step Hs.
Qed.

Section resolve.
Context (rs rs2 : list router) (d : nat).
Context (Hdense : dense_ids rs) (Hrange : neighbors_in_range rs).
Context (Hself : no_self_neighbor rs).
Context (Hcost : edge_costs (λ e, 0 < e ≤ infinity) rs).
Context (Hd : (d < length rs)%nat).
Context (Htbl : ∀ p, tbl rs2 p (Z.of_nat d) = sort_hops <$> column_of (graph rs) d !! p).

Lemma column_cost_nonneg p :
  cost (column_of (graph rs) d) p ≠ infinity → 0 ≤ cost (column_of (graph rs) d) p.
Proof.
  intros Hfin.
  destruct (column_of_sound _ _ (neighbors_in_range_graph _ Hrange) _ Hfin) as [vs Hvs].
  eapply route_cost_nonneg; [|exact Hvs].
  apply (edge_costs_graph (λ e, 0 ≤ e)).
  eapply edge_costs_impl; [|exact Hcost]. simpl. lia.
Qed.

(** From a router whose recorded cost is finite the loop reaches the
    destination along a chain of links of exactly that cost. *)
Lemma walk_shortest n :
  ∀ p path, (p < length rs)%nat →
    cost (column_of (graph rs) d) p ≠ infinity →
    (Z.to_nat (cost (column_of (graph rs) d) p) ≤ n)%nat →
    ∃ vs, walk (S n) rs2 (Z.of_nat d) (Z.of_nat p) path
            = Some (Ok (path ++ (Z.of_nat <$> vs))) ∧
          route (graph rs) d p vs (cost (column_of (graph rs) d) p).
Proof.
  pose proof (neighbors_in_range_graph _ Hrange) as Hrange'.
  pose proof (edge_costs_bounds _ Hcost) as Hcost'.
  pose proof (no_self_link _ d Hdense Hself) as Hself'.
  assert (d < length (graph rs))%nat as Hd' by by rewrite length_graph.
  induction n as [|n IH]; intros p path Hp Hfin Hn.
  all: destruct (decide (p = d)) as [->|Hpd].
  1,3: exists [d]; split;
    [simpl; by rewrite decide_False by (intros H; by apply H)
    |rewrite cost_column_of_self by done; constructor].
  all: destruct (column_of_last (graph rs) d p Hrange')
         as (l & h & Hl & Hh & Hc); [by rewrite length_graph|].
  all: rewrite Hc in Hfin.
  all: assert (Forall (Forall (λ n : Z * Z, n.2 ≤ infinity)) (graph rs)) as Hle
         by (apply (costs_le_infinity _ _ Hd' Hcost')).
  all: pose proof (column_of_sorted_head _ _ Hrange' Hd' p l h Hle Hl Hpd Hh Hfin) as Hhead.
  all: destruct (column_of_best_hop _ _ Hrange' Hd' p l h Hself' Hcost' Hl Hpd Hh Hfin)
         as (e & He & Heq).
  all: pose proof (nbrs_in_range _ Hrange' _ _ He) as Hin; simpl in Hin.
  all: assert (0 < e) as Hepos.
  1,3: apply edge_costs_graph in Hcost;
       pose proof (nbrs_Forall _ _ p Hcost) as HF; rewrite Forall_forall in HF;
       apply HF in He as He'; simpl in He'; lia.
  all: pose proof (cost_column_of_le _ _ Hrange' Hd' Hcost' p) as Hpinf.
  all: assert (cost (column_of (graph rs) d) (Z.to_nat h.1) ≠ infinity) as Hfin' by lia.
  all: pose proof (column_cost_nonneg _ Hfin') as Hnn.
  - lia.
  - destruct (IH (Z.to_nat h.1) (path ++ [Z.of_nat p])) as (vs & Hwalk & Hroute);
      [rewrite length_graph in Hin; lia|done|lia|].
    exists (p :: vs). split.
    + rewrite (walk_follows _ _ _ _ (h.1)).
      * rewrite Z2Nat.id in Hwalk by lia. rewrite Hwalk.
        by rewrite <-(assoc_L (++)).
      * split; [lia|]. eapply next_hop_tbl; [|done]. by rewrite Htbl, Hl.
    + rewrite Hc, Heq. econstructor; [|done].
      rewrite Z2Nat.id by lia. done.
Qed.
End resolve.

(** The walk on a store whose lists are the sorted columns of a
    well-formed topology: between two routers joined by a chain of links it
    follows a cheapest chain. *)
Lemma resolve_route rs rs2 s d src dest :
  dense_ids rs → neighbors_in_range rs → no_self_neighbor rs →
  edge_costs (λ e, 0 < e ∧ e * Z.of_nat (length rs) < infinity) rs →
  topo rs2 = topo rs →
  (∀ p d, (d < length rs)%nat →
     tbl rs2 p (Z.of_nat d) = sort_hops <$> column_of (graph rs) d !! p) →
  rs2 !! s = Some src → rs2 !! d = Some dest → s ≠ d → reaches (graph rs) s d →
  ∃ fuel vs w,
    find_best_route fuel rs2 src dest = ([], Some (Ok (Z.of_nat <$> vs))) ∧
    route (graph rs) d s vs w ∧
    ∀ vs' w', route (graph rs) d s vs' w' → w ≤ w'.
Proof.
  intros Hdense Hrange Hself Hcost Ht2 Htbl Hs Hdest Hsd Hreach.
  pose proof (topo_length _ _ Ht2) as Hlen.
  assert (s < length rs)%nat as Hslt by (apply lookup_lt_Some in Hs; lia).
  assert (d < length rs)%nat as Hdlt by (apply lookup_lt_Some in Hdest; lia).
  assert (dense_ids rs2) as Hdense2 by (eapply dense_ids_topo; [symmetry; exact Ht2|done]).
  pose proof (neighbors_in_range_graph _ Hrange) as Hrange'.
  assert (d < length (graph rs))%nat as Hd' by by rewrite length_graph.
  assert (edge_costs (λ e, 0 < e ≤ infinity) rs) as Hcost1.
  { eapply edge_costs_impl; [|exact Hcost]. simpl. intros e [He1 He2]. nia. }
  pose proof (edge_costs_bounds _ Hcost1) as Hcost'.
  assert (Forall (Forall (λ n : Z * Z,
    n.2 * Z.of_nat (length (graph rs)) < infinity)) (graph rs)) as Hbound.
  { rewrite length_graph. apply (edge_costs_graph (λ e, e * _ < infinity)).
    eapply edge_costs_impl; [|exact Hcost]. simpl. tauto. }
  pose proof (column_of_finite _ _ Hrange' Hd' Hcost' s Hbound Hreach) as Hfin.
  destruct (walk_shortest rs rs2 d Hdense Hrange Hself Hcost1 Hdlt
    (λ p, Htbl p d Hdlt)
    (Z.to_nat (cost (column_of (graph rs) d) s)) s []) as (vs & Hwalk & Hroute);
    [done|lia|done|].
  exists (Z.to_nat (cost (column_of (graph rs) d) s)), vs,
    (cost (column_of (graph rs) d) s).
  split_and!; [|done|].
  - rewrite (find_best_route_walk rs2 s); [|done|done|by eapply list_elem_of_lookup_2|].
    + rewrite (dense_ids_lookup _ _ _ Hdense2 Hs), (dense_ids_lookup _ _ _ Hdense2 Hdest).
      by rewrite Hwalk.
    + rewrite (dense_ids_lookup _ _ _ Hdense2 Hs), (dense_ids_lookup _ _ _ Hdense2 Hdest).
      lia.
  - intros vs' w' Hr'.
    eapply column_of_least_route; [done..| |exact Hr'].
    by apply no_self_link.
Qed.

(** X3.  End to end, as the script runs it: on a well-formed topology with
    positive costs below the infinity mark, after [setup_routing_tables] and
    the report loop, [find_best_route] between two different routers of the
    list joined by a chain of links prints nothing and returns: the path
    starts at the source, ends at the destination, follows links of the
    graph, and no chain of links between the two costs less. *)
Theorem find_best_route_shortest rs :
  dense_ids rs → neighbors_in_range rs → no_self_neighbor rs → no_empty_list rs →
  edge_costs (λ e, 0 < e ∧ e * Z.of_nat (length rs) < infinity) rs →
  ∃ rs2, script_tables rs = Ok rs2 ∧
    ∀ s d src dest, rs2 !! s = Some src → rs2 !! d = Some dest → s ≠ d →
      reaches (graph rs) s d →
      ∃ fuel vs w,
        find_best_route fuel rs2 src dest = ([], Some (Ok (Z.of_nat <$> vs))) ∧
        route (graph rs) d s vs w ∧
        ∀ vs' w', route (graph rs) d s vs' w' → w ≤ w'.
Proof.
  intros Hdense Hrange Hself Hne Hcost.
  destruct (script_tables_run rs Hdense Hrange Hne)
    as (rs1 & rs2 & _ & Hrun & _ & Ht2 & Htbl).
  exists rs2. split; [done|].
  intros s d src dest Hs Hdest Hsd Hreach.
  apply (resolve_route rs rs2 s d src dest); try done.
  intros p d' Hd'. by destruct (Htbl p d' Hd').
Qed.

Lemma find_best_route_shortest_witness :
  ∃ rs2 src dest fuel vs w, script_tables routers = Ok rs2 ∧
    find_best_route fuel rs2 src dest = ([], Some (Ok (Z.of_nat <$> vs))) ∧
    route (graph routers) 5 0 vs w.
Proof.
  destruct (find_best_route_shortest routers) as (rs2 & Hrun & Hroute).
  - exact routers_dense.
  - exact routers_in_range.
  - exact routers_no_self.
  - closed_check.
  - closed_check.
  - vm_compute in Hrun. injection Hrun as <-.
    edestruct (Hroute 0%nat 5%nat) as (fuel & vs & w & Hfind & Hr & _).
    + reflexivity.
    + reflexivity.
    + discriminate.
    + apply (rtc_l _ _ 1%nat); [exists 1; left|].
      apply (rtc_l _ _ 3%nat); [exists 3; do 2 right; left|].
      apply (rtc_l _ _ 5%nat); [exists 1; do 2 right; left|].
      apply rtc_refl.
    + eexists _, _, _, fuel, vs, w.
      split_and!; [vm_compute; reflexivity|exact Hfind|exact Hr].
Defined.

(** ** The resolver on tables the procedure made: no exception *)

Lemma next_hop_closed rs dk curr :
  table_closed rs dk → curr = -1 ∨ 0 ≤ curr < Z.of_nat (length rs) →
  ∃ next, next_hop rs dk curr = Ok next ∧
          (next = -1 ∨ 0 ≤ next < Z.of_nat (length rs)).
Proof.
  intros [Hne Hcl] Hcurr.
  assert (0 < length rs)%nat as Hlen by (destruct rs; simpl; [done|lia]).
  assert (∃ r, getitem rs curr = Ok r ∧ r ∈ rs) as (r & Hget & Hr).
  { unfold getitem, py_pos. destruct Hcurr as [->|Hin].
    - rewrite decide_False by lia. rewrite decide_True by lia.
      destruct (lookup_lt_is_Some_2 rs (Z.to_nat (Z.of_nat (length rs) + -1)))
        as [r Hr]; [lia|].
      exists r. rewrite bind_ret_l. split; [by apply obj_Ok|].
      by eapply list_elem_of_lookup_2.
    - rewrite decide_True by done.
      destruct (lookup_lt_is_Some_2 rs (Z.to_nat curr)) as [r Hr]; [lia|].
      exists r. rewrite bind_ret_l. split; [by apply obj_Ok|].
      by eapply list_elem_of_lookup_2. }
  destruct (Hcl r Hr) as (l & Hl & Hlne & Hids).
  destruct l as [|h l]; [done|].
  exists h.1. split.
  - unfold next_hop. rewrite Hget, bind_ret_l. unfold first_hop.
    exc_step Hl. by rewrite (getitem_0 (h :: l) h).
  - apply Hids. left.
Qed.

Lemma walk_never_raises rs dk fuel :
  table_closed rs dk →
  ∀ curr path e, curr = -1 ∨ 0 ≤ curr < Z.of_nat (length rs) →
    walk fuel rs dk curr path ≠ Some (Raise e).
Proof.
  intros Hcl. induction fuel as [|fuel IH]; intros curr path e Hcurr; [done|].
  simpl. case_decide; [|done].
  destruct (next_hop_closed rs dk curr Hcl Hcurr) as (next & Hnext & Hok).
  unfold next_hop in Hnext. rewrite Hnext. by apply IH.
Qed.

Lemma find_best_route_closed rs src dest fuel e :
  table_closed rs (id dest) → src ∈ rs →
  (find_best_route fuel rs src dest).2 ≠ Some (Raise e).
Proof.
  intros Hcl Hsrc. unfold find_best_route. simpl.
  destruct Hcl as [Hne Hall]. destruct (Hall src Hsrc) as (l & Hl & Hlne & Hids).
  destruct l as [|h l]; [done|].
  unfold first_hop. exc_step Hl. rewrite (getitem_0 (h :: l) h) by done.
  rewrite bind_ret_l. apply walk_never_raises; [done|]. apply Hids. left.
Qed.

Lemma table_closed_column rs rsx d (f : list hop → list hop) :
  neighbors_in_range rs → (d < length rs)%nat → topo rsx = topo rs →
  (∀ l, f l ≡ₚ l) →
  (∀ p, tbl rsx p (Z.of_nat d) = f <$> column_of (graph rs) d !! p) →
  table_closed rsx (Z.of_nat d).
Proof.
  intros Hrange Hd Ht Hf Htbl.
  pose proof (topo_length _ _ Ht) as Hlen.
  pose proof (neighbors_in_range_graph _ Hrange) as Hrange'.
  split; [intros ->; simpl in Hlen; lia|].
  intros r [p Hr]%list_elem_of_lookup_1.
  assert (p < length (graph rs))%nat as Hp
    by (rewrite length_graph; apply lookup_lt_Some in Hr; lia).
  destruct (column_of_lookup (graph rs) d p Hp) as [l Hl].
  pose proof (Htbl p) as Hp'. rewrite Hl in Hp'. unfold tbl in Hp'.
  rewrite Hr in Hp'. simpl in Hp'.
  exists (f l). split_and!; [done| |].
  - intros Hnil. pose proof (Hf l) as Hperm. rewrite Hnil in Hperm.
    apply Permutation_nil_l in Hperm. subst.
    apply (column_of_head _ _ Hrange') in Hl. unfold init_entry in Hl.
    by case_decide.
  - intros x Hx. rewrite (Hf l) in Hx. rewrite Hlen, <-(length_graph rs).
    eapply column_of_ids; [done|by rewrite length_graph|exact Hl|exact Hx].
Qed.

(** X4.  On the tables [setup_routing_tables] makes for a well-formed
    topology, sorted by the report loop or not, [find_best_route] between
    two routers of the list raises neither [KeyError] nor [IndexError]: it
    returns a path or goes on for ever. *)
Theorem find_best_route_never_raises rs :
  dense_ids rs → neighbors_in_range rs → no_empty_list rs →
  ∃ rs1 rs2, (setup_routing_tables rs).2 = Ok rs1 ∧ script_tables rs = Ok rs2 ∧
    ∀ src dest fuel e,
      (src ∈ rs1 → dest ∈ rs1 → (find_best_route fuel rs1 src dest).2 ≠ Some (Raise e)) ∧
      (src ∈ rs2 → dest ∈ rs2 → (find_best_route fuel rs2 src dest).2 ≠ Some (Raise e)).
Proof.
  intros Hdense Hrange Hne.
  destruct (script_tables_run rs Hdense Hrange Hne)
    as (rs1 & rs2 & Hrun1 & Hrun2 & Ht1 & Ht2 & Htbl).
  exists rs1, rs2. split_and!; [done..|].
  assert (∀ rsx (f : list hop → list hop) src dest fuel e,
    topo rsx = topo rs → (∀ l, f l ≡ₚ l) →
    (∀ p d, (d < length rs)%nat →
       tbl rsx p (Z.of_nat d) = f <$> column_of (graph rs) d !! p) →
    src ∈ rsx → dest ∈ rsx →
    (find_best_route fuel rsx src dest).2 ≠ Some (Raise e)) as Hany.
  { intros rsx f src dest fuel e Ht Hf Hx Hsrc [d Hdest]%list_elem_of_lookup_1.
    apply find_best_route_closed; [|done].
    assert (dense_ids rsx) as Hdx by (eapply dense_ids_topo; [symmetry; exact Ht|done]).
    rewrite (dense_ids_lookup _ _ _ Hdx Hdest).
    assert (d < length rs)%nat as Hd
      by (apply lookup_lt_Some in Hdest; rewrite (topo_length _ _ Ht) in Hdest; lia).
    eapply (table_closed_column rs rsx d f); eauto. }
  intros src dest fuel e. split.
  - apply (Hany rs1 (λ l, l)); [done|done|].
    intros p d Hd. destruct (Htbl p d Hd) as [-> _]. by rewrite option_fmap_id.
  - apply (Hany rs2 sort_hops); [done|apply sort_hops_perm|].
    intros p d Hd. by destruct (Htbl p d Hd) as [_ ->].
Qed.

Lemma find_best_route_never_raises_witness :
  ∃ rs1 r0 r1, (setup_routing_tables (isolated 3)).2 = Ok rs1 ∧
    rs1 !! 0%nat = Some r0 ∧ rs1 !! 1%nat = Some r1 ∧
    ∀ fuel e, (find_best_route fuel rs1 r0 r1).2 ≠ Some (Raise e).
Proof.
  destruct (find_best_route_never_raises (isolated 3))
    as (rs1 & rs2 & Hrun1 & _ & Hsafe).
  - reflexivity.
  - closed_check.
  - closed_check.
  - vm_compute in Hrun1. injection Hrun1 as <-.
    eexists _, _, _. split_and!; [vm_compute; reflexivity..|].
    intros fuel e. apply Hsafe; [left|right; left].
Defined.

(** ** The shape of a returned path *)

Lemma chain_avoids rs dk curr hops : chain rs dk curr hops → dk ∉ hops.
Proof.
  induction 1 as [|curr next hops [Hne _] _ IH].
  - apply not_elem_of_nil.
  - apply not_elem_of_cons. split; [by intros ->|done].
Qed.

(** X5.  Whatever the tables, the message of the guard is printed exactly
    when the source or the destination is not in the list, and a path that
    [find_best_route] returns starts with the id of the source, ends with
    the id of the destination, has at least two elements, and does not hold
    the id of the destination between its ends. *)
Theorem find_best_route_endpoints fuel rs src dest :
  ((find_best_route fuel rs src dest).1 = [] ↔ src ∈ rs ∧ dest ∈ rs) ∧
  ∀ path, (find_best_route fuel rs src dest).2 = Some (Ok path) →
    ∃ hops, path = id src :: hops ++ [id dest] ∧ (id dest ∉ hops) ∧
            (length hops < fuel)%nat.
Proof.
  unfold find_best_route. simpl. split.
  - case_decide as E; split; try done.
    + intros [??]. tauto.
    + intros _. destruct (decide (src ∈ rs)), (decide (dest ∈ rs)); tauto.
  - intros path. destruct (first_hop src (id dest)) as [c0|e]; [|done].
    intros (hops & Hch & Hlt & ->)%walk_returns.
    exists hops. split_and!; [done| |done]. by eapply chain_avoids.
Qed.

Lemma find_best_route_endpoints_witness :
  ∃ hops, [0; 1; 4; 3; 5] = 0 :: hops ++ [5] ∧ 5 ∉ hops.
Proof.
  destruct (find_best_route_endpoints 10 seed_tables
    (Router 0 [(1, 1); (2, 2)] {[ 5 := [(1, 4)] ]}) (Router 5 [] ∅)) as [_ Hpath].
  destruct (Hpath [0; 1; 4; 3; 5]) as (hops & Heq & Hnot & _).
  - vm_compute. reflexivity.
  - exists hops. split; [exact Heq|exact Hnot].
Defined.

(** ** A route from a router to itself *)

Lemma column_of_dest_hops nb d l x :
  Forall (Forall (in_range (length nb))) nb →
  column_of nb d !! d = Some l → x ∈ l → x.1 = Z.of_nat d.
Proof.
  intros Hrange. revert l x. unfold column_of.
  apply (col_relax_all_ind nb d
    (λ c, ∀ l x, c !! d = Some l → x ∈ l → x.1 = Z.of_nat d)).
  - intros c j n IH Hj _ _ _ l x. rewrite lookup_app_at, decide_False by done.
    apply IH.
  - intros l x Hl Hx.
    destruct (col_seeded_shape _ _ Hrange _ _ Hl) as (k & -> & _).
    unfold init_entry in Hx. rewrite decide_True in Hx by done.
    apply elem_of_app in Hx as [->%list_elem_of_singleton|Hx]; [done|].
    by apply elem_of_replicate_inv in Hx as ->.
Qed.

(** X6.  After [setup_routing_tables] on a well-formed topology, sorted by
    the report loop or not, the route from a router of the list to itself
    is its id twice. *)
Theorem find_best_route_to_self rs :
  dense_ids rs → neighbors_in_range rs → no_empty_list rs →
  ∃ rs1 rs2, (setup_routing_tables rs).2 = Ok rs1 ∧ script_tables rs = Ok rs2 ∧
    ∀ r fuel,
      (r ∈ rs1 → find_best_route (S fuel) rs1 r r = ([], Some (Ok [id r; id r]))) ∧
      (r ∈ rs2 → find_best_route (S fuel) rs2 r r = ([], Some (Ok [id r; id r]))).
Proof.
  intros Hdense Hrange Hne.
  destruct (script_tables_run rs Hdense Hrange Hne)
    as (rs1 & rs2 & Hrun1 & Hrun2 & Ht1 & Ht2 & Htbl).
  exists rs1, rs2. split_and!; [done..|].
  pose proof (neighbors_in_range_graph _ Hrange) as Hrange'.
  assert (∀ rsx (f : list hop → list hop) r fuel,
    topo rsx = topo rs → (∀ l, f l ≡ₚ l) →
    (∀ p d, (d < length rs)%nat →
       tbl rsx p (Z.of_nat d) = f <$> column_of (graph rs) d !! p) →
    r ∈ rsx →
    find_best_route (S fuel) rsx r r = ([], Some (Ok [id r; id r]))) as Hany.
  { intros rsx f r fuel Ht Hf Hx [d Hr]%list_elem_of_lookup_1.
    assert (dense_ids rsx) as Hdx by (eapply dense_ids_topo; [symmetry; exact Ht|done]).
    assert (d < length rs)%nat as Hd
      by (apply lookup_lt_Some in Hr; rewrite (topo_length _ _ Ht) in Hr; lia).
    assert (r ∈ rsx) as Hin by by eapply list_elem_of_lookup_2.
    unfold find_best_route. rewrite decide_False by tauto. f_equal.
    rewrite (dense_ids_lookup _ _ _ Hdx Hr).
    destruct (column_of_lookup (graph rs) d d) as [l Hl]; [by rewrite length_graph|].
    pose proof (Hx d d Hd) as Hrd. rewrite Hl in Hrd. unfold tbl in Hrd.
    rewrite Hr in Hrd. simpl in Hrd.
    destruct (f l) as [|h l'] eqn:Hfl.
    { pose proof (Hf l) as Hp. rewrite Hfl in Hp. apply Permutation_nil_l in Hp. subst.
      apply (column_of_head _ _ Hrange') in Hl. unfold init_entry in Hl.
      by case_decide. }
    assert (h.1 = Z.of_nat d) as Hh.
    { eapply (column_of_dest_hops _ _ _ _ Hrange' Hl).
      rewrite <-(Hf l), Hfl. left. }
    unfold first_hop. exc_step Hrd. rewrite (getitem_0 (h :: l') h) by done.
    rewrite bind_ret_l, Hh. simpl. rewrite decide_False; [done|].
    intros H. by apply H. }
  intros r fuel. split.
  - apply (Hany rs1 (λ l, l)); [done|done|].
    intros p d Hd. destruct (Htbl p d Hd) as [-> _]. by rewrite option_fmap_id.
  - apply (Hany rs2 sort_hops); [done|apply sort_hops_perm|].
    intros p d Hd. by destruct (Htbl p d Hd) as [_ ->].
Qed.

Lemma find_best_route_to_self_witness :
  ∃ rs1 r, (setup_routing_tables routers).2 = Ok rs1 ∧ rs1 !! 2%nat = Some r ∧
    find_best_route 1 rs1 r r = ([], Some (Ok [2; 2])).
Proof.
  destruct (find_best_route_to_self routers) as (rs1 & rs2 & Hrun1 & _ & Hself).
  - exact routers_dense.
  - exact routers_in_range.
  - closed_check.
  - vm_compute in Hrun1. injection Hrun1 as <-.
    eexists _, _. split_and!; [vm_compute; reflexivity..|].
    refine (proj1 (Hself _ 0%nat) _). do 2 right. left.
Defined.

(** ** What the procedure leaves alone *)

(** X7.  [setup_routing_tables] writes routing tables only: on a
    well-formed topology it keeps the number of routers, their ids and
    their neighbour lists, gives every router an entry for the id of every
    router, and leaves every entry under a key that is no router's id as it
    was (a run does not clear the tables). *)
Theorem setup_keeps_graph rs :
  dense_ids rs → neighbors_in_range rs →
  ∃ rs', (setup_routing_tables rs).2 = Ok rs' ∧
    length rs' = length rs ∧
    (∀ p r, rs !! p = Some r →
       ∃ r', rs' !! p = Some r' ∧ id r' = id r ∧ nieghbors r' = nieghbors r) ∧
    (∀ p d, (p < length rs)%nat → (d < length rs)%nat →
       is_Some (tbl rs' p (Z.of_nat d))) ∧
    (∀ p k, ¬ (0 ≤ k < Z.of_nat (length rs)) → tbl rs' p k = tbl rs p k).
Proof.
  intros Hdense Hrange.
  destruct (setup_routing_tables_run rs Hdense Hrange) as (rs' & Hrun & Ht & Hcol & Hframe).
  exists rs'. split_and!; [done|by apply topo_length| | |].
  - intros p r Hr. symmetry in Ht. by apply (topo_lookup _ _ _ _ Ht Hr).
  - intros p d Hp Hd. rewrite (tbl_column rs rs' p d (Hcol d Hd)).
    apply column_of_lookup. by rewrite length_graph.
  - intros p k Hk. by apply tbl_view_eq, Hframe.
Qed.

Lemma setup_keeps_graph_witness :
  ∃ rs', (setup_routing_tables [Router 0 [] {[ 7 := [(3, 1)] ]}]).2 = Ok rs' ∧
    tbl rs' 0 7 = Some [(3, 1)] ∧ is_Some (tbl rs' 0 0).
Proof.
  destruct (setup_keeps_graph [Router 0 [] {[ 7 := [(3, 1)] ]}])
    as (rs' & Hrun & _ & _ & Hkeys & Hframe).
  - reflexivity.
  - closed_check.
  - exists rs'. split_and!; [exact Hrun| |].
    + rewrite (Hframe 0%nat 7); [reflexivity|simpl; lia].
    + apply (Hkeys 0%nat 0%nat); simpl; lia.
Defined.

(** ** The order the procedure leaves *)

Lemma descending_snoc l h x :
  descending l → last l = Some h → x.2 ≤ h.2 → descending (l ++ [x]).
Proof.
  intros Hs Hh Hle. apply Sorted_snoc; [done|].
  apply last_Some in Hh as [l' ->]. by constructor.
Qed.

Lemma descending_replicate (h x : hop) k :
  x.2 ≤ h.2 → descending (h :: replicate k x).
Proof.
  intros Hle. induction k as [|k IH].
  - repeat constructor.
  - rewrite replicate_S_end, app_comm_cons.
    destruct k as [|k].
    + simpl. repeat constructor. done.
    + eapply descending_snoc; [done| |reflexivity].
      rewrite replicate_S_end, app_comm_cons. apply last_snoc.
Qed.

Lemma column_of_descending nb d p l :
  Forall (Forall (in_range (length nb))) nb →
  Forall (Forall (λ n : Z * Z, n.2 ≤ infinity)) nb →
  column_of nb d !! p = Some l → p ≠ d → descending l.
Proof.
  intros Hrange Hcost. revert p l. unfold column_of.
  apply (col_relax_all_ind nb d
    (λ c, ∀ p l, c !! p = Some l → p ≠ d → descending l)).
  - intros c j n IH Hj _ _ Hlt p l. rewrite lookup_app_at.
    case_decide as E; [|by apply IH].
    subst p. destruct (c !! j) as [l0|] eqn:El0; [|done].
    intros [= <-] _.
    destruct (last l0) as [h|] eqn:Hh.
    + eapply descending_snoc; [by eapply IH|done|].
      rewrite (cost_lookup _ _ _ _ El0 Hh) in Hlt. simpl. lia.
    + apply last_None in Hh. subst. repeat constructor.
  - intros p l Hl Hp.
    destruct (col_seeded_shape _ _ Hrange _ _ Hl) as (k & -> & _).
    unfold init_entry. rewrite decide_False by done.
    apply descending_replicate. simpl.
    apply find_cost_le. by apply nbrs_Forall.
Qed.

(** X8.  On a well-formed topology whose edge costs do not exceed the
    infinity mark, the list [setup_routing_tables] leaves for a router
    toward another one starts with the sentinel [(-1, 10^10)] and its costs
    never go up from one element to the next: it is in descending order. *)
Theorem setup_lists_descending rs :
  dense_ids rs → neighbors_in_range rs → edge_costs (λ e, e ≤ infinity) rs →
  ∃ rs', (setup_routing_tables rs).2 = Ok rs' ∧
    ∀ r d, (r < length rs)%nat → (d < length rs)%nat → r ≠ d →
      ∃ l, tbl rs' r (Z.of_nat d) = Some l ∧ head l = Some (-1, 10 ^ 10) ∧
           descending l.
Proof.
  intros Hdense Hrange Hcost.
  destruct (setup_routing_tables_run rs Hdense Hrange) as (rs' & Hrun & _ & Hcol & _).
  exists rs'. split; [done|].
  intros r d Hr Hd Hne.
  rewrite (tbl_column rs rs' r d (Hcol d Hd)).
  destruct (column_of_lookup (graph rs) d r) as [l Hl]; [by rewrite length_graph|].
  apply neighbors_in_range_graph in Hrange. apply edge_costs_graph in Hcost.
  exists l. split_and!; [done| |by eapply column_of_descending].
  rewrite (column_of_head _ _ Hrange _ _ Hl). unfold init_entry.
  by rewrite decide_False.
Qed.

Lemma setup_lists_descending_witness :
  ∃ rs' l, (setup_routing_tables routers).2 = Ok rs' ∧
    tbl rs' 2 5 = Some l ∧ head l = Some (-1, 10 ^ 10) ∧ descending l.
Proof.
  destruct (setup_lists_descending routers) as (rs' & Hrun & Hdesc).
  - exact routers_dense.
  - exact routers_in_range.
  - closed_check.
  - destruct (Hdesc 2%nat 5%nat) as (l & Hl & Hh & Hd);
      [apply Nat.ltb_lt; reflexivity..|discriminate|].
    exists rs', l. repeat split; assumption.
Defined.

(** ** The report loop on any tables *)

Lemma report_loop_raises rs :
  ¬ no_empty_list rs → report_loop rs = Raise IndexError.
Proof.
  unfold no_empty_list. induction rs as [|r rs IH]; intros Hne.
  - destruct Hne. constructor.
  - simpl. unfold report_router. case_decide as Hr; [|done].
    rewrite bind_ret_l, IH; [done|].
    intros Hrs. apply Hne. by constructor.
Qed.

Lemma insert_hop_filter c h l :
  filter (λ x : hop, x.2 = c) (insert_hop h l) = filter (λ x : hop, x.2 = c) (h :: l).
Proof.
  induction l as [|y l IH]; simpl; [done|].
  case_decide as Hle; [done|].
  rewrite !filter_cons in *. rewrite IH.
  destruct (decide (h.2 = c)), (decide (y.2 = c)); try done. lia.
Qed.

Lemma sort_hops_filter c l :
  filter (λ x : hop, x.2 = c) (sort_hops l) = filter (λ x : hop, x.2 = c) l.
Proof.
  induction l as [|h l IH]; simpl; [done|].
  rewrite insert_hop_filter, !filter_cons. by rewrite IH.
Qed.

Lemma sort_hops_ascending_id l : ascending l → sort_hops l = l.
Proof.
  unfold ascending. induction 1 as [|x l Hs IH Hhd]; simpl; [done|].
  rewrite IH. destruct Hhd as [|y l Hxy]; simpl; [done|].
  by rewrite decide_True.
Qed.

(** X9.  The report loop returns exactly when no table holds an empty
    list, and raises [IndexError] otherwise.  When it returns it has kept
    the routers, their ids, neighbour lists and table keys, and every list
    is a permutation of what it was, ascending by cost, in which entries of
    equal cost have kept their order. *)
Theorem report_loop_sorts_stably rs :
  (¬ no_empty_list rs → report_loop rs = Raise IndexError) ∧
  (no_empty_list rs →
     ∃ rs', report_loop rs = Ok rs' ∧ topo rs' = topo rs ∧
       ∀ p k,
         (tbl rs p k = None → tbl rs' p k = None) ∧
         ∀ l, tbl rs p k = Some l →
           ∃ l', tbl rs' p k = Some l' ∧ l' ≡ₚ l ∧ ascending l' ∧
             ∀ c, filter (λ x : hop, x.2 = c) l' = filter (λ x : hop, x.2 = c) l).
Proof.
  split; [apply report_loop_raises|].
  intros Hne. eexists. split_and!; [by apply report_loop_run|apply topo_sorted|].
  intros p k. rewrite tbl_sorted. split.
  - by intros ->.
  - intros l ->. exists (sort_hops l).
    split_and!; [done|apply sort_hops_perm|apply sort_hops_ascending|].
    intros c. apply sort_hops_filter.
Qed.

Lemma report_loop_sorts_stably_witness :
  report_loop [Router 0 [] {[ 1 := [] ]}] = Raise IndexError ∧
  ∃ rs', report_loop [Router 0 [] {[ 1 := [(7, 2); (-1, 9); (8, 2)] ]}] = Ok rs' ∧
    tbl rs' 0 1 = Some [(7, 2); (8, 2); (-1, 9)].
Proof.
  split.
  - apply (proj1 (report_loop_sorts_stably _)).
    unfold no_empty_list. intros H. apply Forall_inv in H.
    by apply (map_Forall_lookup_1 _ _ 1 []) in H.
  - destruct (proj2 (report_loop_sorts_stably
      [Router 0 [] {[ 1 := [(7, 2); (-1, 9); (8, 2)] ]}])) as (rs' & Hrun & _ & _).
    + closed_check.
    + exists rs'. split; [exact Hrun|].
      vm_compute in Hrun. injection Hrun as <-. vm_compute. reflexivity.
Defined.

(** X10.  The report loop is idempotent: run on the store it returned, it
    returns that store again. *)
Theorem report_loop_idempotent rs rs' :
  report_loop rs = Ok rs' → report_loop rs' = Ok rs'.
Proof.
  intros Hrun.
  destruct (decide (no_empty_list rs)) as [Hne|Hne];
    [|by rewrite (report_loop_raises _ Hne) in Hrun].
  rewrite (report_loop_run _ Hne) in Hrun. injection Hrun as <-.
  rewrite report_loop_run.
  - rewrite <-list_fmap_compose. apply (f_equal Ok), list_fmap_ext.
    intros _ r _. unfold with_table. simpl. apply (f_equal (Router _ _)).
    rewrite <-map_fmap_compose. apply map_fmap_ext.
    intros k l _. simpl. apply sort_hops_ascending_id, sort_hops_ascending.
  - unfold no_empty_list in *. apply Forall_fmap. eapply Forall_impl; [exact Hne|].
    intros r Hr. simpl. apply map_Forall_fmap. eapply map_Forall_impl; [exact Hr|].
    intros k l. simpl. apply sort_hops_nonempty.
Qed.

Lemma report_loop_idempotent_witness :
  ∃ rs1 rs2, (setup_routing_tables routers).2 = Ok rs1 ∧
    report_loop rs1 = Ok rs2 ∧ report_loop rs2 = Ok rs2.
Proof.
  eexists _, _. split; [vm_compute; reflexivity|].
  match goal with |- report_loop ?r1 = Ok ?r2 ∧ _ =>
    cut (report_loop r1 = Ok r2);
      [intros H; split; [exact H|exact (report_loop_idempotent _ _ H)]
      |vm_compute; reflexivity]
  end.
Defined.

(** * The drawing and the highlighted path *)

(** ** What the drawing reads *)

Lemma string_length_app s1 s2 :
  String.length (s1 +:+ s2) = (String.length s1 + String.length s2)%nat.
Proof.
  induction s1 as [|a s1 IH]; [done|].
  change (String a s1 +:+ s2) with (String a (s1 +:+ s2)). simpl. by rewrite IH.
Qed.

Lemma draw_link_id hl r r' : id r = id r' → draw_link hl r = draw_link hl r'.
Proof. unfold draw_link. by intros ->. Qed.

Lemma draw_routers_topo hl rs rs' c :
  topo rs = topo rs' →
  foldl (λ content r, foldl (draw_link hl r) content (nieghbors r)) c rs
  = foldl (λ content r, foldl (draw_link hl r) content (nieghbors r)) c rs'.
Proof.
  revert rs' c. induction rs as [|r rs IH]; intros [|r' rs'] c Ht; simplify_eq/=; [done|].
  rewrite (draw_link_id hl r r') by done.
  replace (nieghbors r) with (nieghbors r') by done. by apply IH.
Qed.

Lemma represent_network_topo rs rs' ms hl :
  topo rs = topo rs' → represent_network (rs, ms) hl = represent_network (rs', ms) hl.
Proof.
  intros Ht. unfold represent_network. simpl.
  rewrite (topo_length _ _ Ht). case_decide; [done|].
  by rewrite (draw_routers_topo hl rs rs' _ Ht).
Qed.

Lemma report_loop_topo rs rs' : report_loop rs = Ok rs' → topo rs' = topo rs.
Proof.
  intros Hrun.
  destruct (decide (no_empty_list rs)) as [Hne|Hne];
    [|by rewrite (report_loop_raises _ Hne) in Hrun].
  rewrite (report_loop_run _ Hne) in Hrun. injection Hrun as <-. apply topo_sorted.
Qed.

(** X11.  [represent_network] reads the ids and the neighbour lists only: two
    lists of routers with the same ids and neighbour lists give the same
    messages and the same file.  So the drawing of a well-formed topology is
    the same before [setup_routing_tables], after it, and after the report
    loop. *)
Theorem represent_network_reads_graph rs ms hl :
  (∀ rs', topo rs' = topo rs →
     represent_network (rs', ms) hl = represent_network (rs, ms) hl) ∧
  (dense_ids rs → neighbors_in_range rs →
     ∃ rs1, (setup_routing_tables rs).2 = Ok rs1 ∧
       represent_network (rs1, ms) hl = represent_network (rs, ms) hl ∧
       ∀ rs2, report_loop rs1 = Ok rs2 →
         represent_network (rs2, ms) hl = represent_network (rs, ms) hl).
Proof.
  split; [intros rs'; apply represent_network_topo|].
  intros Hdense Hrange.
  destruct (setup_routing_tables_run rs Hdense Hrange) as (rs1 & Hrun & Ht & _).
  exists rs1. split_and!; [done|by apply represent_network_topo|].
  intros rs2 Ht2%report_loop_topo. apply represent_network_topo. congruence.
Qed.

Lemma represent_network_reads_graph_witness :
  ∃ rs1 rs2, (setup_routing_tables routers).2 = Ok rs1 ∧ report_loop rs1 = Ok rs2 ∧
    represent_network (rs2, []) [(0, 1)] = represent_network (routers, []) [(0, 1)].
Proof.
  destruct (proj2 (represent_network_reads_graph routers [] [(0, 1)]))
    as (rs1 & Hrun & _ & Hsame).
  - exact routers_dense.
  - exact routers_in_range.
  - vm_compute in Hrun. injection Hrun as <-.
    eexists _, _. split; [vm_compute; reflexivity|].
    match goal with |- report_loop ?r1 = Ok ?r2 ∧ _ =>
      cut (report_loop r1 = Ok r2);
        [intros H; split; [exact H|exact (Hsame _ H)]
        |vm_compute; reflexivity]
    end.
Defined.

(** ** The highlight list *)

Lemma draw_link_highlight hl hl' r c n :
  ((id r, n.1) ∈ hl ↔ (id r, n.1) ∈ hl') → draw_link hl r c n = draw_link hl' r c n.
Proof.
  intros H. unfold draw_link.
  destruct (decide ((id r, n.1) ∈ hl)), (decide ((id r, n.1) ∈ hl')); tauto.
Qed.

Lemma draw_links_highlight hl hl' r ns c :
  (∀ n, n ∈ ns → (id r, n.1) ∈ hl ↔ (id r, n.1) ∈ hl') →
  foldl (draw_link hl r) c ns = foldl (draw_link hl' r) c ns.
Proof.
  revert c. induction ns as [|n ns IH]; intros c H; simpl; [done|].
  rewrite (draw_link_highlight hl hl') by (apply H; left).
  apply IH. intros n' Hn'. apply H. by right.
Qed.

Lemma draw_routers_highlight hl hl' rs c :
  (∀ r n, r ∈ rs → n ∈ nieghbors r → (id r, n.1) ∈ hl ↔ (id r, n.1) ∈ hl') →
  foldl (λ content r, foldl (draw_link hl r) content (nieghbors r)) c rs
  = foldl (λ content r, foldl (draw_link hl' r) content (nieghbors r)) c rs.
Proof.
  revert c. induction rs as [|r rs IH]; intros c H; simpl; [done|].
  rewrite (draw_links_highlight hl hl') by (intros n; apply H; left).
  apply IH. intros r' n Hr'. apply H. by right.
Qed.

Lemma length_draw_link hl r c c' k n :
  String.length c = (String.length c' + k)%nat →
  String.length (draw_link hl r c n)
  = (String.length (draw_link [] r c' n)
     + (k + 15 * length (filter (λ n : Z * Z, (id r, n.1) ∈ hl) [n])))%nat.
Proof.
  intros Hc. unfold draw_link.
  rewrite (decide_False (P := _ ∈ [])) by apply not_elem_of_nil.
  rewrite filter_cons, filter_nil.
  case_decide; rewrite !string_length_app, Hc; simpl; lia.
Qed.

Lemma length_draw_links hl r ns c c' k :
  String.length c = (String.length c' + k)%nat →
  String.length (foldl (draw_link hl r) c ns)
  = (String.length (foldl (draw_link [] r) c' ns)
     + (k + 15 * length (filter (λ n : Z * Z, (id r, n.1) ∈ hl) ns)))%nat.
Proof.
  revert c c' k. induction ns as [|n ns IH]; intros c c' k Hc; simpl.
  - rewrite Hc. lia.
  - rewrite (IH _ (draw_link [] r c' n) _ (length_draw_link hl r c c' k n Hc)).
    rewrite !filter_cons, filter_nil. case_decide; simpl; lia.
Qed.

Lemma length_draw_routers hl rs c c' k :
  String.length c = (String.length c' + k)%nat →
  String.length (foldl (λ content r, foldl (draw_link hl r) content (nieghbors r)) c rs)
  = (String.length
       (foldl (λ content r, foldl (draw_link [] r) content (nieghbors r)) c' rs)
     + (k + 15 * highlighted hl rs))%nat.
Proof.
  revert c c' k. induction rs as [|r rs IH]; intros c c' k Hc; simpl.
  - rewrite Hc. unfold highlighted. simpl. lia.
  - rewrite (IH _ (foldl (draw_link [] r) c' (nieghbors r)) _
      (length_draw_links hl r (nieghbors r) c c' k Hc)).
    unfold highlighted. simpl. lia.
Qed.

Lemma length_draw_machine_links m ns c c' k :
  String.length c = (String.length c' + k)%nat →
  String.length (foldl (draw_machine_link m) c ns)
  = (String.length (foldl (draw_machine_link m) c' ns) + k)%nat.
Proof.
  revert c c'. induction ns as [|n ns IH]; intros c c' Hc; simpl; [done|].
  apply IH. unfold draw_machine_link. rewrite !string_length_app, Hc. lia.
Qed.

Lemma length_draw_machines ms c c' k :
  String.length c = (String.length c' + k)%nat →
  String.length
    (foldl (λ content m, foldl (draw_machine_link m) content (machine.nieghbors m)) c ms)
  = (String.length
       (foldl (λ content m, foldl (draw_machine_link m) content (machine.nieghbors m)) c' ms)
     + k)%nat.
Proof.
  revert c c'. induction ms as [|m ms IH]; intros c c' Hc; simpl; [done|].
  by apply IH, length_draw_machine_links.
Qed.

Lemma represent_network_length rs ms hl :
  String.length (represent_network (rs, ms) hl).2
  = (String.length (represent_network (rs, ms) []).2 + 15 * highlighted hl rs)%nat.
Proof.
  unfold represent_network. simpl. case_decide as Hlen.
  - apply length_zero_iff_nil in Hlen as ->. done.
  - cbn [snd]. rewrite !string_length_app.
    match goal with |- context [foldl _ ?c rs] =>
      pose proof (length_draw_routers hl rs c c 0 (eq_sym (Nat.add_0_r _))) as H1
    end.
    pose proof (length_draw_machines ms _ _ _ H1) as H2. lia.
Qed.

Lemma highlighted_link hl rs r n :
  r ∈ rs → n ∈ nieghbors r → (id r, n.1) ∈ hl → (1 ≤ highlighted hl rs)%nat.
Proof.
  intros Hr Hn Hhl. unfold highlighted.
  etrans; [|apply (sum_list_with_in _ _ _ Hr)]. simpl.
  assert (n ∈ filter (λ n : Z * Z, (id r, n.1) ∈ hl) (nieghbors r)) as H
    by by apply list_elem_of_filter.
  destruct (filter _ (nieghbors r)); [by apply elem_of_nil in H|simpl; lia].
Qed.

Lemma highlighted_none hl rs :
  highlighted hl rs = 0%nat →
  ∀ r n, r ∈ rs → n ∈ nieghbors r → (id r, n.1) ∉ hl.
Proof.
  intros H r n Hr Hn Hhl. pose proof (highlighted_link _ _ _ _ Hr Hn Hhl). lia.
Qed.

(** X12.  The message is printed exactly when the list of routers is blank,
    and the file is then left empty.  The second argument matters only
    through the links it names: two lists that hold the same pairs
    [(id r, n)], [n] a neighbour of [r], give the same file; each neighbour
    entry whose pair is in the list makes the file fifteen characters
    longer, and a list that names no link gives the file of the plain
    drawing. *)
Theorem represent_network_highlight rs ms hl :
  ((represent_network (rs, ms) hl).1 = [] ↔ rs ≠ []) ∧
  (rs = [] → represent_network (rs, ms) hl = ([blank_network_message], "")) ∧
  (∀ hl',
     (∀ r n, r ∈ rs → n ∈ nieghbors r → (id r, n.1) ∈ hl ↔ (id r, n.1) ∈ hl') →
     represent_network (rs, ms) hl = represent_network (rs, ms) hl') ∧
  String.length (represent_network (rs, ms) hl).2
    = (String.length (represent_network (rs, ms) []).2 + 15 * highlighted hl rs)%nat ∧
  (highlighted hl rs = 0%nat ↔
     represent_network (rs, ms) hl = represent_network (rs, ms) []).
Proof.
  assert (∀ hl',
    (∀ r n, r ∈ rs → n ∈ nieghbors r → (id r, n.1) ∈ hl ↔ (id r, n.1) ∈ hl') →
    represent_network (rs, ms) hl = represent_network (rs, ms) hl') as Hsame.
  { intros hl' H. unfold represent_network. simpl. case_decide; [done|].
    by rewrite (draw_routers_highlight hl hl'). }
  split_and!; [| |done|apply represent_network_length|].
  - unfold represent_network. simpl. case_decide as Hlen; simpl.
    + apply length_zero_iff_nil in Hlen. split; [done|]. by intros [].
    + split; [|done]. intros _ ->. by apply Hlen.
  - by intros ->.
  - split.
    + intros H0. apply Hsame. intros r n Hr Hn. split.
      * intros Hhl. by destruct (highlighted_none _ _ H0 _ _ Hr Hn).
      * by intros ?%elem_of_nil.
    + intros Heq. pose proof (represent_network_length rs ms hl) as Hl.
      rewrite Heq in Hl. lia.
Qed.

Lemma represent_network_highlight_witness :
  represent_network (routers, []) [(0, -1); (-1, 5)] = represent_network (routers, []) [] ∧
  represent_network ([], [machine.Machine 0 [1]]) [(0, 1)] = ([blank_network_message], "").
Proof.
  pose proof (represent_network_highlight routers [] [(0, -1); (-1, 5)])
    as (_ & _ & _ & _ & Hnone).
  pose proof (represent_network_highlight [] [machine.Machine 0 [1]] [(0, 1)])
    as (_ & Hblank & _).
  split.
  - apply (proj1 Hnone). vm_compute. reflexivity.
  - apply Hblank. reflexivity.
Defined.

(** ** The steps of a path *)

Lemma getitem_lookup {A} (l : list A) (i : nat) x :
  l !! i = Some x → getitem l (Z.of_nat i) = Ok x.
Proof.
  intros Hx. unfold getitem.
  rewrite py_pos_in_range by (apply lookup_lt_Some in Hx; lia).
  rewrite bind_ret_l, Nat2Z.id. by apply obj_Ok.
Qed.

Lemma steps_loop (path : list Z) m k acc :
  (k + m < length path)%nat ∨ m = 0%nat →
  for_each (seq k m)
    (λ i steps,
       a ← getitem path (Z.of_nat i);
       b ← getitem path (Z.of_nat i + 1);
       Ok (steps ++ [(a, b)])) acc
  = Ok (acc ++ take m (drop k (zip path (drop 1 path)))).
Proof.
  revert k acc. induction m as [|m IH]; intros k acc Hk; simpl.
  - by rewrite take_0, app_nil_r.
  - destruct Hk as [Hk|?]; [|done].
    destruct (lookup_lt_is_Some_2 path k) as [a Ha]; [lia|].
    destruct (lookup_lt_is_Some_2 path (S k)) as [b Hb]; [lia|].
    rewrite (getitem_lookup _ _ _ Ha), bind_ret_l.
    replace (Z.of_nat k + 1) with (Z.of_nat (S k)) by lia.
    rewrite (getitem_lookup _ _ _ Hb), bind_ret_l.
    rewrite bind_ret_l, IH by lia.
    assert (zip path (drop 1 path) !! k = Some (a, b)) as Hz.
    { rewrite lookup_zip_with, Ha. simpl. rewrite lookup_drop.
      change (1 + k)%nat with (S k). by rewrite Hb. }
    rewrite (drop_S _ _ _ Hz). simpl. by rewrite <-app_assoc.
Qed.

Lemma steps_run path : steps path = Ok (zip path (drop 1 path)).
Proof.
  unfold steps. rewrite steps_loop by lia. simpl. f_equal.
  rewrite drop_0. apply take_ge.
  rewrite length_zip_with, length_drop. lia.
Qed.

(** X13.  The loop that builds the steps never raises, whatever the path:
    both indices stay inside the list.  It gives one step less than the
    path has elements (none for an empty path), and the steps are the
    pairs of consecutive elements of the path, in order. *)
Theorem steps_consecutive path :
  ∃ st, steps path = Ok st ∧ length st = (length path - 1)%nat ∧
    ∀ i a b, st !! i = Some (a, b) ↔ path !! i = Some a ∧ path !! S i = Some b.
Proof.
  exists (zip path (drop 1 path)). split_and!; [apply steps_run| |].
  - rewrite length_zip_with, length_drop. lia.
  - intros i a b. rewrite lookup_zip_with, lookup_drop.
    change (1 + i)%nat with (S i).
    destruct (path !! i) as [a'|], (path !! S i) as [b'|]; simpl;
      split; try done; intros; simplify_eq; try done; by destruct_and!; simplify_eq.
Qed.

Lemma steps_consecutive_witness :
  ∃ st, steps [0; 1; 4; 3; 5] = Ok st ∧ st !! 2%nat = Some (4, 3).
Proof.
  destruct (steps_consecutive [0; 1; 4; 3; 5]) as (st & Hrun & _ & Hst).
  exists st. split; [exact Hrun|]. apply Hst. split; reflexivity.
Defined.

(** ** The path the script highlights *)

Lemma route_links nb d p vs w :
  route nb d p vs w →
  ∀ i a b, vs !! i = Some a → vs !! S i = Some b → ∃ e, (Z.of_nat b, e) ∈ nbrs nb a.
Proof.
  induction 1 as [|p n e vs w Hn Hr IH]; intros i a b Ha Hb.
  - by destruct i.
  - destruct i as [|i]; simplify_eq/=.
    + apply route_head in Hr. rewrite head_lookup in Hr. simplify_eq. eauto.
    + by eapply IH.
Qed.

(** With positive costs, a route that visits a router twice is not a
    cheapest one. *)
Lemma route_dup_shorter nb d p vs w :
  Forall (Forall (λ n : Z * Z, 0 < n.2)) nb →
  route nb d p vs w → ¬ NoDup vs → ∃ vs' w', route nb d p vs' w' ∧ w' < w.
Proof.
  intros Hpos.
  assert (Forall (Forall (λ n : Z * Z, 0 ≤ n.2)) nb) as Hpos'.
  { eapply Forall_impl; [exact Hpos|]. intros l Hl.
    eapply Forall_impl; [exact Hl|]. simpl. lia. }
  induction 1 as [|p n e vs w Hn Hr IH]; intros Hdup.
  - destruct Hdup. apply NoDup_singleton.
  - pose proof (nbrs_Forall _ _ p Hpos) as H. rewrite Forall_forall in H.
    apply H in Hn as He. simpl in He.
    destruct (decide (p ∈ vs)) as [Hin|Hnotin].
    + destruct (route_from _ _ _ _ _ p Hpos' Hr Hin) as (vs' & w' & Hr' & Hle & _).
      exists vs', w'. split; [done|lia].
    + destruct IH as (vs' & w' & Hr' & Hlt).
      { intros Hnd. apply Hdup. by apply NoDup_cons. }
      exists (p :: vs'), (e + w'). split; [by econstructor|lia].
Qed.

Lemma elem_of_consecutive {A} (l : list A) a b :
  (a, b) ∈ zip l (drop 1 l) → ∃ i, l !! i = Some a ∧ l !! S i = Some b.
Proof.
  intros [i Hi]%list_elem_of_lookup_1. exists i.
  rewrite lookup_zip_with in Hi.
  destruct (l !! i) as [a'|] eqn:Ha; simplify_eq/=.
  rewrite lookup_drop in Hi. change (1 + i)%nat with (S i) in Hi.
  destruct (l !! S i) as [b'|]; by simplify_eq/=.
Qed.

Lemma NoDup_consecutive {A} (l : list A) : NoDup l → NoDup (zip l (drop 1 l)).*1.
Proof.
  intros Hnd. rewrite <-(zip_with_take_l _ l), fst_zip by (rewrite length_take; lia).
  eapply sublist_NoDup; [exact Hnd|apply sublist_take].
Qed.

Lemma NoDup_length_filter_ne (x : Z) A :
  NoDup A →
  (length A ≤ (if decide (x ∈ A) then 1 else 0) + length (filter (λ a, a ≠ x) A))%nat.
Proof.
  induction 1 as [|a A Ha Hnd IH]; [done|].
  rewrite filter_cons. destruct (decide (a = x)) as [->|Hne].
  - rewrite decide_True by left. rewrite decide_False in IH by done.
    rewrite decide_False by (by intros []). simpl in *. lia.
  - rewrite (decide_True (P := a ≠ x)) by done.
    destruct (decide (x ∈ A)) as [Hin|Hnotin].
    + rewrite decide_True by (by right). simpl in *. lia.
    + rewrite decide_False; [simpl in *; lia|].
      intros [->|?]%elem_of_cons; done.
Qed.

(** Routers named by distinct ids, each with a neighbour entry whose pair
    is in the list, give as many coloured lines at least. *)
Lemma highlighted_ge hl rs (A : list Z) :
  NoDup A →
  (∀ a, a ∈ A → ∃ r n, r ∈ rs ∧ n ∈ nieghbors r ∧ id r = a ∧ (a, n.1) ∈ hl) →
  (length A ≤ highlighted hl rs)%nat.
Proof.
  revert A. induction rs as [|r rs IH]; intros A Hnd HA.
  - destruct A as [|a A]; [done|].
    destruct (HA a) as (r & _ & []%elem_of_nil & _). left.
  - change (highlighted hl (r :: rs)) with
      (length (filter (λ n : Z * Z, (id r, n.1) ∈ hl) (nieghbors r))
       + highlighted hl rs)%nat.
    destruct (filter (λ n : Z * Z, (id r, n.1) ∈ hl) (nieghbors r)) as [|n0 l0] eqn:Hf.
    + simpl. apply IH; [done|]. intros a Ha.
      destruct (HA a Ha) as (r0 & n & [->|Hr0]%elem_of_cons & Hn & Hid & Hhl); [|eauto 10].
      assert (n ∈ filter (λ n : Z * Z, (id r, n.1) ∈ hl) (nieghbors r)) as Hin
        by (apply list_elem_of_filter; by rewrite Hid).
      rewrite Hf in Hin. by apply elem_of_nil in Hin.
    + pose proof (NoDup_length_filter_ne (id r) A Hnd) as Hlen.
      assert (length (filter (λ a, a ≠ id r) A) ≤ highlighted hl rs)%nat as Hrest.
      { apply IH; [by apply NoDup_filter|]. intros a [Hne Ha]%list_elem_of_filter.
        destruct (HA a Ha) as (r0 & n & [->|Hr0]%elem_of_cons & Hn & Hid & Hhl);
          [done|eauto 10]. }
      simpl. destruct (decide (id r ∈ A)); lia.
Qed.

(** X14.  End to end, as the script runs it: on a well-formed topology with
    positive costs below the infinity mark, the path resolved between two
    different routers joined by a chain of links visits no router twice; the
    loop of the steps returns; every step is a link of the graph, from a
    router of the list to one of its listed neighbours; and the second
    drawing colours at least one line for every step, so its file is at
    least fifteen characters per step longer than the file of the first
    drawing, made before the tables were set up. *)
Theorem script_highlights_route rs ms :
  dense_ids rs → neighbors_in_range rs → no_self_neighbor rs → no_empty_list rs →
  edge_costs (λ e, 0 < e ∧ e * Z.of_nat (length rs) < infinity) rs →
  ∃ rs2, script_tables rs = Ok rs2 ∧
    ∀ s d src dest, rs2 !! s = Some src → rs2 !! d = Some dest → s ≠ d →
      reaches (graph rs) s d →
      ∃ fuel path st,
        find_best_route fuel rs2 src dest = ([], Some (Ok path)) ∧
        NoDup path ∧
        steps path = Ok st ∧
        (∀ a b, (a, b) ∈ st →
           ∃ r n, r ∈ rs2 ∧ n ∈ nieghbors r ∧ id r = a ∧ n.1 = b) ∧
        (length path - 1 ≤ highlighted st rs2)%nat ∧
        (String.length (represent_network (rs, ms) []).2
           + 15 * (length path - 1)
         ≤ String.length (represent_network (rs2, ms) st).2)%nat.
Proof.
  intros Hdense Hrange Hself Hne Hcost.
  destruct (script_tables_run rs Hdense Hrange Hne)
    as (rs1 & rs2 & _ & Hrun & _ & Ht2 & Htbl).
  exists rs2. split; [done|].
  intros s d src dest Hs Hdest Hsd Hreach.
  destruct (resolve_route rs rs2 s d src dest)
    as (fuel & vs & w & Hfind & Hr & Hmin); try done.
  { intros p d' Hd'. by destruct (Htbl p d' Hd'). }
  assert (dense_ids rs2) as Hdense2 by (eapply dense_ids_topo; [symmetry; exact Ht2|done]).
  assert (NoDup vs) as Hnd.
  { destruct (decide (NoDup vs)) as [|Hdup]; [done|].
    destruct (route_dup_shorter (graph rs) d s vs w) as (vs' & w' & Hr' & Hlt); [|done..|].
    - apply (edge_costs_graph (λ e, 0 < e)).
      eapply edge_costs_impl; [|exact Hcost]. simpl. tauto.
    - specialize (Hmin _ _ Hr'). lia. }
  assert (∀ a b, (a, b) ∈ zip (Z.of_nat <$> vs) (drop 1 (Z.of_nat <$> vs)) →
    ∃ r n, r ∈ rs2 ∧ n ∈ nieghbors r ∧ id r = a ∧ n.1 = b) as Hlinks.
  { intros a b (i & Ha & Hb)%elem_of_consecutive.
    rewrite list_lookup_fmap in Ha, Hb.
    destruct (vs !! i) as [a'|] eqn:Ha'; simplify_eq/=.
    destruct (vs !! S i) as [b'|] eqn:Hb'; simplify_eq/=.
    destruct (route_links _ _ _ _ _ Hr i a' b' Ha' Hb') as [e He].
    rewrite (graph_topo rs rs2) in He by done.
    pose proof (nbrs_elem_lt _ _ _ He) as Hlt. rewrite length_graph in Hlt.
    destruct (lookup_lt_is_Some_2 rs2 a' Hlt) as [r Hra].
    rewrite (nbrs_graph _ _ _ Hra) in He.
    exists r, (Z.of_nat b', e).
    split_and!; [by eapply list_elem_of_lookup_2|done| |done].
    by apply dense_ids_lookup with rs2. }
  assert (length (Z.of_nat <$> vs) - 1
          ≤ highlighted (zip (Z.of_nat <$> vs) (drop 1 (Z.of_nat <$> vs))) rs2)%nat
    as Hcount.
  { etrans; [|apply (highlighted_ge _ _
      (zip (Z.of_nat <$> vs) (drop 1 (Z.of_nat <$> vs))).*1)].
    - repeat (rewrite length_fmap || rewrite length_zip_with || rewrite length_drop).
      lia.
    - apply NoDup_consecutive, NoDup_fmap_2; [apply _|done].
    - intros a ([a' b] & -> & Hab)%list_elem_of_fmap_1. simpl.
      destruct (Hlinks _ _ Hab) as (r & n & Hin & Hn & Hid & Hb).
      exists r, n. split_and!; [done..|]. by rewrite Hb. }
  exists fuel, (Z.of_nat <$> vs), (zip (Z.of_nat <$> vs) (drop 1 (Z.of_nat <$> vs))).
  split_and!; [done|by apply NoDup_fmap_2; [apply _|]|apply steps_run|done|done|].
  rewrite (represent_network_length rs2 ms).
  rewrite (represent_network_topo rs2 rs ms []) by done. lia.
Qed.

Lemma script_highlights_route_witness :
  ∃ rs2 src dest fuel path st, script_tables routers = Ok rs2 ∧
    find_best_route fuel rs2 src dest = ([], Some (Ok path)) ∧
    steps path = Ok st ∧ (length path - 1 ≤ highlighted st rs2)%nat.
Proof.
  destruct (script_highlights_route routers []) as (rs2 & Hrun & Hroute).
  - exact routers_dense.
  - exact routers_in_range.
  - exact routers_no_self.
  - closed_check.
  - closed_check.
  - vm_compute in Hrun. injection Hrun as <-.
    edestruct (Hroute 0%nat 5%nat) as (fuel & path & st & Hfind & _ & Hst & _ & Hcount & _).
    + reflexivity.
    + reflexivity.
    + discriminate.
    + apply (rtc_l _ _ 1%nat); [exists 1; left|].
      apply (rtc_l _ _ 3%nat); [exists 3; do 2 right; left|].
      apply (rtc_l _ _ 5%nat); [exists 1; do 2 right; left|].
      apply rtc_refl.
    + eexists _, _, _, fuel, path, st.
      split_and!; [vm_compute; reflexivity|exact Hfind|exact Hst|exact Hcount].
Defined.
